(** * TreeView: node registry, search filter, paginator and selection tracker

    A shallow embedding of the data operations of [src/index.js] (class
    [TreeView]); the DOM construction, styling and event wiring are left out.

    Modelling conventions.
    - A JavaScript object of the forest is a [node]: an object identity
      [oid] (its address), its own properties other than [children] in
      insertion order ([props]), and the [children] property ([kids],
      [None] when the property is absent) together with the number of own
      properties that precede it ([kpos]), which [JSON.stringify] needs.
    - Property values are the scalars [value]; numbers are integers, of a
      size that JavaScript holds exactly and prints in decimal, and strings
      are sequences of code units below 256 (Latin-1).  Property names are
      not array indices (JavaScript would enumerate those first).
    - The [children] property of a record handed in is absent or an array
      of nodes.  [kids = None] also stands for the property with the value
      [undefined] that [updateNodeByInternalId] leaves on a leaf; it is
      created after [_internalId], behind the ten characters that the
      derived key keeps of the serialisation.
    - An in-place mutation of a node of the forest is a functional update
      of the forest at that node; this agrees with JavaScript when every
      object occurs once in the forest ([NoDup] of the object identities),
      which the theorems that depend on it assume.  A [children] array has
      no identity of its own here: an array with elements is shared by two
      nodes only if its elements occur twice, and the theorems on a push
      into a children array leave the empty array out.
    - The maps of the registry hold references, here object identities.
    - [Date.now()], [Math.random()] and the allocation of objects are
      effects: the state carries the two oracles, the number of draws made
      and the next free object identity.
    - An exception is the result [Throw], with the state reached when it
      was raised. *)

From Stdlib Require Import ZArith QArith Qround DecimalString Ascii String.
From stdpp Require Import gmap strings list fin_maps.

Set Warnings "-register-all,-abstract-large-number,-clear-no-such-hyp".
#[local] Open Scope Z_scope.

(** ** JavaScript values and strings *)

Inductive value : Type :=
| VUndef
| VNull
| VBool (b : bool)
| VNum (z : Z)
| VStr (s : string).

#[global] Instance value_eq_dec : EqDecision value.
Proof. solve_decision. Defined.

Definition value_enc (v : value) : unit + (unit + (bool + (Z + string))) :=
  match v with
  | VUndef => inl tt
  | VNull => inr (inl tt)
  | VBool b => inr (inr (inl b))
  | VNum z => inr (inr (inr (inl z)))
  | VStr s => inr (inr (inr (inr s)))
  end.

Definition value_dec (x : unit + (unit + (bool + (Z + string)))) : value :=
  match x with
  | inl _ => VUndef
  | inr (inl _) => VNull
  | inr (inr (inl b)) => VBool b
  | inr (inr (inr (inl z))) => VNum z
  | inr (inr (inr (inr s))) => VStr s
  end.

#[global] Instance value_countable : Countable value.
Proof. apply (inj_countable' value_enc value_dec). by intros []. Defined.

(** [ToBoolean]. *)
Definition truthy (v : value) : bool :=
  match v with
  | VUndef | VNull => false
  | VBool b => b
  | VNum z => negb (z =? 0)
  | VStr EmptyString => false
  | VStr _ => true
  end.

(** [a || b] on values. *)
Definition js_or (a b : value) : value := if truthy a then a else b.

Definition is_upper (c : ascii) : bool :=
  let n := nat_of_ascii c in ((65 <=? n) && (n <=? 90))%nat.
Definition is_lower (c : ascii) : bool :=
  let n := nat_of_ascii c in ((97 <=? n) && (n <=? 122))%nat.
Definition is_digit (c : ascii) : bool :=
  let n := nat_of_ascii c in ((48 <=? n) && (n <=? 57))%nat.

(** The character class [a-zA-Z0-9]. *)
Definition is_alnum (c : ascii) : bool := is_lower c || is_upper c || is_digit c.

(** The lower-case form of a code unit: the letters [A-Z] and the upper-case
    letters of Latin-1 (U+00C0 to U+00DE, the sign U+00D7 apart). *)
Definition is_upper_latin1 (c : ascii) : bool :=
  let n := nat_of_ascii c in ((192 <=? n) && (n <=? 222) && negb (n =? 215))%nat.

Definition lower_char (c : ascii) : ascii :=
  if is_upper c || is_upper_latin1 c then ascii_of_nat (nat_of_ascii c + 32) else c.

(** [String.prototype.toLowerCase]. *)
Fixpoint toLowerCase (s : string) : string :=
  match s with
  | EmptyString => EmptyString
  | String c s' => String (lower_char c) (toLowerCase s')
  end.

(** [s.includes(t)]: [t] occurs in [s] as a contiguous substring. *)
Fixpoint includes (s t : string) : bool :=
  String.prefix t s ||
  match s with
  | EmptyString => false
  | String _ s' => includes s' t
  end.

(** [s.replace(/[^a-zA-Z0-9]/g, '')]. *)
Fixpoint strip_non_alnum (s : string) : string :=
  match s with
  | EmptyString => EmptyString
  | String c s' =>
      if is_alnum c then String c (strip_non_alnum s') else strip_non_alnum s'
  end.

(** [xs.join(sep)]. *)
Fixpoint join (sep : string) (xs : list string) : string :=
  match xs with
  | [] => EmptyString
  | [x] => x
  | x :: xs' => x +:+ sep +:+ join sep xs'
  end.

Definition dquote : string := String "034" EmptyString.
Definition backslash : string := String "092" EmptyString.

Definition hex_digit (n : nat) : string :=
  String.substring n 1 "0123456789abcdef".

(** One code unit inside a JSON string literal ([QuoteJSONString]). *)
Definition json_escape_char (c : ascii) : string :=
  let n := nat_of_ascii c in
  if (n =? 34)%nat then backslash +:+ dquote
  else if (n =? 92)%nat then backslash +:+ backslash
  else if (n =? 8)%nat then backslash +:+ "b"
  else if (n =? 12)%nat then backslash +:+ "f"
  else if (n =? 10)%nat then backslash +:+ "n"
  else if (n =? 13)%nat then backslash +:+ "r"
  else if (n =? 9)%nat then backslash +:+ "t"
  else if (n <? 32)%nat then
    backslash +:+ "u00" +:+ hex_digit (n / 16) +:+ hex_digit (n mod 16)
  else String c EmptyString.

Fixpoint json_escape (s : string) : string :=
  match s with
  | EmptyString => EmptyString
  | String c s' => json_escape_char c +:+ json_escape s'
  end.

Definition json_quote (s : string) : string := dquote +:+ json_escape s +:+ dquote.

(** Decimal rendering of an integer ([Number.prototype.toString]). *)
Definition string_of_Z (z : Z) : string := NilZero.string_of_int (Z.to_int z).
Definition string_of_nat (n : nat) : string := NilZero.string_of_uint (Nat.to_uint n).

(** [JSON.stringify] of a property value; an undefined property is left out. *)
Definition json_value (v : value) : option string :=
  match v with
  | VUndef => None
  | VNull => Some "null"%string
  | VBool true => Some "true"%string
  | VBool false => Some "false"%string
  | VNum z => Some (string_of_Z z)
  | VStr s => Some (json_quote s)
  end.

(** ** Objects: ordered own properties *)

(** [o[k]]. *)
Fixpoint prop_get (k : string) (ps : list (string * value)) : value :=
  match ps with
  | [] => VUndef
  | (k', v) :: ps' => if String.eqb k k' then v else prop_get k ps'
  end.

(** [o[k] = v]: an existing property keeps its place, a new one is last. *)
Fixpoint prop_set (k : string) (v : value) (ps : list (string * value))
  : list (string * value) :=
  match ps with
  | [] => [(k, v)]
  | (k', v') :: ps' =>
      if String.eqb k k' then (k, v) :: ps' else (k', v') :: prop_set k v ps'
  end.

(** [Object.assign(target, source)] on the scalar properties. *)
Definition props_assign (target source : list (string * value))
  : list (string * value) :=
  fold_left (fun t kv => prop_set kv.1 kv.2 t) source target.

(** ** Nodes and forests *)

Inductive node : Type :=
  Node { oid : nat;
         props : list (string * value);
         kids : option (list node);
         kpos : nat }.

(** [node.children && node.children.length > 0] selects the children that
    the traversals visit. *)
Definition visited_kids (n : node) : list node :=
  match kids n with
  | Some l => l
  | None => []
  end.

Definition json_entry (kv : string * value) : option string :=
  match json_value kv.2 with
  | Some s => Some (json_quote kv.1 +:+ ":" +:+ s)
  | None => None
  end.

(** [JSON.stringify(node)]. *)
Fixpoint JSON_stringify (n : node) : string :=
  match n with
  | Node _ ps ks kp =>
      let own := map json_entry ps in
      let ch :=
        match ks with
        | None => []
        | Some l =>
            [Some (json_quote "children" +:+ ":[" +:+
                   join "," (map JSON_stringify l) +:+ "]")]
        end in
      "{" +:+ join "," (omap id (take kp own ++ ch ++ drop kp own)) +:+ "}"
  end.

(** [generateNodeId]. *)
Definition generateNodeId (n : node) : value :=
  js_or (prop_get "id" (props n))
        (VStr ("node_" +:+
               String.substring 0 10 (strip_non_alnum (JSON_stringify n)))).

(** [node.id || this.generateNodeId(node)], the natural key. *)
Definition nodeKey (n : node) : value :=
  js_or (prop_get "id" (props n)) (generateNodeId n).

(** ** The state of a [TreeView] instance *)

(** [this.filteredData] is either the very array [this.data] (the initial
    state, [updateData], and [filterNodes] with an empty term, which returns
    its argument) or an array of copies made by [filterNodes]. *)
Inductive filtered : Type :=
| SameArray
| OwnArray (l : list node).

Record TreeView : Type := mkTreeView {
  data : list node;
  displayField : string;
  multiSelect : bool;
  showPagination : bool;
  pageSize : Z;
  currentPage : Z;
  totalPages : Z;
  selectedNodes : gset value;
  expandedNodes : gset value;
  searchTerm : string;
  filteredData : filtered;
  paginatedData : list node;
  nodeDataMap : gmap value nat;
  internalIdMap : gmap value nat;
  nodeToInternalIdMap : gmap nat value;
  internalIdCounter : nat;
  usedInternalIds : gset value;
  (* the environment *)
  Date_now : nat → Z;          (* the reading of the clock at the k-th draw *)
  random36 : nat → string;     (* [Math.random().toString(36).substr(2, 9)] at the k-th draw *)
  draws : nat;                 (* draws made so far *)
  nextOid : nat                (* next free object identity *)
}.

Definition set_data (v : list node) (st : TreeView) : TreeView :=
  let '(mkTreeView a b c d e f g h i j k l m n o p q r s t u) := st in
  mkTreeView v b c d e f g h i j k l m n o p q r s t u.
Definition set_pageSize (v : Z) (st : TreeView) : TreeView :=
  let '(mkTreeView a b c d e f g h i j k l m n o p q r s t u) := st in
  mkTreeView a b c d v f g h i j k l m n o p q r s t u.
Definition set_currentPage (v : Z) (st : TreeView) : TreeView :=
  let '(mkTreeView a b c d e f g h i j k l m n o p q r s t u) := st in
  mkTreeView a b c d e v g h i j k l m n o p q r s t u.
Definition set_totalPages (v : Z) (st : TreeView) : TreeView :=
  let '(mkTreeView a b c d e f g h i j k l m n o p q r s t u) := st in
  mkTreeView a b c d e f v h i j k l m n o p q r s t u.
Definition set_selectedNodes (v : gset value) (st : TreeView) : TreeView :=
  let '(mkTreeView a b c d e f g h i j k l m n o p q r s t u) := st in
  mkTreeView a b c d e f g v i j k l m n o p q r s t u.
Definition set_expandedNodes (v : gset value) (st : TreeView) : TreeView :=
  let '(mkTreeView a b c d e f g h i j k l m n o p q r s t u) := st in
  mkTreeView a b c d e f g h v j k l m n o p q r s t u.
Definition set_searchTerm (v : string) (st : TreeView) : TreeView :=
  let '(mkTreeView a b c d e f g h i j k l m n o p q r s t u) := st in
  mkTreeView a b c d e f g h i v k l m n o p q r s t u.
Definition set_filteredData (v : filtered) (st : TreeView) : TreeView :=
  let '(mkTreeView a b c d e f g h i j k l m n o p q r s t u) := st in
  mkTreeView a b c d e f g h i j v l m n o p q r s t u.
Definition set_paginatedData (v : list node) (st : TreeView) : TreeView :=
  let '(mkTreeView a b c d e f g h i j k l m n o p q r s t u) := st in
  mkTreeView a b c d e f g h i j k v m n o p q r s t u.
Definition set_nodeDataMap (v : gmap value nat) (st : TreeView) : TreeView :=
  let '(mkTreeView a b c d e f g h i j k l m n o p q r s t u) := st in
  mkTreeView a b c d e f g h i j k l v n o p q r s t u.
Definition set_internalIdMap (v : gmap value nat) (st : TreeView) : TreeView :=
  let '(mkTreeView a b c d e f g h i j k l m n o p q r s t u) := st in
  mkTreeView a b c d e f g h i j k l m v o p q r s t u.
Definition set_nodeToInternalIdMap (v : gmap nat value) (st : TreeView) : TreeView :=
  let '(mkTreeView a b c d e f g h i j k l m n o p q r s t u) := st in
  mkTreeView a b c d e f g h i j k l m n v p q r s t u.
Definition set_internalIdCounter (v : nat) (st : TreeView) : TreeView :=
  let '(mkTreeView a b c d e f g h i j k l m n o p q r s t u) := st in
  mkTreeView a b c d e f g h i j k l m n o v q r s t u.
Definition set_usedInternalIds (v : gset value) (st : TreeView) : TreeView :=
  let '(mkTreeView a b c d e f g h i j k l m n o p q r s t u) := st in
  mkTreeView a b c d e f g h i j k l m n o p v r s t u.
Definition set_draws (v : nat) (st : TreeView) : TreeView :=
  let '(mkTreeView a b c d e f g h i j k l m n o p q r s t u) := st in
  mkTreeView a b c d e f g h i j k l m n o p q r s v u.
Definition set_nextOid (v : nat) (st : TreeView) : TreeView :=
  let '(mkTreeView a b c d e f g h i j k l m n o p q r s t u) := st in
  mkTreeView a b c d e f g h i j k l m n o p q r s t v.

(** The array [this.filteredData] denotes. *)
Definition filteredView (st : TreeView) : list node :=
  match filteredData st with
  | SameArray => data st
  | OwnArray l => l
  end.

(** ** Results and the state-and-exception monad *)

Inductive Res (A : Type) : Type :=
| Ok (a : A)
| Throw (msg : string).
Arguments Ok {A} a.
Arguments Throw {A} msg.

Definition M (A : Type) : Type := TreeView → Res A * TreeView.

Definition ret {A} (a : A) : M A := fun st => (Ok a, st).
Definition throw {A} (msg : string) : M A := fun st => (Throw msg, st).
Definition bind {A B} (m : M A) (k : A → M B) : M B :=
  fun st =>
    match m st with
    | (Ok a, st1) => k a st1
    | (Throw msg, st1) => (Throw msg, st1)
    end.
Definition modify (f : TreeView → TreeView) : M unit := fun st => (Ok tt, f st).
Definition gets {A} (f : TreeView → A) : M A := fun st => (Ok (f st), st).

Notation "x <-- m ;; k" := (bind m (fun x => k))
  (at level 100, m at next level, right associativity).
Notation "m ;;; k" := (bind m (fun _ => k))
  (at level 100, right associativity).

(** ** Query engine: [filterNodes] *)

Definition TypeError : string := "TypeError".

(** [nodes.forEach] of [filterNodes]: [f] filters one node, allocating from
    the given object identity on. *)
Definition filterEach (f : node → nat → Res (option node) * nat)
  : list node → nat → Res (list node) * nat :=
  fix go (l : list node) (nx : nat) :=
    match l with
    | [] => (Ok [], nx)
    | c :: l' =>
        match f c nx with
        | (Throw m, nx1) => (Throw m, nx1)
        | (Ok r, nx1) =>
            match go l' nx1 with
            | (Throw m, nx2) => (Throw m, nx2)
            | (Ok rs, nx2) =>
                (Ok (match r with Some x => x :: rs | None => rs end), nx2)
            end
        end
    end.

(** The body of the [forEach] callback of [filterNodes], for a non-empty
    term: [Some] of the copy pushed to [filtered], or [None]. *)
Fixpoint filterNode (df term : string) (n : node) (next : nat)
  : Res (option node) * nat :=
  match n with
  | Node o ps ks kp =>
      match prop_get df ps with
      | VStr s =>
          let nodeMatches := includes (toLowerCase s) term in
          let '(rc, next1) :=
            match ks with
            | Some l => filterEach (filterNode df term) l next
            | None => (Ok [], next)
            end in
          match rc with
          | Throw m => (Throw m, next1)
          | Ok filteredChildren =>
              if nodeMatches || (0 <? length filteredChildren)%nat
              then (Ok (Some (Node next1 ps (Some filteredChildren)
                                   (match ks with
                                    | Some _ => kp
                                    | None => length ps
                                    end))),
                    S next1)
              else (Ok None, next1)
          end
      | _ => (Throw TypeError, next)
      end
  end.

(** [filterNodes(nodes, searchTerm)] with [this.displayField = df]. *)
Definition filterNodes_from (df : string) (nodes : list node) (searchTerm : string)
  (next : nat) : Res (list node) * nat :=
  match searchTerm with
  | EmptyString => (Ok nodes, next)
  | _ => filterEach (filterNode df searchTerm) nodes next
  end.

Definition filterNodes (nodes : list node) (searchTerm : string) : M (list node) :=
  fun st =>
    let '(r, next) := filterNodes_from (displayField st) nodes searchTerm (nextOid st) in
    (r, set_nextOid next st).

(** [this.filteredData = this.filterNodes(this.data, this.searchTerm)]. *)
Definition refilter : M unit :=
  fun st =>
    match filterNodes (data st) (searchTerm st) st with
    | (Throw m, st1) => (Throw m, st1)
    | (Ok r, st1) =>
        (Ok tt,
         set_filteredData
           (match searchTerm st with
            | EmptyString => SameArray
            | _ => OwnArray r
            end) st1)
    end.

(** ** Paginator *)

(** [Math.ceil(a / b)] for integers [a] and [b], [b] not zero. *)
Definition Math_ceil_div (a b : Z) : Z := Qceiling (inject_Z a / inject_Z b)%Q.

(** [array.slice(start, end)] for integer arguments. *)
Definition slice {A} (l : list A) (start stop : Z) : list A :=
  let len := Z.of_nat (length l) in
  let k := if start <? 0 then Z.max (len + start) 0 else Z.min start len in
  let final := if stop <? 0 then Z.max (len + stop) 0 else Z.min stop len in
  take (Z.to_nat (final - k)) (drop (Z.to_nat k) l).

Definition calculatePagination (st : TreeView) : TreeView :=
  let totalItems := Z.of_nat (length (filteredView st)) in
  let st1 := set_totalPages (Z.max 1 (Math_ceil_div totalItems (pageSize st))) st in
  let st2 := if currentPage st1 >? totalPages st1
             then set_currentPage (totalPages st1) st1 else st1 in
  if currentPage st2 <? 1 then set_currentPage 1 st2 else st2.

Definition getPaginatedData (st : TreeView) : list node * TreeView :=
  if negb (showPagination st) then (filteredView st, st)
  else
    let st1 := calculatePagination st in
    let startIndex := (currentPage st1 - 1) * pageSize st1 in
    let endIndex := startIndex + pageSize st1 in
    let page := slice (filteredView st1) startIndex endIndex in
    (page, set_paginatedData page st1).

(** [updateTreeContent]: the page is recomputed, and with pagination shown
    [updatePaginationControls] calls [calculatePagination] once more; the
    DOM is not modelled. *)
Definition updateTreeContent (st : TreeView) : TreeView :=
  let st1 := (getPaginatedData st).2 in
  if showPagination st1 then calculatePagination st1 else st1.

Definition setPageSize (newPageSize : Z) (st : TreeView) : TreeView :=
  if newPageSize <=? 0 then st
  else updateTreeContent (set_currentPage 1 (set_pageSize newPageSize st)).

Definition goToPage (page : Z) (st : TreeView) : TreeView :=
  if (page <? 1) || (page >? totalPages st) then st
  else updateTreeContent (set_currentPage page st).

Definition nextPage (st : TreeView) : TreeView :=
  if currentPage st <? totalPages st
  then updateTreeContent (set_currentPage (currentPage st + 1) st) else st.

Definition previousPage (st : TreeView) : TreeView :=
  if currentPage st >? 1
  then updateTreeContent (set_currentPage (currentPage st - 1) st) else st.

Definition firstPage (st : TreeView) : TreeView :=
  updateTreeContent (set_currentPage 1 st).

Definition lastPage (st : TreeView) : TreeView :=
  updateTreeContent (set_currentPage (totalPages st) st).

(** ** Selection tracker and expansion markers *)

(** [selectNodeAndChildren(node, nodeId)]. *)
Fixpoint selectNodeAndChildren (n : node) (nodeId : value) (st : TreeView) : TreeView :=
  match n with
  | Node _ _ ks _ =>
      let st1 := set_selectedNodes ({[nodeId]} ∪ selectedNodes st) st in
      match ks with
      | Some l =>
          fold_left (fun s child => selectNodeAndChildren child (nodeKey child) s) l st1
      | None => st1
      end
  end.

(** [deselectNodeAndChildren(node, nodeId)]. *)
Fixpoint deselectNodeAndChildren (n : node) (nodeId : value) (st : TreeView) : TreeView :=
  match n with
  | Node _ _ ks _ =>
      let st1 := set_selectedNodes (selectedNodes st ∖ {[nodeId]}) st in
      match ks with
      | Some l =>
          fold_left (fun s child => deselectNodeAndChildren child (nodeKey child) s) l st1
      | None => st1
      end
  end.

(** [toggleSelection(nodeId, checkbox, node)], without the checkbox. *)
Definition toggleSelection (nodeId : value) (n : node) (st : TreeView) : TreeView :=
  if bool_decide (nodeId ∈ selectedNodes st)
  then deselectNodeAndChildren n nodeId st
  else selectNodeAndChildren n nodeId st.

(** [selectNode(nodeId, nodeDiv, node)], without the DOM classes. *)
Definition selectNode (nodeId : value) (st : TreeView) : TreeView :=
  let st1 := if multiSelect st then st else set_selectedNodes ∅ st in
  set_selectedNodes ({[nodeId]} ∪ selectedNodes st1) st1.

Definition clearSelection (st : TreeView) : TreeView :=
  updateTreeContent (set_selectedNodes ∅ st).

(** [toggleNode(nodeId, toggle, li)], without the DOM classes. *)
Definition toggleNode (nodeId : value) (st : TreeView) : TreeView :=
  if bool_decide (nodeId ∈ expandedNodes st)
  then set_expandedNodes (expandedNodes st ∖ {[nodeId]}) st
  else set_expandedNodes ({[nodeId]} ∪ expandedNodes st) st.

(** [collectNodeIds] of [autoExpandSearchResults] and of [expandAllNodes];
    both visit the same nodes, an empty [children] array adding nothing. *)
Fixpoint collectNodeIds_node (n : node) : list value :=
  match n with
  | Node _ _ ks _ =>
      nodeKey n ::
      match ks with
      | Some l => flat_map collectNodeIds_node l
      | None => []
      end
  end.
Definition collectNodeIds (nodes : list node) : list value :=
  flat_map collectNodeIds_node nodes.

Definition autoExpandSearchResults (st : TreeView) : TreeView :=
  set_expandedNodes
    (fold_left (fun s id => {[id]} ∪ s) (collectNodeIds (filteredView st)) (expandedNodes st))
    st.

Definition expandAllNodes (st : TreeView) : TreeView :=
  let '(page, st1) := getPaginatedData st in
  updateTreeContent
    (set_expandedNodes
       (fold_left (fun s id => {[id]} ∪ s) (collectNodeIds page) (expandedNodes st1)) st1).

Definition collapseAllNodes (st : TreeView) : TreeView :=
  updateTreeContent (set_expandedNodes ∅ st).

(** [handleSearch(term)]. *)
Definition handleSearch (term : string) : M unit :=
  modify (set_searchTerm (toLowerCase term)) ;;;
  refilter ;;;
  modify (set_currentPage 1) ;;;
  modify (fun st => match searchTerm st with
                    | EmptyString => st
                    | _ => autoExpandSearchResults st
                    end) ;;;
  modify updateTreeContent.

(** ** Identity allocator *)

Definition maxAttempts : nat := 10000.

Definition AllocationError : string :=
  "Unable to generate unique internal ID after maximum attempts".

(** One pass of the [do ... while] body up to the [while] test: the counter
    is incremented and the candidate built from it and from one draw. *)
Definition draw_candidate (st : TreeView) : value * TreeView :=
  let c := S (internalIdCounter st) in
  let cand := VStr (string_of_nat c +:+ "_" +:+ string_of_Z (Date_now st (draws st))
                    +:+ "_" +:+ random36 st (draws st)) in
  (cand, set_draws (S (draws st)) (set_internalIdCounter c st)).

(** The loop of [generateInternalId] with [remaining] further passes
    allowed after this one; pass number [maxAttempts + 1] throws. *)
Fixpoint generateInternalId_loop (remaining : nat) (st : TreeView) : Res value * TreeView :=
  let '(cand, st1) := draw_candidate st in
  match remaining with
  | O => (Throw AllocationError, st1)
  | S r =>
      if bool_decide (cand ∈ usedInternalIds st1)
      then generateInternalId_loop r st1
      else (Ok cand, set_usedInternalIds ({[cand]} ∪ usedInternalIds st1) st1)
  end.

Definition generateInternalId : M value := generateInternalId_loop maxAttempts.

(** ** Node registry *)

(** [nodes.forEach] over nodes that the callback mutates in place: the
    nodes as they are afterwards, whether or not the callback threw. *)
Definition forEach_inplace (f : node → TreeView → (node * Res unit) * TreeView)
  : list node → TreeView → (list node * Res unit) * TreeView :=
  fix go (l : list node) (st : TreeView) :=
    match l with
    | [] => (([], Ok tt), st)
    | c :: l' =>
        match f c st with
        | ((c', Throw m), st1) => ((c' :: l', Throw m), st1)
        | ((c', Ok _), st1) =>
            let '((l'', r), st2) := go l' st1 in ((c' :: l'', r), st2)
        end
    end.

(** The internal id of a node in [mapNodes]: the one it carries, unless it
    is missing or already indexed, in which case a new one is generated and
    written to the node; the result is the id and the properties of the
    node afterwards. *)
Definition assignInternalId (ps : list (string * value))
  : M (value * list (string * value)) :=
  fun st =>
    let internalId := prop_get "_internalId" ps in
    if negb (truthy internalId) || bool_decide (is_Some (internalIdMap st !! internalId))
    then
      match generateInternalId st with
      | (Ok fresh, st') => (Ok (fresh, prop_set "_internalId" fresh ps), st')
      | (Throw m, st') => (Throw m, st')
      end
    else
      (Ok (internalId, ps),
       set_usedInternalIds ({[internalId]} ∪ usedInternalIds st) st).

(** The three [set] calls of [mapNodes]. *)
Definition indexNode (nodeId internalId : value) (o : nat) (st : TreeView) : TreeView :=
  set_nodeToInternalIdMap (<[o := internalId]> (nodeToInternalIdMap st))
    (set_internalIdMap (<[internalId := o]> (internalIdMap st))
       (set_nodeDataMap (<[nodeId := o]> (nodeDataMap st)) st)).

(** The callback of [mapNodes] in [buildNodeDataMap].  The id is written
    to the node visited; an object that occurs twice in the forest would be
    visited, and written to, twice as one object, which this definition does
    not follow: it is the callback on forests of distinct objects. *)
Fixpoint mapNode (n : node) (st : TreeView) : (node * Res unit) * TreeView :=
  match n with
  | Node o ps ks kp =>
      let nodeId := nodeKey n in
      match assignInternalId ps st with
      | (Throw m, st1) => ((n, Throw m), st1)
      | (Ok (internalId, ps1), st1) =>
          let st2 := indexNode nodeId internalId o st1 in
          match ks with
          | Some l =>
              let '((l', r'), st3) := forEach_inplace mapNode l st2 in
              ((Node o ps1 (Some l') kp, r'), st3)
          | None => ((Node o ps1 None kp, Ok tt), st2)
          end
      end
  end.

Definition mapNodes : list node → TreeView → (list node * Res unit) * TreeView :=
  forEach_inplace mapNode.

Definition buildNodeDataMap : M unit :=
  fun st =>
    let st0 := set_nodeToInternalIdMap ∅ (set_internalIdMap ∅ (set_nodeDataMap ∅ st)) in
    let '((d, r), st1) := mapNodes (data st0) st0 in
    (r, set_data d st1).

(** [refreshTree]. *)
Definition refreshTree : M unit :=
  refilter ;;; buildNodeDataMap ;;; modify updateTreeContent.

(** [updateData(newData)]. *)
Definition updateData (newData : list node) : M unit :=
  modify (set_data newData) ;;;
  modify (set_filteredData SameArray) ;;;
  modify (set_currentPage 1) ;;;
  buildNodeDataMap ;;;
  modify updateTreeContent.

(** [importTreeData(jsonData)] on parsed input: [None] is a value that is
    not an array; the [catch] turns every exception into [false]. *)
Definition importTreeData (importedData : option (list node)) : M bool :=
  fun st =>
    match importedData with
    | None => (Ok false, st)
    | Some d =>
        match updateData d st with
        | (Ok _, st1) => (Ok true, st1)
        | (Throw _, st1) => (Ok false, st1)
        end
    end.

(** The first result of [f] on the nodes of an array, in order. *)
Definition findFirst (f : node → option node) : list node → option node :=
  fix go (l : list node) :=
    match l with
    | [] => None
    | c :: l' =>
        match f c with
        | Some r => Some r
        | None => go l'
        end
    end.

(** The first node with identity [o], in depth-first pre-order: the object
    a reference denotes, as the forest holds it. *)
Fixpoint findNode_node (o : nat) (n : node) : option node :=
  match n with
  | Node o' _ ks _ =>
      if bool_decide (o' = o) then Some n
      else match ks with
           | Some l => findFirst (findNode_node o) l
           | None => None
           end
  end.
Definition findNode (o : nat) : list node → option node :=
  findFirst (findNode_node o).

(** [getNodeByInternalId(internalId)]. *)
Definition getNodeByInternalId (internalId : value) (st : TreeView) : option node :=
  if negb (truthy internalId) then None
  else match internalIdMap st !! internalId with
       | Some o => findNode o (data st)
       | None => None
       end.

(** [getInternalId(node)]. *)
Definition getInternalId (n : node) (st : TreeView) : option value :=
  match nodeToInternalIdMap st !! oid n with
  | Some i => if truthy i then Some i else None
  | None => None
  end.

(** ** Tree mutator *)

(** The loop of [removeFromNodes]: the array without the first node that is
    [target], searched in depth-first pre-order, and the node spliced out;
    [f] is the recursive call on the children of a node. *)
Definition removeFrom (f : node → option (node * node)) (target : nat)
  : list node → option (list node * node) :=
  fix go (l : list node) :=
    match l with
    | [] => None
    | c :: l' =>
        if bool_decide (oid c = target) then Some (l', c)
        else match f c with
             | Some (c', x) => Some (c' :: l', x)
             | None =>
                 match go l' with
                 | Some (l'', x) => Some (c :: l'', x)
                 | None => None
                 end
             end
    end.

Fixpoint removeIn (target : nat) (n : node) : option (node * node) :=
  match n with
  | Node o ps ks kp =>
      match ks with
      | Some l =>
          match removeFrom (removeIn target) target l with
          | Some (l', x) => Some (Node o ps (Some l') kp, x)
          | None => None
          end
      | None => None
      end
  end.

Definition removeFromNodes (target : nat) : list node → option (list node * node) :=
  removeFrom (removeIn target) target.

(** [cleanupNodeMappings(node)]. *)
Fixpoint cleanupNodeMappings (n : node) (st : TreeView) : TreeView :=
  match n with
  | Node o ps ks _ =>
      let nodeId := nodeKey n in
      let internalId := prop_get "_internalId" ps in
      let st1 :=
        set_expandedNodes (expandedNodes st ∖ {[nodeId]})
          (set_selectedNodes (selectedNodes st ∖ {[nodeId]})
             (set_nodeToInternalIdMap (delete o (nodeToInternalIdMap st))
                (set_internalIdMap (delete internalId (internalIdMap st))
                   (set_nodeDataMap (delete nodeId (nodeDataMap st)) st)))) in
      match ks with
      | Some l => fold_left (fun s child => cleanupNodeMappings child s) l st1
      | None => st1
      end
  end.

(** [removeNodeByInternalId(internalId)]; the callback [onNodeRemove] is
    outside the model. *)
Definition removeNodeByInternalId (internalId : value) : M bool :=
  fun st =>
    if negb (truthy internalId) then (Ok false, st)
    else
      match internalIdMap st !! internalId with
      | None => (Ok false, st)
      | Some target =>
          match removeFromNodes target (data st) with
          | Some (d, nodeToRemove) =>
              (modify (set_data d) ;;;
               modify (cleanupNodeMappings nodeToRemove) ;;;
               refilter ;;;
               buildNodeDataMap ;;;
               modify updateTreeContent ;;;
               ret true) st
          | None => (Ok false, st)
          end
      end.

(** An in-place change [f] of the object [o], seen from a node that may
    contain it. *)
Fixpoint updateNode (o : nat) (f : node → node) (n : node) : node :=
  match n with
  | Node o' ps ks kp =>
      if bool_decide (o' = o) then f n
      else Node o' ps
             (match ks with
              | Some l => Some (map (updateNode o f) l)
              | None => None
              end) kp
  end.
Definition updateForest (o : nat) (f : node → node) (nodes : list node) : list node :=
  map (updateNode o f) nodes.

(** The assignments of [updateNodeByInternalId] to the node: the fields of
    [updatedData] are merged, then [children] and [_internalId] are put
    back. *)
Definition mergeUpdate (updatedData : node) (n : node) : node :=
  let children := kids n in
  let originalInternalId := prop_get "_internalId" (props n) in
  Node (oid n)
       (prop_set "_internalId" originalInternalId
                 (props_assign (props n) (props updatedData)))
       children (kpos n).

(** [updateNodeByInternalId(internalId, updatedData)]; [None] stands for an
    [updatedData] that is not an object. *)
Definition updateNodeByInternalId (internalId : value) (updatedData : option node) : M bool :=
  fun st =>
    if negb (truthy internalId) then (Ok false, st)
    else
      match updatedData with
      | None => (Ok false, st)
      | Some u =>
          match internalIdMap st !! internalId with
          | None => (Ok false, st)
          | Some o =>
              (modify (fun s => set_data (updateForest o (mergeUpdate u) (data s)) s) ;;;
               refilter ;;;
               modify updateTreeContent ;;;
               ret true) st
          end
      end.

(** [const newNode = { ...newNodeData }]: a new object with the same
    properties and the same [children] array. *)
Definition spreadCopy (d : node) : M node :=
  fun st => (Ok (Node (nextOid st) (props d) (kids d) (kpos d)),
             set_nextOid (S (nextOid st)) st).

Definition with_internalId (i : value) (n : node) : node :=
  Node (oid n) (prop_set "_internalId" i (props n)) (kids n) (kpos n).

(** The [switch] of [addToRootLevel] and of [addToParentNode]: ['first']
    is [unshift], every other position is [push]. *)
Definition insertByPosition (newNode : node) (position : string) (l : list node)
  : list node :=
  if String.eqb position "first" then newNode :: l else l ++ [newNode].

Definition addToRootLevel (newNode : node) (position : string) (st : TreeView) : TreeView :=
  set_data (insertByPosition newNode position (data st)) st.

(** [addToParentNode(parentNode, newNode, position)] as a change of the
    parent object.  A parent without a children list gets the new list as
    its last property; the code gives it the place of an own [children]
    property that holds [undefined], when there is one. *)
Definition addToParentNode (newNode : node) (position : string) (parentNode : node) : node :=
  match kids parentNode with
  | Some l =>
      Node (oid parentNode) (props parentNode)
           (Some (insertByPosition newNode position l)) (kpos parentNode)
  | None =>
      Node (oid parentNode) (props parentNode)
           (Some (insertByPosition newNode position []))
           (length (props parentNode))
  end.

(** The root sentinel of [addNode]: [0], [null] or [undefined]. *)
Definition is_root_sentinel (v : value) : bool :=
  match v with
  | VNum 0 | VNull | VUndef => true
  | _ => false
  end.

(** [addNode(parentInternalId, newNodeData, position)]; [None] stands for a
    [newNodeData] that is not an object, and for the result [null]. *)
Definition addNode (parentInternalId : value) (newNodeData : option node)
  (position : string) : M (option value) :=
  match newNodeData with
  | None => ret None
  | Some d =>
      newNode0 <-- spreadCopy d ;;
      internalId <-- generateInternalId ;;
      let newNode := with_internalId internalId newNode0 in
      if is_root_sentinel parentInternalId then
        modify (addToRootLevel newNode position) ;;;
        refreshTree ;;;
        ret (Some internalId)
      else
        parent <-- gets (fun st => internalIdMap st !! parentInternalId) ;;
        match parent with
        | None => ret None
        | Some p =>
            modify (fun s => set_data
                        (updateForest p (addToParentNode newNode position) (data s)) s) ;;;
            refreshTree ;;;
            ret (Some internalId)
        end
  end.

(** [findParent] of [findParentNode]: the parent of the first node that is
    [target]; [None] is [null], for a root as for a node not found. *)
Definition findParentIn (f : node → option nat) (target : nat) (parent : option nat)
  : list node → option (option nat) :=
  fix go (l : list node) :=
    match l with
    | [] => None
    | c :: l' =>
        if bool_decide (oid c = target) then Some parent
        else match f c with
             | Some p => Some (Some p)
             | None => go l'
             end
    end.

Fixpoint findParentUnder (target : nat) (n : node) : option nat :=
  match n with
  | Node o _ ks _ =>
      match ks with
      | Some l =>
          match findParentIn (findParentUnder target) target (Some o) l with
          | Some (Some p) => Some p
          | _ => None
          end
      | None => None
      end
  end.

Definition findParentNode (target : nat) (nodes : list node) : option nat :=
  match findParentIn (findParentUnder target) target None nodes with
  | Some (Some p) => Some p
  | _ => None
  end.

(** [array.indexOf(target)] by identity. *)
Fixpoint indexOf (target : nat) (l : list node) : Z :=
  match l with
  | [] => -1
  | c :: l' =>
      if bool_decide (oid c = target) then 0
      else let i := indexOf target l' in if i <? 0 then -1 else i + 1
  end.

(** [array.splice(start, 0, x)]. *)
Definition splice_insert {A} (start : Z) (x : A) (l : list A) : list A :=
  let len := Z.of_nat (length l) in
  let k := Z.to_nat (if start <? 0 then Z.max (len + start) 0 else Z.min start len) in
  take k l ++ x :: drop k l.

Definition insertBeside (reference : nat) (position : string) (newNode : node)
  (l : list node) : list node :=
  let referenceIndex := indexOf reference l in
  let insertIndex :=
    if String.eqb position "before" then referenceIndex else referenceIndex + 1 in
  splice_insert insertIndex newNode l.

(** [addNodeAtPosition(newNodeData, referenceInternalId, position)]. *)
Definition addNodeAtPosition (newNodeData : option node) (referenceInternalId : value)
  (position : string) : M (option value) :=
  match newNodeData with
  | None => ret None
  | Some d =>
      reference <-- gets (fun st => internalIdMap st !! referenceInternalId) ;;
      match reference with
      | None => ret None
      | Some r =>
          newNode0 <-- spreadCopy d ;;
          internalId <-- generateInternalId ;;
          let newNode := with_internalId internalId newNode0 in
          modify (fun s =>
                    match findParentNode r (data s) with
                    | Some p =>
                        set_data
                          (updateForest p
                             (fun parentNode =>
                                Node (oid parentNode) (props parentNode)
                                     (Some (insertBeside r position newNode
                                              (visited_kids parentNode)))
                                     (kpos parentNode))
                             (data s)) s
                    | None => set_data (insertBeside r position newNode (data s)) s
                    end) ;;;
          refreshTree ;;;
          ret (Some internalId)
      end
  end.

(** ** Construction *)

(** The fields the constructor sets before it calls [buildNodeDataMap]. *)
Definition initialState (d : option (list node)) (df : string) (multi showPag : bool)
  (ps : Z) (clock : nat → Z) (rnd : nat → string) (next : nat) : TreeView :=
  {| data := match d with Some l => l | None => [] end;
     displayField := df;
     multiSelect := multi;
     showPagination := showPag;
     pageSize := ps;
     currentPage := 1;
     totalPages := 1;
     selectedNodes := ∅;
     expandedNodes := ∅;
     searchTerm := EmptyString;
     filteredData := SameArray;
     paginatedData := [];
     nodeDataMap := ∅;
     internalIdMap := ∅;
     nodeToInternalIdMap := ∅;
     internalIdCounter := 0;
     usedInternalIds := ∅;
     Date_now := clock;
     random36 := rnd;
     draws := 0;
     nextOid := next |}.

(** [new TreeView({...})]: the state when the constructor returns or throws. *)
Definition construct (d : option (list node)) (df : string) (multi showPag expandAll : bool)
  (ps : Z) (clock : nat → Z) (rnd : nat → string) (next : nat) : Res unit * TreeView :=
  (buildNodeDataMap ;;;
   modify updateTreeContent ;;;
   modify (fun st => if expandAll then expandAllNodes st else st))
    (initialState d df multi showPag ps clock rnd next).

(** ** Public operations, for sequences of calls *)

Inductive op : Type :=
| OpHandleSearch (term : string)
| OpSetPageSize (n : Z)
| OpGoToPage (p : Z)
| OpNextPage
| OpPreviousPage
| OpFirstPage
| OpLastPage
| OpToggleNode (nodeId : value)
| OpSelectNode (nodeId : value)
| OpToggleSelection (nodeId : value) (n : node)
| OpClearSelection
| OpExpandAll
| OpCollapseAll
| OpGenerateInternalId
| OpBuildNodeDataMap
| OpRefreshTree
| OpUpdateData (d : list node)
| OpImportTreeData (d : option (list node))
| OpRemoveNode (internalId : value)
| OpUpdateNode (internalId : value) (u : option node)
| OpAddNode (parent : value) (d : option node) (position : string)
| OpAddNodeAtPosition (d : option node) (reference : value) (position : string).

(** The state after a call, whether it returned or threw. *)
Definition run_op (o : op) (st : TreeView) : TreeView :=
  match o with
  | OpHandleSearch t => (handleSearch t st).2
  | OpSetPageSize n => setPageSize n st
  | OpGoToPage p => goToPage p st
  | OpNextPage => nextPage st
  | OpPreviousPage => previousPage st
  | OpFirstPage => firstPage st
  | OpLastPage => lastPage st
  | OpToggleNode k => toggleNode k st
  | OpSelectNode k => selectNode k st
  | OpToggleSelection k n => toggleSelection k n st
  | OpClearSelection => clearSelection st
  | OpExpandAll => expandAllNodes st
  | OpCollapseAll => collapseAllNodes st
  | OpGenerateInternalId => (generateInternalId st).2
  | OpBuildNodeDataMap => (buildNodeDataMap st).2
  | OpRefreshTree => (refreshTree st).2
  | OpUpdateData d => (updateData d st).2
  | OpImportTreeData d => (importTreeData d st).2
  | OpRemoveNode i => (removeNodeByInternalId i st).2
  | OpUpdateNode i u => (updateNodeByInternalId i u st).2
  | OpAddNode p d pos => (addNode p d pos st).2
  | OpAddNodeAtPosition d r pos => (addNodeAtPosition d r pos st).2
  end.

Definition run_ops (os : list op) (st : TreeView) : TreeView :=
  fold_left (fun s o => run_op o s) os st.

(** ** The vocabulary of the specification *)

(** The descendants of a node, in depth-first pre-order, and the nodes of a
    forest. *)
Fixpoint descendants (n : node) : list node :=
  match n with
  | Node _ _ ks _ =>
      match ks with
      | Some l => flat_map (fun c => c :: descendants c) l
      | None => []
      end
  end.
Definition subtree (n : node) : list node := n :: descendants n.
Definition forestNodes (nodes : list node) : list node := flat_map subtree nodes.

(** The display value of a node, when it is a string. *)
Definition displayText (df : string) (n : node) : option string :=
  match prop_get df (props n) with
  | VStr s => Some s
  | _ => None
  end.

(** Every node of the forest has a string as display value (the data model
    of the specification). *)
Definition displayable (df : string) (nodes : list node) : Prop :=
  Forall (fun n => is_Some (displayText df n)) (forestNodes nodes).

(** The display value contains the term, letter case ignored. *)
Definition matchesTerm (df term : string) (n : node) : bool :=
  match displayText df n with
  | Some s => includes (toLowerCase s) (toLowerCase term)
  | None => false
  end.

(** A node is retained when it matches or one of its children is retained. *)
Fixpoint retained (df term : string) (n : node) : bool :=
  match n with
  | Node _ _ ks _ =>
      matchesTerm df term n ||
      match ks with
      | Some l => existsb (retained df term) l
      | None => false
      end
  end.

(** [c] stands in the filtered forest for the node [n]: it carries the
    properties of [n], and its children stand, in order, for the retained
    children of [n]. *)
Inductive FilteredCopy (df term : string) : node → node → Prop :=
| FilteredCopy_intro (n c : node) :
    props c = props n →
    Forall2 (FilteredCopy df term)
            (List.filter (retained df term) (visited_kids n)) (visited_kids c) →
    FilteredCopy df term n c.

(** The state the paginator is in after a recomputation. *)
Definition paging_ok (st : TreeView) : Prop :=
  totalPages st =
    Z.max 1 (Math_ceil_div (Z.of_nat (length (filteredView st))) (pageSize st)) ∧
  1 ≤ currentPage st ≤ totalPages st.

(** The navigation operations of the paginator. *)
Definition is_navigation (o : op) : bool :=
  match o with
  | OpSetPageSize _ | OpGoToPage _ | OpNextPage | OpPreviousPage
  | OpFirstPage | OpLastPage => true
  | _ => false
  end.

(** The natural keys of a node and of all its descendants. *)
Definition cascadeKeys (n : node) : gset value :=
  list_to_set (map nodeKey (subtree n)).

(** The own fields of a node that the specification lets the derived key
    depend on: every property but [_internalId] (and [children], which
    [props] does not hold). *)
Definition ownFields (n : node) : list (string * value) :=
  List.filter (fun kv => negb (String.eqb kv.1 "_internalId")) (props n).

(** The content of a node, whatever objects hold it. *)
Fixpoint eraseOid (n : node) : node :=
  match n with
  | Node _ ps ks kp =>
      Node 0 ps (match ks with Some l => Some (map eraseOid l) | None => None end) kp
  end.

(** Every character of [s] satisfies [p]. *)
Fixpoint all_chars (p : ascii → bool) (s : string) : bool :=
  match s with
  | EmptyString => true
  | String c s' => p c && all_chars p s'
  end.

(** ** The vocabulary of the registry *)

(** The internal id a node carries. *)
Definition iid (n : node) : value := prop_get "_internalId" (props n).

Definition oids (nodes : list node) : list nat := map oid (forestNodes nodes).
Definition iids (nodes : list node) : list value := map iid (forestNodes nodes).

(** The three indexes of a forest, entered in depth-first pre-order on top
    of given maps. *)
Definition idIndex (nodes : list node) (m : gmap value nat) : gmap value nat :=
  fold_left (fun m n => <[iid n := oid n]> m) (forestNodes nodes) m.
Definition oidIndex (nodes : list node) (m : gmap nat value) : gmap nat value :=
  fold_left (fun m n => <[oid n := iid n]> m) (forestNodes nodes) m.
Definition keyIndex (nodes : list node) (m : gmap value nat) : gmap value nat :=
  fold_left (fun m n => <[nodeKey n := oid n]> m) (forestNodes nodes) m.

(** A node without the internal ids in it: its identity, its other
    properties, and its children likewise. *)
Fixpoint skeleton (n : node) : node :=
  match n with
  | Node o ps ks kp =>
      Node o (List.filter (fun kv => negb (String.eqb kv.1 "_internalId")) ps)
           (match ks with Some l => Some (map skeleton l) | None => None end) kp
  end.

(** Two states that differ at most in the three indexes and in the state of
    the allocator, whose set of issued ids has not shrunk. *)
Definition registry_only (st st' : TreeView) : Prop :=
  usedInternalIds st ⊆ usedInternalIds st' ∧
  st' = set_nodeDataMap (nodeDataMap st')
          (set_internalIdMap (internalIdMap st')
             (set_nodeToInternalIdMap (nodeToInternalIdMap st')
                (set_internalIdCounter (internalIdCounter st')
                   (set_draws (draws st')
                      (set_usedInternalIds (usedInternalIds st') st))))).

(** The forest is well indexed: every node carries an internal id, no two
    nodes carry the same one, and all of them have been issued. *)
Definition ids_settled (used : gset value) (nodes : list node) : Prop :=
  Forall (fun i => truthy i = true) (iids nodes) ∧
  NoDup (iids nodes) ∧
  Forall (fun i => i ∈ used) (iids nodes).

(** An operation in the monad never removes an issued id. *)
Definition keeps_issued {A} (m : M A) : Prop :=
  ∀ st, usedInternalIds st ⊆ usedInternalIds (m st).2.

(** The run of [mapNodes] as a derivation: from a state and an array of
    nodes to the nodes afterwards, the outcome and the state reached. *)
Inductive Build : TreeView → list node → list node → Res unit → TreeView → Prop :=
| Build_nil st :
    Build st [] [] (Ok tt) st
| Build_alloc_throw st o ps ks kp l m st1 :
    assignInternalId ps st = (Throw m, st1) →
    Build st (Node o ps ks kp :: l) (Node o ps ks kp :: l) (Throw m) st1
| Build_leaf st o ps kp l i ps1 st1 l' r st' :
    assignInternalId ps st = (Ok (i, ps1), st1) →
    Build (indexNode (nodeKey (Node o ps None kp)) i o st1) l l' r st' →
    Build st (Node o ps None kp :: l) (Node o ps1 None kp :: l') r st'
| Build_kids_throw st o ps ks kp l i ps1 st1 ks' m st3 :
    assignInternalId ps st = (Ok (i, ps1), st1) →
    Build (indexNode (nodeKey (Node o ps (Some ks) kp)) i o st1) ks ks' (Throw m) st3 →
    Build st (Node o ps (Some ks) kp :: l) (Node o ps1 (Some ks') kp :: l) (Throw m) st3
| Build_kids_ok st o ps ks kp l i ps1 st1 ks' st3 l' r st' :
    assignInternalId ps st = (Ok (i, ps1), st1) →
    Build (indexNode (nodeKey (Node o ps (Some ks) kp)) i o st1) ks ks' (Ok tt) st3 →
    Build st3 l l' r st' →
    Build st (Node o ps (Some ks) kp :: l) (Node o ps1 (Some ks') kp :: l') r st'.

(** What a node holds itself: its identity and its properties. *)
Definition own (n : node) : nat * list (string * value) := (oid n, props n).

(** Two states that differ at most in the filtered forest and in the objects
    allocated. *)
Definition view_only (st st' : TreeView) : Prop :=
  ∃ F nx, st' = set_filteredData F (set_nextOid nx st).

(** [st'] is [st] with the keys [K] taken out of the selection and of the
    expansion markers, and with other indexes. *)
Definition cleaned (K : gset value) (st st' : TreeView) : Prop :=
  ∃ m1 m2 m3,
    st' = set_expandedNodes (expandedNodes st ∖ K)
            (set_selectedNodes (selectedNodes st ∖ K)
               (set_nodeToInternalIdMap m3
                  (set_internalIdMap m2 (set_nodeDataMap m1 st)))).

(** The value [Object.assign] writes for the key [k] when the source has
    the properties [s]: that of the last property named [k]. *)
Fixpoint assigned (k : string) (s : list (string * value)) : option value :=
  match s with
  | [] => None
  | (k', v) :: s' =>
      match assigned k s' with
      | Some w => Some w
      | None => if String.eqb k k' then Some v else None
      end
  end.

(** ** Auxiliary predicates of the proofs *)

(** ** Induction on nodes

  The induction principle for the nested type [node]: the children of a
  node satisfy the property when the node is reached. *)

Section node_induction.
Variable P : node → Prop.
Hypothesis Hleaf : ∀ o ps kp, P (Node o ps None kp).
Hypothesis Hkids : ∀ o ps l kp, Forall P l → P (Node o ps (Some l) kp).

Fixpoint node_ind' (n : node) : P n :=
  match n with
  | Node o ps None kp => Hleaf o ps kp
  | Node o ps (Some l) kp =>
      Hkids o ps l kp
        ((fix go (l : list node) : Forall P l :=
            match l with
            | [] => List.Forall_nil P
            | c :: l' => @List.Forall_cons _ P c l' (node_ind' c) (go l')
            end) l)
  end.
End node_induction.

(** What one call of the filter callback returns on a node [n]: a pruned
    copy when the node is retained, nothing when it is not. *)
Definition filterNode_post (df term : string) (n : node) (r : option node) : Prop :=
  match r with
  | Some c => retained df term n = true ∧ FilteredCopy df term n c
  | None => retained df term n = false
  end.

(** Two states that differ at most in the fields the paginator writes. *)
Definition paging_only (st st' : TreeView) : Prop :=
  ∃ c t p, st' = set_paginatedData p (set_totalPages t (set_currentPage c st)).

(** The states of the example: pagination shown, page size 2, the five root
    items [a] to [e] in the filtered forest, page 1 current, after the
    recomputation every operation ends with. *)
Definition five_items (st : TreeView) (a b c d e : node) : Prop :=
  showPagination st = true ∧ pageSize st = 2 ∧ filteredView st = [a; b; c; d; e] ∧
  currentPage st = 1 ∧ paging_ok st.

(** The natural keys of the nodes of a forest. *)
Definition keysOf (l : list node) : gset value :=
  list_to_set (map nodeKey (forestNodes l)).

(** What [removeIn] returns on a node [n]: the node with the subtree of the
    target cut out, and the target. *)
Definition removeIn_post (t : nat) (n : node) : Prop :=
  ∀ n' x, removeIn t n = Some (n', x) →
    oid x = t ∧ own n' = own n ∧
    map own (descendants n) ≡ₚ map own (descendants n') ++ map own (subtree x).

(** The nodes of a forest after [addToParentNode] ran on the parent [p]
    with the new node [nn]: those before and, when the parent is there, the
    new node's subtree. *)
Definition addChild_post (p : nat) (nn : node) (before after : list node) : Prop :=
  ∃ E, (E = [] ∨ (E = map own (subtree nn) ∧ p ∈ oids before)) ∧
       map own (forestNodes after) ≡ₚ E ++ map own (forestNodes before).

(** ** Concrete trees

    The states the statements below are tried on.  The clock always reads
    1700000000000 and the random source always gives the digits
    [abcdefghi]; object identities of new trees start at 100. *)

Definition example_clock (k : nat) : Z := 1700000000000.
Definition example_random36 (k : nat) : string := "abcdefghi".

(** [{name: name}] and [{name: name, children: [...]}]. *)
Definition leaf (o : nat) (name : string) : node :=
  Node o [("name"%string, VStr name)] None 0.
Definition branch (o : nat) (name : string) (children : list node) : node :=
  Node o [("name"%string, VStr name)] (Some children) 1.

(** A leaf as the registry leaves it, carrying the [k]-th internal id. *)
Definition stamped (o : nat) (name : string) (k : string) : node :=
  Node o [("name"%string, VStr name);
          ("_internalId"%string, VStr (k +:+ "_1700000000000_abcdefghi"))] None 0.

(** [new TreeView({data: forest, displayField: 'name', pageSize: ps})]. *)
Definition treeOf (forest : list node) (ps : Z) : TreeView :=
  (construct (Some forest) "name" false true false ps example_clock example_random36 100).2.

Definition fruits : list node :=
  [branch 0 "Fruits" [leaf 1 "Apple"; leaf 2 "Banana"]; leaf 3 "Vegetables"].
Definition fruitTree : TreeView := treeOf fruits 10.

(** The node [Fruits] of [fruitTree]. *)
Definition fruitsNode : node :=
  Node 0 [("name"%string, VStr "Fruits");
          ("_internalId"%string, VStr "1_1700000000000_abcdefghi")]
       (Some [stamped 1 "Apple" "2"; stamped 2 "Banana" "3"]) 1.

(** Five root items, two to the page. *)
Definition fiveTree : TreeView :=
  treeOf [leaf 1 "i1"; leaf 2 "i2"; leaf 3 "i3"; leaf 4 "i4"; leaf 5 "i5"] 2.

(** The forest [[{name: "A"}]] before the registry was ever built. *)
Definition rawTree : TreeView :=
  initialState (Some [leaf 0 "A"]) "name" false true 10 example_clock example_random36 100.

(** An update that tries to smuggle in children and an internal id. *)
Definition appleUpdate : node :=
  Node 77 [("name"%string, VStr "Apricot"); ("_internalId"%string, VStr "forged")]
       (Some [leaf 78 "Intruder"]) 2.
Definition appleId : value := VStr "2_1700000000000_abcdefghi".

(** A node with a child, added to [fruitTree] and removed again. *)
Definition citrus : node := branch 50 "Citrus" [leaf 51 "Lemon"].
Definition citrusId : value := VStr "5_1700000000000_abcdefghi".
Definition fruitTree_added : TreeView := (addNode VNull (Some citrus) "first" fruitTree).2.
Definition fruitTree_removed : TreeView :=
  (removeNodeByInternalId citrusId fruitTree_added).2.
Definition fruitTree_issued : TreeView :=
  (generateInternalId (set_nextOid (S (nextOid fruitTree)) fruitTree)).2.

(** ** Queries on the forest and the paginator *)

(** [findLevel] of [getNodeLevel]: the level of the first node that is
    [target], searched in depth-first pre-order from [currentLevel]; [-1]
    when there is none.  [f] is the recursive call on the children of a
    node. *)
Definition findLevelIn (f : node → Z) (target : nat) (currentLevel : Z)
  : list node → Z :=
  fix go (l : list node) :=
    match l with
    | [] => -1
    | c :: l' =>
        if bool_decide (oid c = target) then currentLevel
        else let level := f c in
             if negb (level =? -1) then level else go l'
    end.

(** [findLevel(node.children, target, level)], [-1] without children. *)
Fixpoint findLevelUnder (target : nat) (n : node) (level : Z) : Z :=
  match n with
  | Node _ _ ks _ =>
      match ks with
      | Some l => findLevelIn (fun c => findLevelUnder target c (level + 1)) target level l
      | None => -1
      end
  end.

(** [getNodeLevel(targetNode)]. *)
Definition getNodeLevel (target : nat) (st : TreeView) : Z :=
  findLevelIn (fun c => findLevelUnder target c 1) target 0 (data st).

(** [hasInternalId(internalId)]. *)
Definition hasInternalId (internalId : value) (st : TreeView) : bool :=
  bool_decide (is_Some (internalIdMap st !! internalId)).

(** The object [getExportStats] returns. *)
Record ExportStats : Type := mkExportStats {
  stat_totalNodes : nat;
  stat_totalLevels : Z;
  stat_selectedNodes : nat;
  stat_expandedNodes : nat;
  stat_filteredNodes : nat;
  stat_currentPage : Z;
  stat_totalPages : Z
}.

(** The callback of the [forEach] of [calculateStats] at [level], on the
    counters [totalNodes] and [totalLevels]. *)
Fixpoint calculateStats_node (level : Z) (n : node) (acc : nat * Z) : nat * Z :=
  match n with
  | Node _ _ ks _ =>
      let acc1 := (S acc.1, acc.2) in
      match ks with
      | Some l =>
          if (0 <? length l)%nat
          then fold_left (fun a c => calculateStats_node (level + 1) c a) l
                         (acc1.1, Z.max acc1.2 (level + 1))
          else acc1
      | None => acc1
      end
  end.

(** [calculateStats(nodes, level)]. *)
Definition calculateStats (nodes : list node) (level : Z) (acc : nat * Z) : nat * Z :=
  fold_left (fun a c => calculateStats_node level c a) nodes (acc.1, Z.max acc.2 level).

(** [getExportStats()]. *)
Definition getExportStats (st : TreeView) : ExportStats :=
  let counted := calculateStats (data st) 0 (0%nat, 0) in
  {| stat_totalNodes := counted.1;
     stat_totalLevels := counted.2;
     stat_selectedNodes := size (selectedNodes st);
     stat_expandedNodes := size (expandedNodes st);
     stat_filteredNodes := length (filteredView st);
     stat_currentPage := currentPage st;
     stat_totalPages := totalPages st |}.

(** The object [getCurrentPageInfo] returns. *)
Record PageInfo : Type := mkPageInfo {
  info_currentPage : Z;
  info_totalPages : Z;
  info_pageSize : Z;
  info_totalItems : Z;
  info_startItem : Z;
  info_endItem : Z
}.

(** [getCurrentPageInfo()]. *)
Definition getCurrentPageInfo (st : TreeView) : PageInfo :=
  let totalItems := Z.of_nat (length (filteredView st)) in
  {| info_currentPage := currentPage st;
     info_totalPages := totalPages st;
     info_pageSize := pageSize st;
     info_totalItems := totalItems;
     info_startItem := (currentPage st - 1) * pageSize st + 1;
     info_endItem := Z.min (currentPage st * pageSize st) totalItems |}.

(** ** Export *)

(** [delete o[k]]. *)
Definition prop_delete (k : string) (ps : list (string * value)) : list (string * value) :=
  List.filter (fun kv => negb (String.eqb k kv.1)) ps.

(** [data.map] of [cleanDataForExport]: [f] cleans one node, allocating
    from the given object identity on. *)
Definition cleanEach (f : node → nat → node * nat) : list node → nat → list node * nat :=
  fix go (l : list node) (nx : nat) :=
    match l with
    | [] => ([], nx)
    | c :: l' =>
        let '(c', nx1) := f c nx in
        let '(l'', nx2) := go l' nx1 in
        (c' :: l'', nx2)
    end.

(** The callback of [cleanDataForExport]: a copy of the node without its
    [_internalId], whose children, when there are any, are cleaned
    copies. *)
Fixpoint cleanNode (n : node) (next : nat) : node * nat :=
  match n with
  | Node _ ps ks kp =>
      let ps' := prop_delete "_internalId" ps in
      let kp' := length (prop_delete "_internalId" (take kp ps)) in
      match ks with
      | Some l =>
          if (0 <? length l)%nat
          then let '(l', next1) := cleanEach cleanNode l (S next) in
               (Node next ps' (Some l') kp', next1)
          else (Node next ps' (Some l) kp', S next)
      | None => (Node next ps' None kp', S next)
      end
  end.

(** [cleanDataForExport(data)]. *)
Definition cleanDataForExport (nodes : list node) (next : nat) : list node * nat :=
  cleanEach cleanNode nodes next.

(** ** Places in the forest *)

(** The nodes below and including [n] in depth-first pre-order, each with
    its level and its parent, for a node [n] at [level] under [parent]. *)
Fixpoint placedFrom (level : Z) (parent : option nat) (n : node)
  : list (nat * (Z * option nat)) :=
  match n with
  | Node o _ ks _ =>
      (o, (level, parent)) ::
      match ks with
      | Some l => flat_map (placedFrom (level + 1) (Some o)) l
      | None => []
      end
  end.
Definition placed (level : Z) (parent : option nat) (nodes : list node)
  : list (nat * (Z * option nat)) :=
  flat_map (placedFrom level parent) nodes.

(** The first place listed for the object [t]. *)
Definition placeOf (t : nat) (L : list (nat * (Z * option nat))) : option (Z * option nat) :=
  snd <$> List.find (fun p => bool_decide (p.1 = t)) L.

(** A record as a caller hands it in: no property is named [_internalId]. *)
Definition unstamped (n : node) : Prop := "_internalId"%string ∉ map fst (props n).

(** ** The page buttons of [updatePaginationControls] *)

Definition maxVisiblePages : Z := 5.

(** The first and the last page number for which [updatePaginationControls]
    makes a button, each wired to [goToPage]. *)
Definition pageButtons (st : TreeView) : Z * Z :=
  let startPage := Z.max 1 (currentPage st - maxVisiblePages / 2) in
  let endPage := Z.min (totalPages st) (startPage + maxVisiblePages - 1) in
  let startPage :=
    if endPage - startPage + 1 <? maxVisiblePages
    then Z.max 1 (endPage - maxVisiblePages + 1)
    else startPage in
  (startPage, endPage).

(** The registry as a rebuild leaves it on a forest of distinct objects:
    every node carries an internal id of its own, the internal-id index
    holds exactly these, and the objects of the forest were allocated
    before the next free object identity. *)
Definition registry_settled (st : TreeView) : Prop :=
  NoDup (oids (data st)) ∧
  (∀ o, o ∈ oids (data st) → (o < nextOid st)%nat) ∧
  Forall (fun i => truthy i = true) (iids (data st)) ∧
  NoDup (iids (data st)) ∧
  internalIdMap st = idIndex (data st) ∅.

(** A node without the internal ids in it and without the place of its
    [children] property among its properties, and its children likewise. *)
Fixpoint bare (n : node) : node :=
  match n with
  | Node o ps ks _ =>
      Node o (List.filter (fun kv => negb (String.eqb kv.1 "_internalId")) ps)
           (match ks with Some l => Some (map bare l) | None => None end) 0
  end.

(** * Properties *)

(** * Strings *)

Lemma lower_char_idem c : lower_char (lower_char c) = lower_char c.
Proof. destruct c as [[] [] [] [] [] [] [] []]; reflexivity. Qed.

Lemma toLowerCase_idem s : toLowerCase (toLowerCase s) = toLowerCase s.
Proof. induction s as [|c s IH]; simpl; [done|]. by rewrite lower_char_idem, IH. Qed.

Lemma toLowerCase_empty s : toLowerCase s = EmptyString ↔ s = EmptyString.
Proof. destruct s; simpl; split; congruence. Qed.

Lemma append_cons c s t : String c s +:+ t = String c (s +:+ t).
Proof. reflexivity. Qed.

Lemma append_nil_l t : EmptyString +:+ t = t.
Proof. reflexivity. Qed.

Lemma prefix_app_iff t s : String.prefix t s = true ↔ ∃ b, s = t +:+ b.
Proof.
  revert s. induction t as [|c t IH]; intros s; simpl.
  - destruct s; split; eauto.
  - destruct s as [|d s]; simpl.
    + split; [done|]. intros [b Hb]. discriminate.
    + destruct (Ascii.ascii_dec c d) as [->|Hne].
      * rewrite IH. split; intros [b Hb]; exists b.
        -- by rewrite Hb.
        -- rewrite append_cons in Hb. by injection Hb.
      * split; [done|]. intros [b Hb]. rewrite append_cons in Hb. congruence.
Qed.

(** [includes] decides the occurrence of [t] inside [s]. *)
Lemma includes_spec s t : includes s t = true ↔ ∃ a b, s = a +:+ t +:+ b.
Proof.
  induction s as [|c s IH]; cbn [includes].
  - rewrite orb_false_r, prefix_app_iff. split.
    + intros [b Hb]. by exists EmptyString, b.
    + intros (a & b & Hab). destruct a; [eauto|]. rewrite append_cons in Hab. discriminate.
  - rewrite orb_true_iff, prefix_app_iff, IH. split.
    + intros [[b Hb]|(a & b & Hab)].
      * by exists EmptyString, b.
      * exists (String c a), b. by rewrite append_cons, Hab.
    + intros (a & b & Hab). destruct a as [|d a].
      * left. eauto.
      * right. exists a, b. rewrite append_cons in Hab. congruence.
Qed.

Lemma includes_empty s : includes s EmptyString = true.
Proof. apply includes_spec. by exists EmptyString, s. Qed.

(** * The query engine *)

Lemma subtree_displayable df o ps ks kp :
  Forall (fun n => is_Some (displayText df n)) (subtree (Node o ps ks kp)) →
  (∃ s, prop_get df ps = VStr s) ∧
  Forall (fun c => Forall (fun n => is_Some (displayText df n)) (subtree c))
         (visited_kids (Node o ps ks kp)).
Proof.
  unfold subtree. intros H. apply Forall_cons in H as [[s Hs] Hd]. split.
  - unfold displayText in Hs. simpl in Hs. destruct (prop_get df ps); try done. eauto.
  - unfold visited_kids. simpl in *. destruct ks as [l|]; [|constructor].
    induction l as [|c l IH]; [constructor|].
    simpl in Hd. apply Forall_cons in Hd as [Hc Hd].
    apply Forall_app in Hd as [Hdc Hl].
    constructor; [by constructor | by apply IH].
Qed.

Lemma displayable_cons df n l :
  displayable df (n :: l) ↔
  Forall (fun m => is_Some (displayText df m)) (subtree n) ∧ displayable df l.
Proof. unfold displayable, forestNodes. cbn [flat_map]. by rewrite Forall_app. Qed.

Lemma retained_unfold df term n :
  retained df term n =
  matchesTerm df term n || existsb (retained df term) (visited_kids n).
Proof. destruct n as [o ps [l|] kp]; reflexivity. Qed.

Section filter_correct.
Variables (df term : string).
Let t := toLowerCase term.
Hypothesis Hterm : t ≠ EmptyString.


Lemma filterEach_correct (l : list node) :
  Forall (fun n => ∀ next, ∃ r next',
              filterNode df t n next = (Ok r, next') ∧ filterNode_post df term n r) l →
  ∀ next, ∃ rs next',
    filterEach (filterNode df t) l next = (Ok rs, next') ∧
    Forall2 (FilteredCopy df term) (List.filter (retained df term) l) rs.
Proof.
  induction 1 as [|n l Hn _ IH]; intros next; simpl.
  - exists [], next. split; [done|constructor].
  - destruct (Hn next) as (r & next1 & -> & Hr).
    destruct (IH next1) as (rs & next2 & -> & Hrs).
    destruct r as [c|]; simpl in Hr.
    + destruct Hr as [-> Hc]. exists (c :: rs), next2. split; [done|by constructor].
    + rewrite Hr. by exists rs, next2.
Qed.

Lemma filterNode_correct (n : node) :
  Forall (fun m => is_Some (displayText df m)) (subtree n) →
  ∀ next, ∃ r next',
    filterNode df t n next = (Ok r, next') ∧ filterNode_post df term n r.
Proof.
  induction n as [o ps kp|o ps l kp IH] using node_ind'; intros Hd next.
  - apply subtree_displayable in Hd as [[s Hs] _].
    simpl. rewrite Hs. simpl.
    assert (Hm : matchesTerm df term (Node o ps None kp) = includes (toLowerCase s) t).
    { unfold matchesTerm, displayText. simpl. by rewrite Hs. }
    rewrite orb_false_r.
    destruct (includes (toLowerCase s) t) eqn:Hinc.
    + eexists _, _. split; [done|]. simpl. rewrite Hm. split; [done|].
      constructor; [done|]. simpl. constructor.
    + eexists _, _. split; [done|]. simpl. by rewrite Hm.
  - apply subtree_displayable in Hd as [[s Hs] Hk]. simpl in Hk.
    assert (Hall : Forall (fun n => ∀ next, ∃ r next',
                     filterNode df t n next = (Ok r, next') ∧ filterNode_post df term n r) l).
    { rewrite Forall_forall in IH, Hk |- *. intros c Hc. apply IH; auto. }
    destruct (filterEach_correct l Hall next) as (rs & next1 & Hrs & Hcopy).
    simpl. rewrite Hs, Hrs.
    assert (Hm : matchesTerm df term (Node o ps (Some l) kp) = includes (toLowerCase s) t).
    { unfold matchesTerm, displayText. simpl. by rewrite Hs. }
    assert (Hlen : (0 <? length rs)%nat = existsb (retained df term) l).
    { apply Forall2_length in Hcopy. rewrite <- Hcopy.
      clear. induction l as [|c l IH]; simpl; [done|].
      destruct (retained df term c); simpl; [done|apply IH]. }
    rewrite Hlen.
    destruct (includes (toLowerCase s) t || existsb (retained df term) l) eqn:Hret.
    + eexists _, _. split; [done|]. simpl. rewrite Hm, Hret. split; [done|].
      by constructor.
    + eexists _, _. split; [done|]. simpl. by rewrite Hm, Hret.
Qed.

Lemma filterNodes_from_correct (nodes : list node) (next : nat) :
  displayable df nodes →
  ∃ rs next',
    filterNodes_from df nodes t next = (Ok rs, next') ∧
    Forall2 (FilteredCopy df term) (List.filter (retained df term) nodes) rs.
Proof.
  intros Hd. unfold filterNodes_from.
  destruct t eqn:Et; [done|]. rewrite <- Et.
  apply filterEach_correct. 
  induction nodes as [|n l IH]; [constructor|].
  apply displayable_cons in Hd as [Hn Hl].
  constructor; [|by apply IH]. by apply filterNode_correct.
Qed.
End filter_correct.

(** With an empty term every node that has a display string is retained and
    stands for itself. *)
Lemma retained_empty df term n :
  toLowerCase term = EmptyString →
  is_Some (displayText df n) → retained df term n = true.
Proof.
  intros Ht [s Hs]. rewrite retained_unfold. unfold matchesTerm.
  by rewrite Hs, Ht, includes_empty.
Qed.

Lemma filter_all_true {A} (f : A → bool) (l : list A) :
  Forall (fun x => f x = true) l → List.filter f l = l.
Proof. induction 1 as [|x l Hx _ IH]; simpl; [done|]. by rewrite Hx, IH. Qed.

Lemma FilteredCopy_refl_empty df term n :
  toLowerCase term = EmptyString →
  Forall (fun m => is_Some (displayText df m)) (subtree n) →
  FilteredCopy df term n n.
Proof.
  intros Ht. induction n as [o ps kp|o ps l kp IH] using node_ind'; intros Hd.
  - constructor; [done|]. simpl. constructor.
  - apply subtree_displayable in Hd as [_ Hk]. simpl in Hk.
    constructor; [done|]. unfold visited_kids. simpl.
    rewrite filter_all_true.
    + rewrite Forall_forall in IH, Hk. apply Forall2_same_length_lookup. split; [done|].
      intros i x y Hx Hy. assert (x = y) as -> by congruence.
      apply list_elem_of_lookup_2 in Hx. apply IH; auto.
    + rewrite Forall_forall in Hk |- *. intros c Hc.
      apply retained_empty; [done|]. specialize (Hk c Hc).
      unfold subtree in Hk. by apply Forall_cons in Hk as [? _].
Qed.

(** * Frames of the paginator *)

Ltac tv_fields :=
  cbn [data displayField multiSelect showPagination pageSize currentPage totalPages
       selectedNodes expandedNodes searchTerm filteredData paginatedData nodeDataMap
       internalIdMap nodeToInternalIdMap internalIdCounter usedInternalIds Date_now
       random36 draws nextOid
       set_data set_pageSize set_currentPage set_totalPages set_selectedNodes
       set_expandedNodes set_searchTerm set_filteredData set_paginatedData
       set_nodeDataMap set_internalIdMap set_nodeToInternalIdMap
       set_internalIdCounter set_usedInternalIds set_draws set_nextOid] in *.

Ltac destruct_tv st :=
  destruct st as [dat dfl msl shp psz cpg tpg sel exn stm fdt pdt ndm iim nim icn usd clk rnd drw nxt].


Lemma paging_only_refl st : paging_only st st.
Proof. exists (currentPage st), (totalPages st), (paginatedData st). by destruct st. Qed.

Lemma paging_only_trans st1 st2 st3 :
  paging_only st1 st2 → paging_only st2 st3 → paging_only st1 st3.
Proof.
  intros (c & t & p & ->) (c' & t' & p' & ->). exists c', t', p'. by destruct st1.
Qed.

Lemma paging_only_set_currentPage st c : paging_only st (set_currentPage c st).
Proof. exists c, (totalPages st), (paginatedData st). by destruct st. Qed.

Lemma paging_only_set_totalPages st t : paging_only st (set_totalPages t st).
Proof. exists (currentPage st), t, (paginatedData st). by destruct st. Qed.

Lemma paging_only_set_paginatedData st p : paging_only st (set_paginatedData p st).
Proof. exists (currentPage st), (totalPages st), p. by destruct st. Qed.

Lemma calculatePagination_paging st : paging_only st (calculatePagination st).
Proof.
  unfold calculatePagination.
  repeat match goal with
         | |- context [if ?b then _ else _] => destruct b
         end;
    repeat (eapply paging_only_trans;
            [|first [apply paging_only_set_currentPage | apply paging_only_set_totalPages]]);
    apply paging_only_refl.
Qed.

Lemma getPaginatedData_paging st : paging_only st (getPaginatedData st).2.
Proof.
  unfold getPaginatedData. destruct (negb (showPagination st)); simpl.
  - apply paging_only_refl.
  - eapply paging_only_trans; [apply calculatePagination_paging|].
    apply paging_only_set_paginatedData.
Qed.

Lemma updateTreeContent_paging st : paging_only st (updateTreeContent st).
Proof.
  unfold updateTreeContent.
  destruct (showPagination _).
  - eapply paging_only_trans; [apply getPaginatedData_paging|apply calculatePagination_paging].
  - apply getPaginatedData_paging.
Qed.

Lemma paging_only_fields st st' :
  paging_only st st' →
  data st' = data st ∧ displayField st' = displayField st ∧
  filteredData st' = filteredData st ∧ filteredView st' = filteredView st ∧
  pageSize st' = pageSize st ∧ showPagination st' = showPagination st ∧
  selectedNodes st' = selectedNodes st ∧ expandedNodes st' = expandedNodes st ∧
  searchTerm st' = searchTerm st ∧
  nodeDataMap st' = nodeDataMap st ∧ internalIdMap st' = internalIdMap st ∧
  nodeToInternalIdMap st' = nodeToInternalIdMap st ∧
  usedInternalIds st' = usedInternalIds st ∧
  internalIdCounter st' = internalIdCounter st ∧ nextOid st' = nextOid st ∧
  draws st' = draws st ∧ Date_now st' = Date_now st ∧ random36 st' = random36 st.
Proof. intros (c & t & p & ->). by destruct st. Qed.

Lemma set_nextOid_same st : set_nextOid (nextOid st) st = st.
Proof. by destruct st. Qed.

(** * Claims on the query engine *)

Lemma retained_of_descendant df term n d :
  d ∈ descendants n → retained df term d = true → retained df term n = true.
Proof.
  revert d. induction n as [o ps kp|o ps l kp IH] using node_ind'; intros d Hd Hr.
  - simpl in Hd. by apply elem_of_nil in Hd.
  - rewrite retained_unfold. apply orb_true_iff. right.
    simpl in Hd. apply list_elem_of_In, in_flat_map in Hd as (c & Hc & Hdc).
    apply existsb_exists. exists c. split; [done|].
    rewrite Forall_forall in IH. apply list_elem_of_In in Hc.
    destruct Hdc as [->|Hdc]; [done|].
    apply (IH c Hc d); [by apply list_elem_of_In|done].
Qed.

Lemma child_in_descendants n c : c ∈ visited_kids n → c ∈ descendants n.
Proof.
  destruct n as [o ps [l|] kp]; unfold visited_kids; simpl; [|by intros ?%elem_of_nil].
  intros Hc. apply list_elem_of_In, in_flat_map. exists c.
  split; [by apply list_elem_of_In|by left].
Qed.

Lemma retained_iff df term n :
  retained df term n = true ↔
  matchesTerm df term n = true ∨ ∃ d, d ∈ descendants n ∧ retained df term d = true.
Proof.
  split.
  - rewrite retained_unfold, orb_true_iff. intros [Hm|Hk]; [by left|right].
    apply existsb_exists in Hk as (c & Hc & Hr). exists c. split; [|done].
    apply child_in_descendants. by apply list_elem_of_In.
  - intros [Hm|(d & Hd & Hr)].
    + rewrite retained_unfold. by rewrite Hm.
    + by eapply retained_of_descendant.
Qed.

Lemma Forall2_props_eq df term l rs :
  Forall2 (FilteredCopy df term) l rs → map props rs = map props l.
Proof.
  induction 1 as [|n c l rs Hc _ IH]; simpl; [done|].
  inversion Hc; subst. by f_equal.
Qed.

Lemma filter_sublist_map {A B} (f : A → B) (p : A → bool) (l : list A) :
  map f (List.filter p l) `sublist_of` map f l.
Proof.
  induction l as [|x l IH]; simpl; [constructor|].
  destruct (p x); simpl; by constructor.
Qed.

Lemma refilter_correct st term :
  searchTerm st = toLowerCase term →
  displayable (displayField st) (data st) →
  ∃ F next,
    refilter st = (Ok tt, set_filteredData F (set_nextOid next st)) ∧
    Forall2 (FilteredCopy (displayField st) term)
            (List.filter (retained (displayField st) term) (data st))
            (match F with SameArray => data st | OwnArray l => l end).
Proof.
  intros Ht Hd. unfold refilter, filterNodes.
  destruct (searchTerm st) as [|c s] eqn:Es.
  - simpl. exists SameArray, (nextOid st). split; [done|].
    rewrite filter_all_true.
    + apply Forall2_same_length_lookup. split; [done|].
      intros i x y Hx Hy. assert (x = y) as -> by congruence.
      apply FilteredCopy_refl_empty; [done|].
      apply list_elem_of_lookup_2 in Hx. clear -Hx Hd.
      induction (data st) as [|n l IH]; [by apply elem_of_nil in Hx|].
      apply displayable_cons in Hd as [Hn Hl].
      apply elem_of_cons in Hx as [->|Hx]; auto.
    + clear -Hd Ht. induction (data st) as [|n l IH]; [constructor|].
      apply displayable_cons in Hd as [Hn Hl]. constructor; [|by apply IH].
      apply retained_empty; [done|]. unfold subtree in Hn.
      by apply Forall_cons in Hn as [? _].
  - assert (Hne : toLowerCase term ≠ EmptyString) by (rewrite <- Ht; done).
    destruct (filterNodes_from_correct (displayField st) term Hne (data st) (nextOid st) Hd)
      as (rs & next' & Hrs & Hcopy).
    rewrite Ht, Hrs. exists (OwnArray rs), next'. split; [|done].
    destruct (toLowerCase term); [done|]. done.
Qed.

(** The search as the tree runs it.  For every forest whose nodes have a
    display string and every search term, [handleSearch] returns normally
    and leaves the forest as it was; the filtered forest lists, in their
    order, copies of exactly the retained root nodes, each copy with the
    properties of its node and with children that are, in order, the copies
    of the retained children of that node; and a node is retained if and
    only if its display value contains the term, letter case ignored, or
    one of its descendants is retained. *)
Lemma handleSearch_retains_matches_and_ancestors (st : TreeView) (term : string) :
  displayable (displayField st) (data st) →
  ∃ st',
    handleSearch term st = (Ok tt, st') ∧
    data st' = data st ∧
    Forall2 (FilteredCopy (displayField st) term)
            (List.filter (retained (displayField st) term) (data st))
            (filteredView st') ∧
    map props (filteredView st') `sublist_of` map props (data st) ∧
    (∀ n, retained (displayField st) term n = true ↔
          matchesTerm (displayField st) term n = true ∨
          ∃ d, d ∈ descendants n ∧ retained (displayField st) term d = true).
Proof.
  intros Hd.
  set (st1 := set_searchTerm (toLowerCase term) st).
  assert (H1 : searchTerm st1 = toLowerCase term) by (by destruct st).
  assert (Hdf : displayField st1 = displayField st) by (by destruct st).
  assert (Hdata : data st1 = data st) by (by destruct st).
  destruct (refilter_correct st1 term H1) as (F & next & Hre & Hcopy).
  { by rewrite Hdf, Hdata. }
  rewrite Hdf, Hdata in Hcopy.
  unfold handleSearch, bind, modify. fold st1. rewrite Hre.
  eexists. split; [reflexivity|].
  match goal with
  | |- data (updateTreeContent ?s) = _ ∧ _ =>
      destruct (paging_only_fields _ _ (updateTreeContent_paging s))
        as (Hda & _ & _ & Hfv & _)
  end.
  rewrite Hda, Hfv.
  assert (Hview : ∀ s, (s = set_currentPage 1 (set_filteredData F (set_nextOid next st1)) ∨
                        s = autoExpandSearchResults
                              (set_currentPage 1 (set_filteredData F (set_nextOid next st1)))) →
                       data s = data st ∧
                       filteredView s = match F with SameArray => data st | OwnArray l => l end).
  { intros s [->| ->]; unfold st1, autoExpandSearchResults, filteredView;
      destruct st; tv_fields; by destruct F. }
  match goal with
  | |- data ?s = _ ∧ _ => edestruct (Hview s) as [Hs1 Hs2]; [|rewrite Hs1, Hs2]
  end.
  { clear. destruct (searchTerm (set_currentPage 1 _)); auto. }
  split; [done|]. split; [done|]. split.
  - rewrite (Forall2_props_eq _ _ _ _ Hcopy). apply filter_sublist_map.
  - apply retained_iff.
Qed.

(** [filterNodes] on a term in lower case, on any sequence of nodes. *)
Lemma filterNodes_correct st nodes term :
  displayable (displayField st) nodes →
  ∃ rs next,
    filterNodes nodes (toLowerCase term) st = (Ok rs, set_nextOid next st) ∧
    Forall2 (FilteredCopy (displayField st) term)
            (List.filter (retained (displayField st) term) nodes) rs.
Proof.
  intros Hd. unfold filterNodes.
  destruct (toLowerCase term) as [|c s] eqn:Et.
  - simpl. exists nodes, (nextOid st). split; [done|].
    rewrite filter_all_true.
    + apply Forall2_same_length_lookup. split; [done|].
      intros i x y Hx Hy. assert (x = y) as -> by congruence.
      apply FilteredCopy_refl_empty; [done|].
      apply list_elem_of_lookup_2 in Hx. clear -Hx Hd.
      induction nodes as [|n l IH]; [by apply elem_of_nil in Hx|].
      apply displayable_cons in Hd as [Hn Hl].
      apply elem_of_cons in Hx as [->|Hx]; auto.
    + clear -Hd Et. induction nodes as [|n l IH]; [constructor|].
      apply displayable_cons in Hd as [Hn Hl]. constructor; [|by apply IH].
      apply retained_empty; [done|]. unfold subtree in Hn.
      by apply Forall_cons in Hn as [? _].
  - assert (Hne : toLowerCase term ≠ EmptyString) by (by rewrite Et).
    destruct (filterNodes_from_correct (displayField st) term Hne nodes (nextOid st) Hd)
      as (rs & next' & Hrs & Hcopy).
    rewrite Et in Hrs. rewrite Hrs. by exists rs, next'.
Qed.

(** A node matches when the lower-case form of its display value is the
    lower-case form of the term with something before and after it. *)
Lemma matchesTerm_spec df term n :
  matchesTerm df term n = true ↔
  ∃ s a b, prop_get df (props n) = VStr s ∧
           toLowerCase s = a +:+ toLowerCase term +:+ b.
Proof.
  unfold matchesTerm, displayText. split.
  - destruct (prop_get df (props n)) as [| | | |s]; try done.
    intros H. apply includes_spec in H as (a & b & H). by exists s, a, b.
  - intros (s & a & b & -> & H). apply includes_spec. by exists a, b.
Qed.

(** C1, as amended.  [filterNodes] compares the lower-case form of the
    display value with the term as it is given; every call in the code
    gives it [searchTerm], which [handleSearch] has put in lower case.  For
    every sequence of nodes that have a display string and every term in
    lower case, [filterNodes] returns normally and leaves the forest as it
    was; its result lists, in their order, copies of exactly the retained
    nodes of the sequence, each copy with the properties of its node and
    with children that are, in order, the copies of the retained children
    of that node, so sibling order is preserved at every level; a node is
    retained if and only if it matches or one of its descendants is
    retained; and a node matches if and only if the lower-case form of its
    display value is the term with something before and after it.  The
    search as the tree runs it does the same for any term typed, letter
    case ignored. *)
Theorem filterNodes_retains_matches_and_ancestors
    (st : TreeView) (nodes : list node) (term : string) :
  displayable (displayField st) nodes →
  toLowerCase term = term →
  (∃ rs st',
     filterNodes nodes term st = (Ok rs, st') ∧
     data st' = data st ∧
     Forall2 (FilteredCopy (displayField st) term)
             (List.filter (retained (displayField st) term) nodes) rs ∧
     map props rs `sublist_of` map props nodes) ∧
  (∀ n, retained (displayField st) term n = true ↔
        matchesTerm (displayField st) term n = true ∨
        ∃ d, d ∈ descendants n ∧ retained (displayField st) term d = true) ∧
  (∀ n, matchesTerm (displayField st) term n = true ↔
        ∃ s a b, prop_get (displayField st) (props n) = VStr s ∧
                 toLowerCase s = a +:+ term +:+ b) ∧
  (∀ typed, displayable (displayField st) (data st) →
     ∃ st', handleSearch typed st = (Ok tt, st') ∧
            data st' = data st ∧
            Forall2 (FilteredCopy (displayField st) typed)
                    (List.filter (retained (displayField st) typed) (data st))
                    (filteredView st')).
Proof.
  intros Hd Hlow. split; [|split; [|split]].
  - destruct (filterNodes_correct st nodes term Hd) as (rs & next & Hf & Hc).
    rewrite Hlow in Hf. exists rs, (set_nextOid next st).
    split; [done|]. split; [by destruct st|]. split; [done|].
    rewrite (Forall2_props_eq _ _ _ _ Hc). apply filter_sublist_map.
  - apply retained_iff.
  - intros n. rewrite matchesTerm_spec. by rewrite Hlow.
  - intros typed Hdd.
    destruct (handleSearch_retains_matches_and_ancestors st typed Hdd)
      as (st' & Hs & Hda & Hc & _).
    by exists st'.
Qed.

(** C9.  With the empty term [filterNodes] returns the very sequence it was
    given and allocates nothing, so no node is pruned and none is copied;
    and a search with the empty term leaves the forest as it was and makes
    the filtered forest the forest itself. *)
Theorem filterNodes_empty_term_identity (st : TreeView) (F : list node) :
  filterNodes F EmptyString st = (Ok F, st) ∧
  ∃ st', handleSearch EmptyString st = (Ok tt, st') ∧
         data st' = data st ∧ nextOid st' = nextOid st ∧
         filteredData st' = SameArray ∧ filteredView st' = data st.
Proof.
  split.
  - unfold filterNodes. simpl. by rewrite set_nextOid_same.
  - unfold handleSearch, bind, modify, refilter, filterNodes. 
    eexists. split; [by destruct st|].
    match goal with
    | |- data (updateTreeContent ?s) = _ ∧ _ =>
        destruct (paging_only_fields _ _ (updateTreeContent_paging s))
          as (Hda & _ & Hfd & Hfv & _ & _ & _ & _ & _ & _ & _ & _ & _ & _ & Hno & _)
    end.
    rewrite Hda, Hfd, Hfv, Hno. by destruct st.
Qed.

(** * The paginator *)

Lemma Math_ceil_div_pos a p : Math_ceil_div a (Z.pos p) = - ((- a) / Z.pos p).
Proof.
  unfold Math_ceil_div, Qceiling, Qfloor, Qdiv, Qmult, Qinv, Qopp, inject_Z.
  cbn [Qnum Qden]. by rewrite Z.mul_1_r, Pos.mul_1_l.
Qed.

(** [Math.ceil(a / b)] is the least integer [k] with [a <= k * b]. *)
Lemma Math_ceil_div_spec a b :
  0 < b →
  a ≤ Math_ceil_div a b * b ∧ (Math_ceil_div a b - 1) * b < a.
Proof.
  intros Hb. destruct b as [|p|p]; try lia. rewrite Math_ceil_div_pos.
  pose proof (Z.div_mod (- a) (Z.pos p) ltac:(lia)) as Hdm.
  pose proof (Z.mod_pos_bound (- a) (Z.pos p) ltac:(lia)) as Hm.
  nia.
Qed.

Lemma Math_ceil_div_least a b k :
  0 < b → a ≤ k * b → Math_ceil_div a b ≤ k.
Proof.
  intros Hb Hk. destruct (Math_ceil_div_spec a b Hb) as [_ Hlt].
  destruct (Z_le_gt_dec (Math_ceil_div a b) k) as [|Hgt]; [done|]. exfalso.
  assert (k * b ≤ (Math_ceil_div a b - 1) * b) by (apply Z.mul_le_mono_nonneg_r; lia).
  lia.
Qed.

Lemma Math_ceil_div_nonneg a b : 0 < b → 0 ≤ a → 0 ≤ Math_ceil_div a b.
Proof.
  intros Hb Ha. destruct (Math_ceil_div_spec a b Hb) as [Hle _].
  destruct (Z_le_gt_dec 0 (Math_ceil_div a b)) as [|Hgt]; [done|]. exfalso.
  assert (Math_ceil_div a b * b ≤ (-1) * b) by (apply Z.mul_le_mono_nonneg_r; lia).
  lia.
Qed.

Lemma calculatePagination_ok st : paging_ok (calculatePagination st).
Proof.
  destruct (paging_only_fields _ _ (calculatePagination_paging st))
    as (_ & _ & _ & Hfv & Hps & _).
  unfold paging_ok. rewrite Hfv, Hps. clear Hfv Hps.
  unfold calculatePagination, filteredView. destruct_tv st. tv_fields.
  set (t := Z.max 1 _).
  destruct (cpg >? t) eqn:E1; tv_fields.
  - destruct (t <? 1) eqn:E2; tv_fields; lia.
  - destruct (cpg <? 1) eqn:E2; tv_fields; lia.
Qed.

Lemma calculatePagination_idem st : paging_ok st → calculatePagination st = st.
Proof.
  intros [Ht Hc]. unfold calculatePagination. rewrite <- Ht.
  destruct_tv st. tv_fields.
  assert ((cpg >? tpg) = false) as -> by lia. tv_fields.
  assert ((cpg <? 1) = false) as -> by lia. done.
Qed.

Lemma paging_ok_set_paginatedData st p : paging_ok st → paging_ok (set_paginatedData p st).
Proof. unfold paging_ok, filteredView. by destruct st. Qed.

Lemma slice_lookup {A} (l : list A) (start size : Z) (i : nat) :
  0 ≤ start → 0 < size →
  slice l start (start + size) !! i =
  if Z.of_nat i <? size then l !! (Z.to_nat start + i)%nat else None.
Proof.
  intros Hs Hz. unfold slice.
  destruct (start <? 0) eqn:E1; [lia|]. destruct (start + size <? 0) eqn:E2; [lia|].
  set (len := Z.of_nat (length l)).
  destruct (Z.of_nat i <? size) eqn:E3.
  - destruct (decide (Z.to_nat start + i < length l)%nat) as [Hin|Hout].
    + rewrite lookup_take_lt by lia. rewrite lookup_drop. f_equal. lia.
    + rewrite (lookup_ge_None_2 l) by lia.
      apply lookup_ge_None_2. rewrite length_take, length_drop. lia.
  - apply lookup_take_ge. lia.
Qed.

Lemma getPaginatedData_ok st :
  showPagination st = true → 0 < pageSize st →
  paging_ok (getPaginatedData st).2 ∧
  paginatedData (getPaginatedData st).2 = (getPaginatedData st).1 ∧
  ∀ i : nat,
    (getPaginatedData st).1 !! i =
    if Z.of_nat i <? pageSize st
    then filteredView st !!
           (Z.to_nat ((currentPage (getPaginatedData st).2 - 1) * pageSize st) + i)%nat
    else None.
Proof.
  intros Hshow Hps. unfold getPaginatedData. rewrite Hshow. cbn [negb fst snd].
  pose proof (calculatePagination_ok st) as Hok.
  destruct (paging_only_fields _ _ (calculatePagination_paging st))
    as (_ & _ & _ & Hfv & Hpsz & _).
  split; [by apply paging_ok_set_paginatedData|]. split; [by destruct (calculatePagination st)|].
  intros i. rewrite Hfv, Hpsz.
  replace (currentPage (set_paginatedData _ _)) with (currentPage (calculatePagination st))
    by (by destruct (calculatePagination st)).
  destruct Hok as [_ Hc]. apply slice_lookup; nia.
Qed.

Lemma updateTreeContent_ok st :
  showPagination st = true → paging_ok (updateTreeContent st).
Proof.
  intros Hshow. unfold updateTreeContent.
  destruct (paging_only_fields _ _ (getPaginatedData_paging st))
    as (_ & _ & _ & _ & _ & Hsh & _).
  rewrite Hsh, Hshow. apply calculatePagination_ok.
Qed.

Lemma updateTreeContent_hidden st :
  showPagination st = false → updateTreeContent st = st.
Proof.
  intros Hshow. unfold updateTreeContent, getPaginatedData. by rewrite Hshow; simpl; rewrite Hshow.
Qed.

(** The recomputation in closed form. *)
Lemma calculatePagination_eq st :
  let T := Z.max 1 (Math_ceil_div (Z.of_nat (length (filteredView st))) (pageSize st)) in
  calculatePagination st =
  set_currentPage (Z.max 1 (Z.min (currentPage st) T)) (set_totalPages T st).
Proof.
  unfold calculatePagination, filteredView. destruct_tv st. tv_fields.
  set (T := Z.max 1 _). cbn zeta.
  destruct (cpg >? T) eqn:E1; tv_fields.
  - destruct (T <? 1) eqn:E2; tv_fields; f_equal; lia.
  - destruct (cpg <? 1) eqn:E2; tv_fields; f_equal; lia.
Qed.

Lemma updateTreeContent_shown st :
  showPagination st = true → updateTreeContent st = (getPaginatedData st).2.
Proof.
  intros Hshow. unfold updateTreeContent.
  destruct (paging_only_fields _ _ (getPaginatedData_paging st))
    as (_ & _ & _ & _ & _ & Hsh & _).
  rewrite Hsh, Hshow. apply calculatePagination_idem.
  unfold getPaginatedData. rewrite Hshow. cbn [negb snd].
  apply paging_ok_set_paginatedData, calculatePagination_ok.
Qed.

Lemma getPaginatedData_shown st :
  showPagination st = true →
  let st1 := calculatePagination st in
  let page := slice (filteredView st) ((currentPage st1 - 1) * pageSize st)
                    ((currentPage st1 - 1) * pageSize st + pageSize st) in
  getPaginatedData st = (page, set_paginatedData page st1).
Proof.
  intros Hshow. unfold getPaginatedData. rewrite Hshow. cbn [negb].
  destruct (paging_only_fields _ _ (calculatePagination_paging st))
    as (_ & _ & _ & Hfv & Hpsz & _).
  by rewrite Hfv, Hpsz.
Qed.

Lemma paging_ok_bounds st : paging_ok st → 1 ≤ currentPage st ≤ totalPages st.
Proof. by intros [_ ?]. Qed.

Lemma navigation_preserves st o :
  is_navigation o = true → 0 < pageSize st → 1 ≤ currentPage st ≤ totalPages st →
  0 < pageSize (run_op o st) ∧
  1 ≤ currentPage (run_op o st) ≤ totalPages (run_op o st) ∧
  (showPagination st = true → paging_ok st → paging_ok (run_op o st)).
Proof.
  intros Hnav Hps Hb.
  assert (Hact : ∀ s, 0 < pageSize s → 1 ≤ currentPage s ≤ totalPages s →
                      showPagination s = showPagination st →
                      0 < pageSize (updateTreeContent s) ∧
                      1 ≤ currentPage (updateTreeContent s) ≤ totalPages (updateTreeContent s) ∧
                      (showPagination st = true → paging_ok st →
                       paging_ok (updateTreeContent s))).
  { intros s Hs Hbs Hsh.
    destruct (paging_only_fields _ _ (updateTreeContent_paging s))
      as (_ & _ & _ & _ & Hpsz & _).
    rewrite Hpsz. split; [done|].
    destruct (showPagination st) eqn:Hshow.
    - pose proof (updateTreeContent_ok s Hsh) as Hok. split; [apply Hok|done].
    - rewrite (updateTreeContent_hidden s Hsh). split; [done|]. discriminate. }
  destruct o; try discriminate; cbn [run_op].
  - (* setPageSize *)
    unfold setPageSize. destruct (n <=? 0) eqn:En; [done|].
    apply Hact; destruct_tv st; tv_fields; lia || done.
  - (* goToPage *)
    unfold goToPage. destruct ((p <? 1) || (p >? totalPages st)) eqn:Ep; [done|].
    apply orb_false_iff in Ep as [E1 E2].
    apply Hact; destruct_tv st; tv_fields; lia || done.
  - unfold nextPage. destruct (currentPage st <? totalPages st) eqn:E; [|done].
    apply Hact; destruct_tv st; tv_fields; lia || done.
  - unfold previousPage. destruct (currentPage st >? 1) eqn:E; [|done].
    apply Hact; destruct_tv st; tv_fields; lia || done.
  - unfold firstPage. apply Hact; destruct_tv st; tv_fields; lia || done.
  - unfold lastPage. apply Hact; destruct_tv st; tv_fields; lia || done.
Qed.

(** C2.  For a positive page size: a recomputation sets [totalPages] to
    [max(1, ceil(count / pageSize))], which is the least number of pages,
    at least one, that hold [count] items, and brings [currentPage] into
    [1 .. totalPages]; every navigation operation keeps [currentPage] in
    [1 .. totalPages] and, with pagination shown, keeps [totalPages] at that
    value; and the page computed is the part of the top-level sequence of
    the filtered forest at the indices from [(currentPage - 1) * pageSize]
    up to, not including, [currentPage * pageSize], made of the top-level
    nodes themselves, children included. *)
Theorem pagination_totalPages_clamp_and_slice (st : TreeView) :
  0 < pageSize st →
  let count := Z.of_nat (length (filteredView st)) in
  (let st' := calculatePagination st in
   totalPages st' = Z.max 1 (Math_ceil_div count (pageSize st)) ∧
   count ≤ totalPages st' * pageSize st ∧
   (∀ t, 1 ≤ t → count ≤ t * pageSize st → totalPages st' ≤ t) ∧
   1 ≤ currentPage st' ≤ totalPages st') ∧
  (∀ o, is_navigation o = true → 1 ≤ currentPage st ≤ totalPages st →
        let st' := run_op o st in
        0 < pageSize st' ∧
        1 ≤ currentPage st' ≤ totalPages st' ∧
        (showPagination st = true → paging_ok st → paging_ok st')) ∧
  (showPagination st = true →
   let page := (getPaginatedData st).1 in
   let st' := (getPaginatedData st).2 in
   paging_ok st' ∧ paginatedData st' = page ∧
   ∀ i : nat,
     page !! i =
     if Z.of_nat i <? pageSize st
     then filteredView st !! (Z.to_nat ((currentPage st' - 1) * pageSize st) + i)%nat
     else None).
Proof.
  intros Hps count. split; [|split].
  - pose proof (calculatePagination_ok st) as [Ht Hc].
    destruct (paging_only_fields _ _ (calculatePagination_paging st))
      as (_ & _ & _ & Hfv & Hpsz & _).
    rewrite Hfv, Hpsz in Ht. fold count in Ht. cbn zeta.
    destruct (Math_ceil_div_spec count (pageSize st) Hps) as [Hle Hlt].
    split; [done|]. split; [|split; [|done]].
    + rewrite Ht. 
      assert (Math_ceil_div count (pageSize st) * pageSize st
              ≤ Z.max 1 (Math_ceil_div count (pageSize st)) * pageSize st)
        by (apply Z.mul_le_mono_nonneg_r; lia).
      lia.
    + intros t Ht1 Hcount. rewrite Ht.
      pose proof (Math_ceil_div_least count (pageSize st) t Hps Hcount). lia.
  - intros o Hnav Hb. by apply navigation_preserves.
  - intros Hshow. by apply getPaginatedData_ok.
Qed.


(** C5, as amended.  With page size 2, five root items and page 1 current,
    the page holds items 1 and 2; [goToPage(10)] is rejected and changes
    nothing, so the page still is page 1 with items 1 and 2; page 3, which
    [goToPage(3)] and [lastPage()] select, holds item 5 only. *)
Theorem goToPage_out_of_range_is_rejected (st : TreeView) (a b c d e : node) :
  five_items st a b c d e →
  (getPaginatedData st).1 = [a; b] ∧
  goToPage 10 st = st ∧
  currentPage (goToPage 3 st) = 3 ∧ paginatedData (goToPage 3 st) = [e] ∧
  currentPage (lastPage st) = 3 ∧ paginatedData (lastPage st) = [e].
Proof.
  intros (Hshow & Hps & Hfv & Hcp & Hok).
  assert (Ht : totalPages st = 3).
  { destruct Hok as [Ht _]. rewrite Ht, Hfv, Hps. reflexivity. }
  assert (Hgo : ∀ p, 1 ≤ p ≤ 3 →
            updateTreeContent (set_currentPage p st) =
            set_paginatedData (slice [a; b; c; d; e] ((p - 1) * 2) ((p - 1) * 2 + 2))
                              (set_currentPage p st)).
  { intros p Hp.
    assert (Hsh : showPagination (set_currentPage p st) = true) by (by destruct st).
    rewrite (updateTreeContent_shown _ Hsh), (getPaginatedData_shown _ Hsh).
    cbn [snd]. rewrite calculatePagination_eq.
    unfold filteredView in *. destruct_tv st. tv_fields. subst. rewrite Hfv.
    change (Z.max 1 (Math_ceil_div (Z.of_nat (length [a; b; c; d; e])) 2)) with 3.
    replace (Z.max 1 (Z.min p 3)) with p by lia. done. }
  split; [|split].
  - rewrite (getPaginatedData_shown _ Hshow). cbn [fst].
    rewrite (calculatePagination_idem _ Hok), Hfv, Hcp, Hps. reflexivity.
  - unfold goToPage. rewrite Ht. reflexivity.
  - unfold lastPage, goToPage. rewrite Ht.
    cbn [Z.ltb Z.gtb Z.compare orb Pos.compare Pos.compare_cont].
    rewrite (Hgo 3) by lia. by destruct st.
Qed.

(** * The selection tracker *)

Lemma set_selectedNodes_twice a b st :
  set_selectedNodes a (set_selectedNodes b st) = set_selectedNodes a st.
Proof. by destruct st. Qed.

Lemma selectedNodes_set a st : selectedNodes (set_selectedNodes a st) = a.
Proof. by destruct st. Qed.

Lemma set_selectedNodes_same st : set_selectedNodes (selectedNodes st) st = st.
Proof. by destruct st. Qed.


Lemma keysOf_cons c l : keysOf (c :: l) = cascadeKeys c ∪ keysOf l.
Proof.
  unfold keysOf, cascadeKeys, forestNodes. cbn [flat_map].
  by rewrite map_app, list_to_set_app_L.
Qed.

Lemma cascadeKeys_unfold n : cascadeKeys n = {[nodeKey n]} ∪ keysOf (visited_kids n).
Proof.
  unfold cascadeKeys, keysOf, subtree, forestNodes. cbn [map list_to_set]. f_equal.
  destruct n as [o ps [l|] kp]; reflexivity.
Qed.

(** A cascade over a list of children, given what it does on each child. *)
Lemma cascade_fold (f : node → value → TreeView → TreeView)
    (g : gset value → gset value → gset value) (l : list node) :
  (∀ s a b, g (g s a) b = g s (a ∪ b)) → (∀ s, g s ∅ = s) →
  Forall (fun c => ∀ st, f c (nodeKey c) st =
                          set_selectedNodes (g (selectedNodes st) (cascadeKeys c)) st) l →
  ∀ st, fold_left (fun s c => f c (nodeKey c) s) l st =
        set_selectedNodes (g (selectedNodes st) (keysOf l)) st.
Proof.
  intros Hg Hg0. induction 1 as [|c l Hc _ IH]; intros st; simpl.
  - unfold keysOf. simpl. by rewrite Hg0, set_selectedNodes_same.
  - rewrite IH, Hc, selectedNodes_set, set_selectedNodes_twice, Hg.
    by rewrite keysOf_cons.
Qed.

Lemma selectNodeAndChildren_any n k st :
  selectNodeAndChildren n k st =
  set_selectedNodes (selectedNodes st ∪ ({[k]} ∪ keysOf (visited_kids n))) st.
Proof.
  revert k st. induction n as [o ps kp|o ps l kp IH] using node_ind'; intros k st.
  - cbn [selectNodeAndChildren visited_kids kids].
    f_equal. unfold keysOf. simpl. set_solver.
  - cbn [selectNodeAndChildren visited_kids kids].
    rewrite (cascade_fold selectNodeAndChildren (fun s a => s ∪ a) l); [| |set_solver|].
    + rewrite selectedNodes_set, set_selectedNodes_twice. f_equal. set_solver.
    + intros s a b. set_solver.
    + eapply Forall_impl; [exact IH|]. intros c Hc s. cbn beta in Hc.
      by rewrite Hc, cascadeKeys_unfold.
Qed.

Lemma deselectNodeAndChildren_any n k st :
  deselectNodeAndChildren n k st =
  set_selectedNodes (selectedNodes st ∖ ({[k]} ∪ keysOf (visited_kids n))) st.
Proof.
  revert k st. induction n as [o ps kp|o ps l kp IH] using node_ind'; intros k st.
  - cbn [deselectNodeAndChildren visited_kids kids].
    f_equal. unfold keysOf. simpl. set_solver.
  - cbn [deselectNodeAndChildren visited_kids kids].
    rewrite (cascade_fold deselectNodeAndChildren (fun s a => s ∖ a) l); [| |set_solver|].
    + rewrite selectedNodes_set, set_selectedNodes_twice. f_equal. set_solver.
    + intros s a b. set_solver.
    + eapply Forall_impl; [exact IH|]. intros c Hc s. cbn beta in Hc.
      by rewrite Hc, cascadeKeys_unfold.
Qed.

Lemma selectNodeAndChildren_eq n st :
  selectNodeAndChildren n (nodeKey n) st =
  set_selectedNodes (selectedNodes st ∪ cascadeKeys n) st.
Proof. by rewrite selectNodeAndChildren_any, cascadeKeys_unfold. Qed.

Lemma deselectNodeAndChildren_eq n st :
  deselectNodeAndChildren n (nodeKey n) st =
  set_selectedNodes (selectedNodes st ∖ cascadeKeys n) st.
Proof. by rewrite deselectNodeAndChildren_any, cascadeKeys_unfold. Qed.

Lemma cascadeKeys_descendant n d : d ∈ descendants n → cascadeKeys d ⊆ cascadeKeys n.
Proof.
  revert d. induction n as [o ps kp|o ps l kp IH] using node_ind'; intros d Hd.
  - simpl in Hd. by apply elem_of_nil in Hd.
  - simpl in Hd. apply list_elem_of_In, in_flat_map in Hd as (c & Hc & Hdc).
    apply list_elem_of_In in Hc.
    assert (Hsub : cascadeKeys c ⊆ cascadeKeys (Node o ps (Some l) kp)).
    { rewrite (cascadeKeys_unfold (Node _ _ _ _)). unfold visited_kids. simpl.
      clear -Hc. induction l as [|x l IHl]; [by apply elem_of_nil in Hc|].
      rewrite keysOf_cons. apply elem_of_cons in Hc as [->|Hc]; [set_solver|].
      specialize (IHl Hc). set_solver. }
    destruct Hdc as [->|Hdc]; [done|].
    rewrite Forall_forall in IH. etrans; [|exact Hsub].
    apply (IH c Hc). by apply list_elem_of_In.
Qed.

(** C4.  Cascade-selecting a node adds to the selected set exactly the
    natural keys of the node and of all its descendants and changes nothing
    else; cascade-deselecting it removes exactly that set; and when a
    descendant was selected on its own first and the ancestor, not yet
    selected, is then toggled twice, the first toggle leaves selected the
    former selection and that set, and the second removes that whole set. *)
Theorem cascade_selects_node_and_descendants (n : node) (st : TreeView) :
  selectNodeAndChildren n (nodeKey n) st =
    set_selectedNodes (selectedNodes st ∪ cascadeKeys n) st ∧
  deselectNodeAndChildren n (nodeKey n) st =
    set_selectedNodes (selectedNodes st ∖ cascadeKeys n) st ∧
  (∀ k, k ∈ cascadeKeys n ↔ ∃ d, d ∈ subtree n ∧ k = nodeKey d) ∧
  (∀ d, d ∈ descendants n →
        let st1 := selectNodeAndChildren d (nodeKey d) st in
        nodeKey n ∉ selectedNodes st1 →
        let st2 := toggleSelection (nodeKey n) n st1 in
        let st3 := toggleSelection (nodeKey n) n st2 in
        selectedNodes st2 = selectedNodes st ∪ cascadeKeys n ∧
        selectedNodes st3 = selectedNodes st ∖ cascadeKeys n).
Proof.
  split; [apply selectNodeAndChildren_eq|]. split; [apply deselectNodeAndChildren_eq|].
  split.
  - intros k. unfold cascadeKeys. rewrite elem_of_list_to_set, list_elem_of_fmap.
    split; intros (d & H1 & H2); exists d; done.
  - intros d Hd st1 Hnot st2 st3.
    pose proof (cascadeKeys_descendant n d Hd) as Hsub.
    assert (H1 : selectedNodes st1 = selectedNodes st ∪ cascadeKeys d).
    { unfold st1. by rewrite selectNodeAndChildren_eq, selectedNodes_set. }
    assert (H2 : selectedNodes st2 = selectedNodes st ∪ cascadeKeys n).
    { unfold st2, toggleSelection. rewrite bool_decide_eq_false_2 by done.
      rewrite selectNodeAndChildren_eq, selectedNodes_set, H1. set_solver. }
    split; [done|].
    unfold st3, toggleSelection. rewrite bool_decide_eq_true_2.
    + rewrite deselectNodeAndChildren_eq, selectedNodes_set, H2. set_solver.
    + rewrite H2, cascadeKeys_unfold. set_solver.
Qed.

(** * The derived natural key *)

Lemma substring_0_split m s :
  ∃ rest, s = String.substring 0 m s +:+ rest ∧
          (String.length (String.substring 0 m s) ≤ m)%nat ∧
          ((String.length (String.substring 0 m s) < m)%nat → rest = EmptyString).
Proof.
  revert s. induction m as [|m IH]; intros s.
  - exists s. destruct s; simpl; repeat split; auto; lia.
  - destruct s as [|c s]; simpl.
    + exists EmptyString. repeat split; auto; lia.
    + destruct (IH s) as (rest & Hs & Hl & Hr). exists rest.
      rewrite append_cons, <- Hs. repeat split; [lia|]. intros ?. apply Hr. lia.
Qed.

Lemma all_chars_app p a b : all_chars p (a +:+ b) = all_chars p a && all_chars p b.
Proof.
  induction a as [|c a IH]; [done|]. rewrite append_cons. simpl.
  by rewrite IH, andb_assoc.
Qed.

Lemma strip_non_alnum_alnum s : all_chars is_alnum (strip_non_alnum s) = true.
Proof.
  induction s as [|c s IH]; simpl; [done|].
  destruct (is_alnum c) eqn:E; simpl; [by rewrite E|done].
Qed.

Lemma JSON_stringify_eraseOid n : JSON_stringify (eraseOid n) = JSON_stringify n.
Proof.
  induction n as [o ps kp|o ps l kp IH] using node_ind'; [done|].
  cbn [eraseOid JSON_stringify]. rewrite map_map.
  replace (map (fun x => JSON_stringify (eraseOid x)) l) with (map JSON_stringify l); [done|].
  symmetry. apply map_ext_Forall. exact IH.
Qed.

(** What [generateNodeId] computes.  For a node without a caller-supplied
    id, the derived natural key is ["node_"] followed by the first ten
    characters, or all of them when there are fewer, of the JSON
    serialisation of the whole node with every character outside
    [a-zA-Z0-9] removed; it is what the node has as natural key, and it is
    the same for two objects that serialise alike. *)
Theorem derived_key_is_prefix_of_serialisation (n : node) :
  truthy (prop_get "id" (props n)) = false →
  (∃ s rest,
      generateNodeId n = VStr ("node_" +:+ s) ∧
      nodeKey n = VStr ("node_" +:+ s) ∧
      strip_non_alnum (JSON_stringify n) = s +:+ rest ∧
      (String.length s ≤ 10)%nat ∧
      ((String.length s < 10)%nat → rest = EmptyString) ∧
      all_chars is_alnum s = true) ∧
  (∀ m, truthy (prop_get "id" (props m)) = false →
        eraseOid m = eraseOid n → generateNodeId m = generateNodeId n).
Proof.
  intros Hid. split.
  - destruct (substring_0_split 10 (strip_non_alnum (JSON_stringify n)))
      as (rest & Hs & Hl & Hr).
    exists (String.substring 0 10 (strip_non_alnum (JSON_stringify n))), rest.
    unfold nodeKey, generateNodeId, js_or. rewrite Hid.
    repeat split; try done.
    pose proof (strip_non_alnum_alnum (JSON_stringify n)) as Ha.
    rewrite Hs, all_chars_app in Ha. by apply andb_true_iff in Ha as [? _].
  - intros m Hm He. unfold generateNodeId, js_or. rewrite Hid, Hm.
    by rewrite <- (JSON_stringify_eraseOid m), He, JSON_stringify_eraseOid.
Qed.

(** * Frames of the registry *)

Lemma registry_only_refl st : registry_only st st.
Proof. split; [done|by destruct st]. Qed.

Lemma registry_only_trans st1 st2 st3 :
  registry_only st1 st2 → registry_only st2 st3 → registry_only st1 st3.
Proof.
  intros [Hu1 E1] [Hu2 E2]. split; [by etrans|].
  destruct st1, st2, st3. tv_fields. clear Hu1 Hu2.
  injection E1 as ?. injection E2 as ?. subst. reflexivity.
Qed.

Lemma registry_only_fields st st' :
  registry_only st st' →
  data st' = data st ∧ displayField st' = displayField st ∧
  filteredData st' = filteredData st ∧ searchTerm st' = searchTerm st ∧
  selectedNodes st' = selectedNodes st ∧ expandedNodes st' = expandedNodes st ∧
  pageSize st' = pageSize st ∧ currentPage st' = currentPage st ∧
  totalPages st' = totalPages st ∧ showPagination st' = showPagination st ∧
  paginatedData st' = paginatedData st ∧ nextOid st' = nextOid st ∧
  multiSelect st' = multiSelect st ∧
  Date_now st' = Date_now st ∧ random36 st' = random36 st.
Proof. intros [_ E]. rewrite E. by destruct st. Qed.

Lemma registry_only_intro st ndm iim nim c dr u :
  usedInternalIds st ⊆ u →
  registry_only st
    (set_nodeDataMap ndm (set_internalIdMap iim (set_nodeToInternalIdMap nim
       (set_internalIdCounter c (set_draws dr (set_usedInternalIds u st)))))).
Proof. intros Hu. split; destruct st; tv_fields; done. Qed.

(** * The identity allocator *)


Lemma append_nonempty a c b : a +:+ String c b ≠ EmptyString.
Proof. destruct a; [done|]. rewrite append_cons. done. Qed.

Lemma draw_candidate_truthy st : truthy (draw_candidate st).1 = true.
Proof.
  unfold draw_candidate. cbn [fst truthy].
  destruct (string_of_nat _ +:+ _) eqn:E; [|done].
  by apply append_nonempty in E.
Qed.

Lemma generateInternalId_loop_spec r st :
  registry_only st (generateInternalId_loop r st).2 ∧
  nodeDataMap (generateInternalId_loop r st).2 = nodeDataMap st ∧
  internalIdMap (generateInternalId_loop r st).2 = internalIdMap st ∧
  nodeToInternalIdMap (generateInternalId_loop r st).2 = nodeToInternalIdMap st ∧
  match (generateInternalId_loop r st).1 with
  | Ok id =>
      (id ∉ usedInternalIds st) ∧ truthy id = true ∧
      usedInternalIds (generateInternalId_loop r st).2 = {[id]} ∪ usedInternalIds st
  | Throw _ => usedInternalIds (generateInternalId_loop r st).2 = usedInternalIds st
  end.
Proof.
  revert st. induction r as [|r IH]; intros st; cbn [generateInternalId_loop].
  - unfold draw_candidate. cbn [fst snd].
    split; [|by destruct st]. split; by destruct st.
  - pose proof (draw_candidate_truthy st) as Ht.
    unfold draw_candidate in *. cbn [fst snd] in *.
    set (cand := VStr _) in *. set (st1 := set_draws _ _).
    assert (Hu1 : usedInternalIds st1 = usedInternalIds st) by (by destruct st).
    assert (Hm1 : nodeDataMap st1 = nodeDataMap st ∧ internalIdMap st1 = internalIdMap st ∧
                  nodeToInternalIdMap st1 = nodeToInternalIdMap st) by (by destruct st).
    destruct Hm1 as (Hm1 & Hm2 & Hm3).
    assert (R1 : registry_only st st1) by (split; by destruct st).
    destruct (bool_decide (cand ∈ usedInternalIds st1)) eqn:Hin.
    + destruct (IH st1) as (R & H1 & H2 & H3 & H4).
      split; [by eapply registry_only_trans|].
      rewrite H1, H2, H3. split; [done|]. split; [done|]. split; [done|].
      destruct (generateInternalId_loop r st1).1; by rewrite <- Hu1.
    + apply bool_decide_eq_false in Hin. cbn [fst snd].
      split; [|split; [|split; [|split; [|split; [|split]]]]].
      * clear. subst st1. split; destruct st; tv_fields; [set_solver|done].
      * clear. subst st1. by destruct st.
      * clear. subst st1. by destruct st.
      * clear. subst st1. by destruct st.
      * by rewrite <- Hu1.
      * done.
      * clear. subst st1. by destruct st.
Qed.

Lemma generateInternalId_spec st :
  registry_only st (generateInternalId st).2 ∧
  nodeDataMap (generateInternalId st).2 = nodeDataMap st ∧
  internalIdMap (generateInternalId st).2 = internalIdMap st ∧
  nodeToInternalIdMap (generateInternalId st).2 = nodeToInternalIdMap st ∧
  match (generateInternalId st).1 with
  | Ok id =>
      (id ∉ usedInternalIds st) ∧ truthy id = true ∧
      usedInternalIds (generateInternalId st).2 = {[id]} ∪ usedInternalIds st
  | Throw _ => usedInternalIds (generateInternalId st).2 = usedInternalIds st
  end.
Proof. unfold generateInternalId. apply generateInternalId_loop_spec. Qed.

(** * The rebuild of the registry *)

Lemma mapNodes_cons c l st :
  mapNodes (c :: l) st =
  match mapNode c st with
  | ((c', Throw m), st1) => ((c' :: l, Throw m), st1)
  | ((c', Ok _), st1) =>
      let '((l'', r), st2) := mapNodes l st1 in ((c' :: l'', r), st2)
  end.
Proof. reflexivity. Qed.

Lemma mapNode_unfold o ps ks kp st :
  mapNode (Node o ps ks kp) st =
  match assignInternalId ps st with
  | (Throw m, st1) => ((Node o ps ks kp, Throw m), st1)
  | (Ok (internalId, ps1), st1) =>
      let st2 := indexNode (nodeKey (Node o ps ks kp)) internalId o st1 in
      match ks with
      | Some l =>
          let '((l', r'), st3) := mapNodes l st2 in
          ((Node o ps1 (Some l') kp, r'), st3)
      | None => ((Node o ps1 None kp, Ok tt), st2)
      end
  end.
Proof. reflexivity. Qed.

(** Every run of [mapNodes] is a derivation of [Build]. *)
Lemma mapNodes_Build l :
  ∀ st, Build st l (mapNodes l st).1.1 (mapNodes l st).1.2 (mapNodes l st).2.
Proof.
  induction l as [|c l IHl]; intros st; [constructor|].
  assert (Hc : ∀ st, ∀ l0, (∀ s, Build s l0 (mapNodes l0 s).1.1 (mapNodes l0 s).1.2
                                      (mapNodes l0 s).2) →
               Build st (c :: l0) (mapNodes (c :: l0) st).1.1
                     (mapNodes (c :: l0) st).1.2 (mapNodes (c :: l0) st).2);
    [|by apply Hc].
  clear IHl l st.
  induction c as [o ps kp|o ps ks kp IH] using node_ind'; intros st l IHl.
  - rewrite mapNodes_cons, mapNode_unfold.
    destruct (assignInternalId ps st) as [[[i ps1]|m] st1] eqn:Ea; cbn [fst snd].
    + specialize (IHl (indexNode (nodeKey (Node o ps None kp)) i o st1)).
      destruct (mapNodes l _) as [[l'' r] st2]. cbn [fst snd] in *.
      by eapply Build_leaf.
    + by apply Build_alloc_throw.
  - rewrite mapNodes_cons, mapNode_unfold.
    destruct (assignInternalId ps st) as [[[i ps1]|m] st1] eqn:Ea; cbn [fst snd].
    + set (st2 := indexNode _ i o st1).
      assert (Hk : ∀ s, Build s ks (mapNodes ks s).1.1 (mapNodes ks s).1.2 (mapNodes ks s).2).
      { clear -IH. induction IH as [|c ks Hc _ IHks]; intros s; [constructor|].
        by apply Hc. }
      specialize (Hk st2).
      destruct (mapNodes ks st2) as [[ks' [[]|m]] st3]; cbn [fst snd] in *.
      * specialize (IHl st3). destruct (mapNodes l st3) as [[l'' r] st4].
        cbn [fst snd] in *. by eapply Build_kids_ok.
      * by eapply Build_kids_throw.
    + by apply Build_alloc_throw.
Qed.

Lemma prop_get_set_eq k v ps : prop_get k (prop_set k v ps) = v.
Proof.
  induction ps as [|[k' v'] ps IH]; simpl.
  - by rewrite String.eqb_refl.
  - destruct (String.eqb k k') eqn:E; simpl; [by rewrite String.eqb_refl|by rewrite E].
Qed.

Lemma prop_get_set_ne k k' v ps : k' ≠ k → prop_get k' (prop_set k v ps) = prop_get k' ps.
Proof.
  intros Hne. induction ps as [|[k0 v0] ps IH]; simpl.
  - destruct (String.eqb k' k) eqn:E; [|done]. by apply String.eqb_eq in E.
  - destruct (String.eqb k k0) eqn:E; simpl.
    + apply String.eqb_eq in E as <-.
      destruct (String.eqb k' k) eqn:E'; [|done]. by apply String.eqb_eq in E'.
    + destruct (String.eqb k' k0); [done|apply IH].
Qed.

Lemma filter_prop_set k v ps :
  List.filter (fun kv => negb (String.eqb kv.1 k)) (prop_set k v ps) =
  List.filter (fun kv => negb (String.eqb kv.1 k)) ps.
Proof.
  induction ps as [|[k' v'] ps IH]; simpl.
  - by rewrite String.eqb_refl.
  - destruct (String.eqb k k') eqn:E; simpl.
    + apply String.eqb_eq in E as <-. by rewrite String.eqb_refl.
    + by rewrite IH.
Qed.

Lemma assignInternalId_spec ps st :
  registry_only st (assignInternalId ps st).2 ∧
  nodeDataMap (assignInternalId ps st).2 = nodeDataMap st ∧
  internalIdMap (assignInternalId ps st).2 = internalIdMap st ∧
  nodeToInternalIdMap (assignInternalId ps st).2 = nodeToInternalIdMap st ∧
  match (assignInternalId ps st).1 with
  | Ok (i, ps1) =>
      truthy i = true ∧ prop_get "_internalId" ps1 = i ∧
      usedInternalIds (assignInternalId ps st).2 = {[i]} ∪ usedInternalIds st ∧
      ((ps1 = ps ∧ internalIdMap st !! i = None ∧
        internalIdCounter (assignInternalId ps st).2 = internalIdCounter st ∧
        draws (assignInternalId ps st).2 = draws st) ∨
       (ps1 = prop_set "_internalId" i ps ∧ (i ∉ usedInternalIds st) ∧
        (truthy (prop_get "_internalId" ps) = false ∨
         is_Some (internalIdMap st !! prop_get "_internalId" ps))))
  | Throw _ => True
  end.
Proof.
  unfold assignInternalId.
  destruct (negb (truthy (prop_get "_internalId" ps)) ||
            bool_decide (is_Some (internalIdMap st !! prop_get "_internalId" ps))) eqn:Hc.
  - destruct (generateInternalId_spec st) as (R & H1 & H2 & H3 & H4).
    destruct (generateInternalId st) as [[fresh|m] st1]; cbn [fst snd] in *; [|done].
    destruct H4 as (Hfresh & Htr & Hu).
    repeat (split; [done|]). split; [apply prop_get_set_eq|]. split; [done|].
    right. split; [done|]. split; [done|].
    apply orb_true_iff in Hc as [Hc|Hc].
    + left. by apply negb_true_iff in Hc.
    + right. by apply bool_decide_eq_true in Hc.
  - apply orb_false_iff in Hc as [Hc1 Hc2]. apply negb_false_iff in Hc1.
    apply bool_decide_eq_false in Hc2. cbn [fst snd].
    split; [|split; [|split; [|split; [|split; [|split; [|split]]]]]];
      try (by destruct st); try done.
    + split; destruct st; tv_fields; [set_solver|done].
    + left. split; [done|]. split; [|by destruct st].
      destruct (internalIdMap st !! _) eqn:E; [|done]. exfalso. apply Hc2. eauto.
Qed.

Lemma indexNode_spec k i o st :
  registry_only st (indexNode k i o st) ∧
  nodeDataMap (indexNode k i o st) = <[k := o]> (nodeDataMap st) ∧
  internalIdMap (indexNode k i o st) = <[i := o]> (internalIdMap st) ∧
  nodeToInternalIdMap (indexNode k i o st) = <[o := i]> (nodeToInternalIdMap st) ∧
  usedInternalIds (indexNode k i o st) = usedInternalIds st ∧
  internalIdCounter (indexNode k i o st) = internalIdCounter st ∧
  draws (indexNode k i o st) = draws st.
Proof. unfold indexNode. repeat split; by destruct st. Qed.

Lemma forestNodes_cons n l :
  forestNodes (n :: l) = n :: forestNodes (visited_kids n) ++ forestNodes l.
Proof. destruct n as [o ps [ks|] kp]; reflexivity. Qed.

Lemma forestNodes_app l1 l2 : forestNodes (l1 ++ l2) = forestNodes l1 ++ forestNodes l2.
Proof. unfold forestNodes. apply flat_map_app. Qed.

Lemma skeleton_skip ps1 ps o ks kp :
  (ps1 = ps ∨ ∃ i, ps1 = prop_set "_internalId" i ps) →
  ∀ ks', (match ks, ks' with
          | Some a, Some b => map skeleton b = map skeleton a
          | None, None => True
          | _, _ => False
          end) →
  skeleton (Node o ps1 ks' kp) = skeleton (Node o ps ks kp).
Proof.
  intros Hps ks' Hk. cbn [skeleton].
  assert (List.filter (fun kv => negb (String.eqb kv.1 "_internalId")) ps1 =
          List.filter (fun kv => negb (String.eqb kv.1 "_internalId")) ps) as ->.
  { destruct Hps as [->|[i ->]]; [done|apply filter_prop_set]. }
  destruct ks, ks'; try done. by rewrite Hk.
Qed.

(** The rebuild changes nothing in the forest but internal ids, and nothing
    in the state but the registry. *)
Lemma Build_weak st l l' r st' :
  Build st l l' r st' → map skeleton l' = map skeleton l ∧ registry_only st st'.
Proof.
  induction 1 as [st|st o ps ks kp l m st1 Ha
                  |st o ps kp l i ps1 st1 l' r st' Ha Hl IHl
                  |st o ps ks kp l i ps1 st1 ks' m st3 Ha Hk IHk
                  |st o ps ks kp l i ps1 st1 ks' st3 l' r st' Ha Hk IHk Hl IHl].
  - split; [done|apply registry_only_refl].
  - split; [done|]. pose proof (assignInternalId_spec ps st) as (R & _). by rewrite Ha in R.
  - pose proof (assignInternalId_spec ps st) as (R & _ & _ & _ & H4).
    rewrite Ha in R, H4. cbn [fst snd] in *. destruct H4 as (_ & _ & _ & Hps).
    destruct IHl as [IH1 IH2]. split.
    + cbn [map]. rewrite IH1. f_equal. apply skeleton_skip; [|done].
      destruct Hps as [[-> _]|[-> _]]; eauto.
    + eapply registry_only_trans; [exact R|].
      eapply registry_only_trans; [apply indexNode_spec|exact IH2].
  - pose proof (assignInternalId_spec ps st) as (R & _ & _ & _ & H4).
    rewrite Ha in R, H4. cbn [fst snd] in *. destruct H4 as (_ & _ & _ & Hps).
    destruct IHk as [IH1 IH2]. split.
    + cbn [map]. f_equal. apply skeleton_skip; [|done].
      destruct Hps as [[-> _]|[-> _]]; eauto.
    + eapply registry_only_trans; [exact R|].
      eapply registry_only_trans; [apply indexNode_spec|exact IH2].
  - pose proof (assignInternalId_spec ps st) as (R & _ & _ & _ & H4).
    rewrite Ha in R, H4. cbn [fst snd] in *. destruct H4 as (_ & _ & _ & Hps).
    destruct IHk as [IHk1 IHk2], IHl as [IHl1 IHl2]. split.
    + cbn [map]. rewrite IHl1. f_equal. apply skeleton_skip; [|done].
      destruct Hps as [[-> _]|[-> _]]; eauto.
    + eapply registry_only_trans; [exact R|].
      eapply registry_only_trans; [apply indexNode_spec|].
      eapply registry_only_trans; [exact IHk2|exact IHl2].
Qed.

Lemma iids_cons n l : iids (n :: l) = iid n :: iids (visited_kids n) ++ iids l.
Proof. unfold iids. by rewrite forestNodes_cons, fmap_cons, fmap_app. Qed.

Lemma oids_cons n l : oids (n :: l) = oid n :: oids (visited_kids n) ++ oids l.
Proof. unfold oids. by rewrite forestNodes_cons, fmap_cons, fmap_app. Qed.

Lemma idIndex_cons n l m :
  idIndex (n :: l) m = idIndex l (idIndex (visited_kids n) (<[iid n := oid n]> m)).
Proof. unfold idIndex. by rewrite forestNodes_cons, <- fold_left_app. Qed.

Lemma oidIndex_cons n l m :
  oidIndex (n :: l) m = oidIndex l (oidIndex (visited_kids n) (<[oid n := iid n]> m)).
Proof. unfold oidIndex. by rewrite forestNodes_cons, <- fold_left_app. Qed.

Lemma keyIndex_cons n l m :
  keyIndex (n :: l) m = keyIndex l (keyIndex (visited_kids n) (<[nodeKey n := oid n]> m)).
Proof. unfold keyIndex. by rewrite forestNodes_cons, <- fold_left_app. Qed.

Lemma idIndex_dom l m : dom (idIndex l m) = dom m ∪ list_to_set (iids l).
Proof.
  unfold idIndex, iids. revert m.
  induction (forestNodes l) as [|n L IH]; intros m; cbn [fold_left map list_to_set]; [set_solver|].
  rewrite IH, dom_insert_L. set_solver.
Qed.

Lemma oidIndex_dom l m : dom (oidIndex l m) = dom m ∪ list_to_set (oids l).
Proof.
  unfold oidIndex, oids. revert m.
  induction (forestNodes l) as [|n L IH]; intros m; cbn [fold_left map list_to_set]; [set_solver|].
  rewrite IH, dom_insert_L. set_solver.
Qed.

Lemma keyIndex_values l m k o :
  keyIndex l m !! k = Some o → m !! k = Some o ∨ o ∈ oids l.
Proof.
  unfold keyIndex, oids. revert m.
  induction (forestNodes l) as [|n L IH]; intros m; cbn [fold_left map]; [by left|].
  intros H. apply IH in H as [H|H]; [|right; by right]. cbn beta in H.
  destruct (decide (nodeKey n = k)) as [<-|Hne].
  - rewrite lookup_insert_eq in H. injection H as <-. right. by left.
  - rewrite lookup_insert_ne in H by done. by left.
Qed.

Lemma idIndex_values l m i o :
  idIndex l m !! i = Some o → m !! i = Some o ∨ o ∈ oids l.
Proof.
  unfold idIndex, oids. revert m.
  induction (forestNodes l) as [|n L IH]; intros m; cbn [fold_left map]; [by left|].
  intros H. apply IH in H as [H|H]; [|right; by right]. cbn beta in H.
  destruct (decide (iid n = i)) as [<-|Hne].
  - rewrite lookup_insert_eq in H. injection H as <-. right. by left.
  - rewrite lookup_insert_ne in H by done. by left.
Qed.

Lemma iid_Node o ps ks kp : iid (Node o ps ks kp) = prop_get "_internalId" ps.
Proof. reflexivity. Qed.

(** What a rebuild that returns has established. *)
Lemma Build_strong st l l' st' :
  Build st l l' (Ok tt) st' →
  dom (internalIdMap st) ⊆ usedInternalIds st →
  internalIdMap st' = idIndex l' (internalIdMap st) ∧
  nodeToInternalIdMap st' = oidIndex l' (nodeToInternalIdMap st) ∧
  nodeDataMap st' = keyIndex l (nodeDataMap st) ∧
  Forall (fun i => truthy i = true) (iids l') ∧
  NoDup (iids l') ∧
  (∀ i, i ∈ iids l' → internalIdMap st !! i = None) ∧
  (∀ i, i ∈ iids l' → i ∈ usedInternalIds st') ∧
  dom (internalIdMap st') ⊆ usedInternalIds st'.
Proof.
  intros HB. remember (Ok tt) as r eqn:Er. revert Er.
  induction HB as [st|st o ps ks kp l m st1 Ha
                  |st o ps kp l i ps1 st1 l' r st' Ha Hl IHl
                  |st o ps ks kp l i ps1 st1 ks' m st3 Ha Hk IHk
                  |st o ps ks kp l i ps1 st1 ks' st3 l' r st' Ha Hk IHk Hl IHl];
    intros Er Hdom; try discriminate.
  - repeat split; try done; try constructor; intros i Hi; by apply elem_of_nil in Hi.
  - (* a leaf *)
    pose proof (assignInternalId_spec ps st) as (_ & A1 & A2 & A3 & A4).
    rewrite Ha in A1, A2, A3, A4. cbn [fst snd] in *.
    destruct A4 as (Htr & Hget & Hu & Hcase).
    assert (Hnone : internalIdMap st !! i = None).
    { destruct Hcase as [(_ & ? & _)|(_ & Hfresh & _)]; [done|].
      apply not_elem_of_dom. set_solver. }
    set (st2 := indexNode (nodeKey (Node o ps None kp)) i o st1) in *.
    destruct (indexNode_spec (nodeKey (Node o ps None kp)) i o st1)
      as (_ & I1 & I2 & I3 & I4 & _). fold st2 in I1, I2, I3, I4.
    destruct (IHl Er) as (B1 & B2 & B3 & B4 & B5 & B6 & B7 & B8).
    { rewrite I2, I4, A2, Hu, dom_insert_L. set_solver. }
    destruct (Build_weak _ _ _ _ _ Hl) as [_ [Hmono _]].
    rewrite idIndex_cons, oidIndex_cons, keyIndex_cons, iids_cons.
    cbn [visited_kids kids oid]. rewrite iid_Node, Hget.
    change (iids []) with (@nil value). change (idIndex [] ?m) with m.
    change (oidIndex [] ?m) with m. change (keyIndex [] ?m) with m. cbn [app].
    rewrite B1, B2, B3, I1, I2, I3, A1, A2, A3.
    split; [done|]. split; [done|]. split; [done|].
    split; [constructor; [exact Htr|exact B4]|]. split.
    { constructor; [|done]. intros Hin. apply B6 in Hin.
      by rewrite I2, lookup_insert_eq in Hin. }
    split.
    { intros j [->|Hj]%elem_of_cons; [done|]. apply B6 in Hj.
      rewrite I2, A2 in Hj. by apply lookup_insert_None in Hj as [? _]. }
    split; [|by rewrite <- A2, <- I2, <- B1].
    intros j [->|Hj]%elem_of_cons; [|by apply B7]. apply Hmono. rewrite I4, Hu. set_solver.
  - (* a node with children *)
    pose proof (assignInternalId_spec ps st) as (_ & A1 & A2 & A3 & A4).
    rewrite Ha in A1, A2, A3, A4. cbn [fst snd] in *.
    destruct A4 as (Htr & Hget & Hu & Hcase).
    assert (Hnone : internalIdMap st !! i = None).
    { destruct Hcase as [(_ & ? & _)|(_ & Hfresh & _)]; [done|].
      apply not_elem_of_dom. set_solver. }
    set (st2 := indexNode (nodeKey (Node o ps (Some ks) kp)) i o st1) in *.
    destruct (indexNode_spec (nodeKey (Node o ps (Some ks) kp)) i o st1)
      as (_ & I1 & I2 & I3 & I4 & _). fold st2 in I1, I2, I3, I4.
    destruct (IHk eq_refl) as (K1 & K2 & K3 & K4 & K5 & K6 & K7 & K8).
    { rewrite I2, I4, A2, Hu, dom_insert_L. set_solver. }
    destruct (IHl Er K8) as (B1 & B2 & B3 & B4 & B5 & B6 & B7 & B8).
    destruct (Build_weak _ _ _ _ _ Hl) as [_ [Hmono _]].
    destruct (Build_weak _ _ _ _ _ Hk) as [_ [Hmonok _]].
    rewrite idIndex_cons, oidIndex_cons, keyIndex_cons, iids_cons.
    cbn [visited_kids kids oid]. rewrite iid_Node, Hget.
    rewrite B1, B2, B3, K1, K2, K3, I1, I2, I3, A1, A2, A3.
    split; [done|]. split; [done|]. split; [done|].
    split; [constructor; [exact Htr|by apply Forall_app]|].
    assert (Hdomk : ∀ j, j ∈ iids ks' → is_Some (internalIdMap st3 !! j)).
    { intros j Hj. apply elem_of_dom. rewrite K1, idIndex_dom. set_solver. }
    split.
    { constructor.
      - intros [Hin|Hin]%elem_of_app.
        + apply K6 in Hin. by rewrite I2, lookup_insert_eq in Hin.
        + apply B6 in Hin. rewrite K1 in Hin.
          apply not_elem_of_dom in Hin. rewrite idIndex_dom, I2, dom_insert_L in Hin.
          set_solver.
      - apply NoDup_app. split; [done|]. split; [|done].
        intros j Hj Hj'. apply B6 in Hj'. destruct (Hdomk j Hj) as [? Hs]. congruence. }
    split.
    { intros j [->|[Hj|Hj]%elem_of_app]%elem_of_cons; [done| |].
      - apply K6 in Hj. rewrite I2, A2 in Hj. by apply lookup_insert_None in Hj as [? _].
      - apply B6 in Hj. rewrite K1 in Hj. apply not_elem_of_dom in Hj.
        rewrite idIndex_dom, I2, A2, dom_insert_L in Hj.
        apply not_elem_of_dom. set_solver. }
    split; [|by rewrite <- A2, <- I2, <- K1, <- B1].
    intros j [->|[Hj|Hj]%elem_of_app]%elem_of_cons.
    + apply Hmono, Hmonok. rewrite I4, Hu. set_solver.
    + apply Hmono. by apply K7.
    + by apply B7.
Qed.

Lemma assignInternalId_carried ps st :
  truthy (prop_get "_internalId" ps) = true →
  internalIdMap st !! prop_get "_internalId" ps = None →
  assignInternalId ps st =
  (Ok (prop_get "_internalId" ps, ps),
   set_usedInternalIds ({[prop_get "_internalId" ps]} ∪ usedInternalIds st) st).
Proof.
  intros Ht Hn. unfold assignInternalId. rewrite Ht, Hn. cbn [negb orb].
  rewrite bool_decide_eq_false_2; [done|]. by intros [? ?].
Qed.

Lemma Build_maps st l l' st' :
  Build st l l' (Ok tt) st' →
  internalIdMap st' = idIndex l' (internalIdMap st) ∧
  nodeToInternalIdMap st' = oidIndex l' (nodeToInternalIdMap st) ∧
  nodeDataMap st' = keyIndex l (nodeDataMap st).
Proof.
  intros HB. remember (Ok tt) as r eqn:Er. revert Er.
  induction HB as [st|st o ps ks kp l m st1 Ha
                  |st o ps kp l i ps1 st1 l' r st' Ha Hl IHl
                  |st o ps ks kp l i ps1 st1 ks' m st3 Ha Hk IHk
                  |st o ps ks kp l i ps1 st1 ks' st3 l' r st' Ha Hk IHk Hl IHl];
    intros Er; try discriminate.
  - done.
  - pose proof (assignInternalId_spec ps st) as (_ & A1 & A2 & A3 & A4).
    rewrite Ha in A1, A2, A3, A4. cbn [fst snd] in *.
    destruct A4 as (_ & Hget & _).
    destruct (indexNode_spec (nodeKey (Node o ps None kp)) i o st1)
      as (_ & I1 & I2 & I3 & _).
    destruct (IHl Er) as (B1 & B2 & B3).
    rewrite idIndex_cons, oidIndex_cons, keyIndex_cons.
    cbn [visited_kids kids oid]. rewrite iid_Node, Hget.
    change (idIndex [] ?m) with m. change (oidIndex [] ?m) with m.
    change (keyIndex [] ?m) with m.
    by rewrite B1, B2, B3, I1, I2, I3, A1, A2, A3.
  - pose proof (assignInternalId_spec ps st) as (_ & A1 & A2 & A3 & A4).
    rewrite Ha in A1, A2, A3, A4. cbn [fst snd] in *.
    destruct A4 as (_ & Hget & _).
    destruct (indexNode_spec (nodeKey (Node o ps (Some ks) kp)) i o st1)
      as (_ & I1 & I2 & I3 & _).
    destruct (IHk eq_refl) as (K1 & K2 & K3). destruct (IHl Er) as (B1 & B2 & B3).
    rewrite idIndex_cons, oidIndex_cons, keyIndex_cons.
    cbn [visited_kids kids oid]. rewrite iid_Node, Hget.
    by rewrite B1, B2, B3, K1, K2, K3, I1, I2, I3, A1, A2, A3.
Qed.

(** On a forest whose nodes carry distinct ids, none of them indexed yet,
    the rebuild returns, leaves every node as it is and draws nothing. *)
Lemma Build_stable st l l' r st' :
  Build st l l' r st' →
  Forall (fun i => truthy i = true) (iids l) →
  NoDup (iids l) →
  (∀ i, i ∈ iids l → internalIdMap st !! i = None) →
  l' = l ∧ r = Ok tt ∧
  internalIdCounter st' = internalIdCounter st ∧ draws st' = draws st ∧
  usedInternalIds st' = usedInternalIds st ∪ list_to_set (iids l).
Proof.
  induction 1 as [st|st o ps ks kp l m st1 Ha
                  |st o ps kp l i ps1 st1 l' r st' Ha Hl IHl
                  |st o ps ks kp l i ps1 st1 ks' m st3 Ha Hk IHk
                  |st o ps ks kp l i ps1 st1 ks' st3 l' r st' Ha Hk IHk Hl IHl];
    intros Htr Hnd Hnone.
  - repeat split; try done. change (iids []) with (@nil value). set_solver.
  - rewrite iids_cons, iid_Node in Htr, Hnone. apply Forall_cons in Htr as [Ht _].
    rewrite assignInternalId_carried in Ha; [done|done|]. apply Hnone. by left.
  - rewrite iids_cons, iid_Node in Htr, Hnd, Hnone. cbn [visited_kids kids] in *.
    change (iids []) with (@nil value) in *. cbn [app] in *.
    apply Forall_cons in Htr as [Ht Htl]. apply NoDup_cons in Hnd as [Hni Hndl].
    rewrite assignInternalId_carried in Ha; [|done|apply Hnone; by left].
    injection Ha as <- <- <-.
    destruct (indexNode_spec (nodeKey (Node o ps None kp)) (prop_get "_internalId" ps) o
                (set_usedInternalIds ({[prop_get "_internalId" ps]} ∪ usedInternalIds st) st))
      as (_ & _ & I2 & _ & I4 & I5 & I6).
    destruct (IHl Htl Hndl) as (-> & -> & C1 & C2 & C3).
    { intros j Hj. rewrite I2, lookup_insert_ne.
      - replace (internalIdMap (set_usedInternalIds _ st)) with (internalIdMap st)
          by (by destruct st). apply Hnone. by right.
      - intros <-. done. }
    split; [done|]. split; [done|]. rewrite C1, C2, C3, I4, I5, I6.
    rewrite iids_cons, iid_Node. cbn [visited_kids kids].
    change (iids []) with (@nil value). cbn [app list_to_set].
    split; [by destruct st|]. split; [by destruct st|].
    replace (usedInternalIds (set_usedInternalIds _ st))
      with ({[prop_get "_internalId" ps]} ∪ usedInternalIds st) by (by destruct st).
    clear. set_solver.
  - exfalso. rewrite iids_cons, iid_Node in Htr, Hnd, Hnone. cbn [visited_kids kids] in *.
    apply Forall_cons in Htr as [Ht Htl]. apply Forall_app in Htl as [Htk Htl].
    apply NoDup_cons in Hnd as [Hni Hndl]. apply NoDup_app in Hndl as (Hndk & Hdis & Hndl).
    rewrite assignInternalId_carried in Ha; [|done|apply Hnone; by left].
    injection Ha as <- <- <-.
    destruct (indexNode_spec (nodeKey (Node o ps (Some ks) kp)) (prop_get "_internalId" ps) o
                (set_usedInternalIds ({[prop_get "_internalId" ps]} ∪ usedInternalIds st) st))
      as (_ & _ & I2 & _).
    destruct (IHk Htk Hndk) as (_ & Hr & _); [|done].
    intros j Hj. rewrite I2, lookup_insert_ne.
    + replace (internalIdMap (set_usedInternalIds _ st)) with (internalIdMap st)
        by (by destruct st). apply Hnone. right. apply elem_of_app. by left.
    + intros <-. apply Hni. apply elem_of_app. by left.
  - rewrite iids_cons, iid_Node in Htr, Hnd, Hnone. cbn [visited_kids kids] in *.
    apply Forall_cons in Htr as [Ht Htl]. apply Forall_app in Htl as [Htk Htl].
    apply NoDup_cons in Hnd as [Hni Hndl]. apply NoDup_app in Hndl as (Hndk & Hdis & Hndl).
    rewrite assignInternalId_carried in Ha; [|done|apply Hnone; by left].
    injection Ha as <- <- <-.
    destruct (indexNode_spec (nodeKey (Node o ps (Some ks) kp)) (prop_get "_internalId" ps) o
                (set_usedInternalIds ({[prop_get "_internalId" ps]} ∪ usedInternalIds st) st))
      as (_ & _ & I2 & _ & I4 & I5 & I6).
    assert (Hnk : ∀ j, j ∈ iids ks →
              internalIdMap (indexNode (nodeKey (Node o ps (Some ks) kp))
                (prop_get "_internalId" ps) o
                (set_usedInternalIds ({[prop_get "_internalId" ps]} ∪ usedInternalIds st) st))
              !! j = None).
    { intros j Hj. rewrite I2, lookup_insert_ne.
      - replace (internalIdMap (set_usedInternalIds _ st)) with (internalIdMap st)
          by (by destruct st). apply Hnone. right. apply elem_of_app. by left.
      - intros <-. apply Hni. apply elem_of_app. by left. }
    destruct (IHk Htk Hndk Hnk) as (-> & _ & K1 & K2 & K3).
    destruct (Build_maps _ _ _ _ Hk) as (M1 & _).
    destruct (IHl Htl Hndl) as (-> & -> & C1 & C2 & C3).
    { intros j Hj. apply not_elem_of_dom. rewrite M1, idIndex_dom, I2, dom_insert_L.
      replace (internalIdMap (set_usedInternalIds _ st)) with (internalIdMap st)
        by (by destruct st).
      assert (internalIdMap st !! j = None) as Hjn
        by (apply Hnone; right; apply elem_of_app; by right).
      apply not_elem_of_dom in Hjn.
      assert (j ≠ prop_get "_internalId" ps)
        by (intros ->; apply Hni; apply elem_of_app; by right).
      assert (j ∉ iids ks) by (intros ?; by eapply Hdis).
      set_solver. }
    split; [done|]. split; [done|]. rewrite C1, C2, C3, K1, K2, K3, I4, I5, I6.
    rewrite (iids_cons (Node _ _ _ _)), iid_Node. cbn [visited_kids kids].
    rewrite list_to_set_cons, list_to_set_app_L.
    split; [by destruct st|]. split; [by destruct st|].
    replace (usedInternalIds (set_usedInternalIds _ st))
      with ({[prop_get "_internalId" ps]} ∪ usedInternalIds st) by (by destruct st).
    clear. set_solver.
Qed.

(** An id already issued can only be indexed, by a rebuild, to a node that
    carries it. *)
Lemma Build_target st l l' r st' id o :
  Build st l l' r st' →
  id ∈ usedInternalIds st →
  (∀ n, n ∈ forestNodes l → iid n = id → oid n = o) →
  (∀ o', internalIdMap st !! id = Some o' → o' = o) →
  ∀ o', internalIdMap st' !! id = Some o' → o' = o.
Proof.
  induction 1 as [st|st o1 ps ks kp l m st1 Ha
                  |st o1 ps kp l i ps1 st1 l' r st' Ha Hl IHl
                  |st o1 ps ks kp l i ps1 st1 ks' m st3 Ha Hk IHk
                  |st o1 ps ks kp l i ps1 st1 ks' st3 l' r st' Ha Hk IHk Hl IHl];
    intros Hused Hcarry Hidx.
  - done.
  - pose proof (assignInternalId_spec ps st) as (_ & _ & A2 & _).
    rewrite Ha in A2. cbn [snd] in A2. by rewrite A2.
  - pose proof (assignInternalId_spec ps st) as ([Hm _] & _ & A2 & _ & A4).
    rewrite Ha in Hm, A2, A4. cbn [fst snd] in *. destruct A4 as (_ & Hget & _ & Hcase).
    destruct (indexNode_spec (nodeKey (Node o1 ps None kp)) i o1 st1)
      as (_ & _ & I2 & _ & I4 & _).
    apply IHl.
    + rewrite I4. by apply Hm.
    + intros n Hn. apply Hcarry. rewrite forestNodes_cons. right.
      apply elem_of_app. by right.
    + intros o'. rewrite I2, A2. destruct (decide (i = id)) as [->|Hne].
      * rewrite lookup_insert_eq. intros [= <-].
        destruct Hcase as [(-> & _)|(_ & Hfresh & _)]; [|done].
        apply (Hcarry (Node o1 ps None kp)); [rewrite forestNodes_cons; by left|done].
      * rewrite lookup_insert_ne by done. apply Hidx.
  - pose proof (assignInternalId_spec ps st) as ([Hm _] & _ & A2 & _ & A4).
    rewrite Ha in Hm, A2, A4. cbn [fst snd] in *. destruct A4 as (_ & Hget & _ & Hcase).
    destruct (indexNode_spec (nodeKey (Node o1 ps (Some ks) kp)) i o1 st1)
      as (_ & _ & I2 & _ & I4 & _).
    apply IHk.
    + rewrite I4. by apply Hm.
    + intros n Hn. apply Hcarry. rewrite forestNodes_cons. right.
      apply elem_of_app. by left.
    + intros o'. rewrite I2, A2. destruct (decide (i = id)) as [->|Hne].
      * rewrite lookup_insert_eq. intros [= <-].
        destruct Hcase as [(-> & _)|(_ & Hfresh & _)]; [|done].
        apply (Hcarry (Node o1 ps (Some ks) kp)); [rewrite forestNodes_cons; by left|done].
      * rewrite lookup_insert_ne by done. apply Hidx.
  - pose proof (assignInternalId_spec ps st) as ([Hm _] & _ & A2 & _ & A4).
    rewrite Ha in Hm, A2, A4. cbn [fst snd] in *. destruct A4 as (_ & Hget & _ & Hcase).
    destruct (indexNode_spec (nodeKey (Node o1 ps (Some ks) kp)) i o1 st1)
      as (_ & _ & I2 & _ & I4 & _).
    destruct (Build_weak _ _ _ _ _ Hk) as [_ [Hmk _]].
    apply IHl.
    + apply Hmk. rewrite I4. by apply Hm.
    + intros n Hn. apply Hcarry. rewrite forestNodes_cons. right.
      apply elem_of_app. by right.
    + apply IHk.
      * rewrite I4. by apply Hm.
      * intros n Hn. apply Hcarry. rewrite forestNodes_cons. right.
        apply elem_of_app. by left.
      * intros o'. rewrite I2, A2. destruct (decide (i = id)) as [->|Hne].
        -- rewrite lookup_insert_eq. intros [= <-].
           destruct Hcase as [(-> & _)|(_ & Hfresh & _)]; [|done].
           apply (Hcarry (Node o1 ps (Some ks) kp)); [rewrite forestNodes_cons; by left|done].
        -- rewrite lookup_insert_ne by done. apply Hidx.
Qed.

(** * Removal *)

Lemma subtree_own n : map own (subtree n) = own n :: map own (descendants n).
Proof. reflexivity. Qed.

Lemma descendants_Some o ps l kp :
  descendants (Node o ps (Some l) kp) = forestNodes l.
Proof. reflexivity. Qed.

Lemma forestNodes_cons' n l : forestNodes (n :: l) = subtree n ++ forestNodes l.
Proof. reflexivity. Qed.


Lemma removeFrom_spec t l :
  Forall (removeIn_post t) l →
  ∀ l' x, removeFrom (removeIn t) t l = Some (l', x) →
    oid x = t ∧ map oid l' `sublist_of` map oid l ∧
    map own (forestNodes l) ≡ₚ map own (forestNodes l') ++ map own (subtree x).
Proof.
  induction 1 as [|c l Hc _ IH]; intros l' x Hr; [done|].
  cbn [removeFrom] in Hr. fold (removeFrom (removeIn t) t) in Hr.
  destruct (bool_decide (oid c = t)) eqn:Ec.
  - apply bool_decide_eq_true in Ec. injection Hr as <- <-.
    split; [done|]. split; [by apply sublist_cons|].
    rewrite forestNodes_cons', map_app. apply Permutation_app_comm.
  - destruct (removeIn t c) as [[c' y]|] eqn:Ein.
    + injection Hr as <- <-. destruct (Hc c' y Ein) as (Ho & Hown & Hp).
      split; [done|]. split.
      { cbn [map]. assert (oid c' = oid c) as -> by (by injection Hown). done. }
      rewrite !forestNodes_cons', !map_app, !subtree_own, Hown, Hp.
      cbn [app]. constructor. rewrite <- !app_assoc. apply Permutation_app_head.
      apply Permutation_app_comm.
    + destruct (removeFrom (removeIn t) t l) as [[l'' y]|] eqn:El; [|done].
      injection Hr as <- <-. destruct (IH l'' y eq_refl) as (Ho & Hs & Hp).
      split; [done|]. split; [by apply sublist_skip|].
      rewrite !forestNodes_cons', !map_app, Hp. by rewrite app_assoc.
Qed.

Lemma removeIn_spec t n : removeIn_post t n.
Proof.
  induction n as [o ps kp|o ps l kp IH] using node_ind'; intros n' x Hr; [done|].
  cbn [removeIn] in Hr.
  destruct (removeFrom (removeIn t) t l) as [[l' y]|] eqn:El; [|done].
  injection Hr as <- <-. destruct (removeFrom_spec t l IH l' y El) as (Ho & _ & Hp).
  split; [done|]. split; [done|]. by rewrite !descendants_Some.
Qed.

Lemma removeFromNodes_spec t l l' x :
  removeFromNodes t l = Some (l', x) →
  oid x = t ∧ map oid l' `sublist_of` map oid l ∧
  map own (forestNodes l) ≡ₚ map own (forestNodes l') ++ map own (subtree x).
Proof.
  apply removeFrom_spec. apply Forall_forall. intros n _. apply removeIn_spec.
Qed.

Lemma iids_own l : iids l = map (fun p => prop_get "_internalId" p.2) (map own (forestNodes l)).
Proof. unfold iids. by rewrite map_map. Qed.

Lemma oids_own l : oids l = map fst (map own (forestNodes l)).
Proof. unfold oids. by rewrite map_map. Qed.

Lemma removeFromNodes_iids t l l' x :
  removeFromNodes t l = Some (l', x) → iids l ≡ₚ iids l' ++ map iid (subtree x).
Proof.
  intros (_ & _ & Hp)%removeFromNodes_spec.
  rewrite !iids_own, Hp, map_app. apply Permutation_app_head.
  rewrite map_map. done.
Qed.

Lemma removeFromNodes_oids t l l' x :
  removeFromNodes t l = Some (l', x) → oids l ≡ₚ oids l' ++ map oid (subtree x).
Proof.
  intros (_ & _ & Hp)%removeFromNodes_spec.
  rewrite !oids_own, Hp, map_app. apply Permutation_app_head.
  rewrite map_map. done.
Qed.

(** * Clean-up of the mappings *)

Lemma cleaned_trans K1 K2 st1 st2 st3 :
  cleaned K1 st1 st2 → cleaned K2 st2 st3 → cleaned (K1 ∪ K2) st1 st3.
Proof.
  intros (a1 & a2 & a3 & ->) (b1 & b2 & b3 & ->). exists b1, b2, b3.
  destruct st1. tv_fields. f_equal; clear; set_solver.
Qed.

Lemma cleaned_refl st : cleaned ∅ st st.
Proof.
  exists (nodeDataMap st), (internalIdMap st), (nodeToInternalIdMap st).
  destruct st. tv_fields. f_equal; clear; set_solver.
Qed.

Lemma cleanup_fold (l : list node) :
  Forall (fun c => ∀ st, cleaned (cascadeKeys c) st (cleanupNodeMappings c st)) l →
  ∀ st, cleaned (keysOf l) st (fold_left (fun s c => cleanupNodeMappings c s) l st).
Proof.
  induction 1 as [|c l Hc _ IH]; intros st; cbn [fold_left].
  - apply cleaned_refl.
  - rewrite keysOf_cons. eapply cleaned_trans; [apply Hc|apply IH].
Qed.

Lemma cleanupNodeMappings_cleaned n st :
  cleaned (cascadeKeys n) st (cleanupNodeMappings n st).
Proof.
  revert st. induction n as [o ps kp|o ps l kp IH] using node_ind'; intros st.
  - rewrite cascadeKeys_unfold. cbn [cleanupNodeMappings visited_kids kids].
    exists (delete (nodeKey (Node o ps None kp)) (nodeDataMap st)),
           (delete (prop_get "_internalId" ps) (internalIdMap st)),
           (delete o (nodeToInternalIdMap st)).
    destruct st. tv_fields. f_equal; unfold keysOf; simpl; clear; set_solver.
  - rewrite cascadeKeys_unfold. cbn [cleanupNodeMappings visited_kids kids].
    eapply cleaned_trans; [|apply (cleanup_fold l IH)].
    exists (delete (nodeKey (Node o ps (Some l) kp)) (nodeDataMap st)),
           (delete (prop_get "_internalId" ps) (internalIdMap st)),
           (delete o (nodeToInternalIdMap st)).
    by destruct st.
Qed.

Lemma cleaned_fields K st st' :
  cleaned K st st' →
  data st' = data st ∧ displayField st' = displayField st ∧
  filteredData st' = filteredData st ∧ searchTerm st' = searchTerm st ∧
  selectedNodes st' = selectedNodes st ∖ K ∧ expandedNodes st' = expandedNodes st ∖ K ∧
  usedInternalIds st' = usedInternalIds st ∧
  internalIdCounter st' = internalIdCounter st ∧ draws st' = draws st ∧
  nextOid st' = nextOid st ∧ pageSize st' = pageSize st ∧
  currentPage st' = currentPage st ∧ totalPages st' = totalPages st ∧
  showPagination st' = showPagination st.
Proof. intros (m1 & m2 & m3 & ->). by destruct st. Qed.

(** * The filter as a step of an operation *)

Lemma refilter_view st : view_only st (refilter st).2.
Proof.
  unfold refilter, filterNodes.
  destruct (filterNodes_from _ _ _ _) as [[r|m] nx]; cbn [snd].
  - by eexists _, _.
  - exists (filteredData st), nx. by destruct st.
Qed.

Lemma view_only_fields st st' :
  view_only st st' →
  data st' = data st ∧ displayField st' = displayField st ∧
  searchTerm st' = searchTerm st ∧
  selectedNodes st' = selectedNodes st ∧ expandedNodes st' = expandedNodes st ∧
  nodeDataMap st' = nodeDataMap st ∧ internalIdMap st' = internalIdMap st ∧
  nodeToInternalIdMap st' = nodeToInternalIdMap st ∧
  usedInternalIds st' = usedInternalIds st ∧
  internalIdCounter st' = internalIdCounter st ∧ draws st' = draws st ∧
  pageSize st' = pageSize st ∧ currentPage st' = currentPage st ∧
  totalPages st' = totalPages st ∧ showPagination st' = showPagination st.
Proof. intros (F & nx & ->). by destruct st. Qed.

(** * [buildNodeDataMap] as a derivation *)

Lemma buildNodeDataMap_Build st :
  ∃ l' st1,
    Build (set_nodeToInternalIdMap ∅ (set_internalIdMap ∅ (set_nodeDataMap ∅ st)))
          (data st) l' (buildNodeDataMap st).1 st1 ∧
    (buildNodeDataMap st).2 = set_data l' st1.
Proof.
  unfold buildNodeDataMap.
  set (st0 := set_nodeToInternalIdMap ∅ _).
  assert (Hd : data st0 = data st) by (by destruct st). rewrite Hd.
  pose proof (mapNodes_Build (data st) st0) as HB.
  destruct (mapNodes (data st) st0) as [[l' r] st1]. cbn [fst snd] in *. eauto.
Qed.

(** * Update in place *)

Lemma prop_get_set k k' v ps :
  prop_get k (prop_set k' v ps) = if String.eqb k k' then v else prop_get k ps.
Proof.
  destruct (String.eqb k k') eqn:E.
  - apply String.eqb_eq in E as ->. apply prop_get_set_eq.
  - apply prop_get_set_ne. intros ->. by rewrite String.eqb_refl in E.
Qed.

Lemma prop_get_assign k t s :
  prop_get k (props_assign t s) =
  match assigned k s with Some v => v | None => prop_get k t end.
Proof.
  unfold props_assign. revert t. induction s as [|[k' v] s IH]; intros t; [done|].
  cbn [fold_left assigned fst snd]. rewrite IH.
  destruct (assigned k s); [done|]. rewrite prop_get_set.
  by destruct (String.eqb k k').
Qed.

Lemma findNode_cons o c l :
  findNode o (c :: l) =
  match findNode_node o c with Some r => Some r | None => findNode o l end.
Proof. reflexivity. Qed.

Lemma findNode_node_unfold o n :
  findNode_node o n =
  if bool_decide (oid n = o) then Some n else findNode o (visited_kids n).
Proof. destruct n as [o' ps [l|] kp]; reflexivity. Qed.

Lemma updateNode_unfold o f n :
  updateNode o f n =
  if bool_decide (oid n = o) then f n
  else Node (oid n) (props n)
            (match kids n with Some l => Some (updateForest o f l) | None => None end)
            (kpos n).
Proof. destruct n as [o' ps [l|] kp]; reflexivity. Qed.

Section updateForest.
Variables (o : nat) (f : node → node).
Hypothesis f_oid : ∀ n, oid (f n) = oid n.
Hypothesis f_kids : ∀ n, kids (f n) = kids n.

Lemma findNode_updateForest l :
  findNode o (updateForest o f l) = f <$> findNode o l.
Proof.
  induction l as [|c l IHl]; [done|].
  assert (Hc : findNode_node o (updateNode o f c) = f <$> findNode_node o c).
  { clear IHl l. induction c as [o' ps kp|o' ps l kp IH] using node_ind'.
    - rewrite updateNode_unfold, (findNode_node_unfold o (Node _ _ _ _)). cbn [oid kids].
      destruct (bool_decide (o' = o)) eqn:E.
      + apply bool_decide_eq_true in E. rewrite findNode_node_unfold, f_oid. cbn [oid].
        by rewrite bool_decide_eq_true_2.
      + rewrite findNode_node_unfold. cbn [oid visited_kids kids]. by rewrite E.
    - rewrite updateNode_unfold, (findNode_node_unfold o (Node _ _ _ _)). cbn [oid kids].
      destruct (bool_decide (o' = o)) eqn:E.
      + apply bool_decide_eq_true in E. rewrite findNode_node_unfold, f_oid. cbn [oid].
        by rewrite bool_decide_eq_true_2.
      + rewrite findNode_node_unfold. cbn [oid visited_kids kids]. rewrite E.
        induction IH as [|c l Hc _ IHl]; [done|].
        unfold updateForest. cbn [map]. rewrite !findNode_cons, Hc.
        destruct (findNode_node o c); [done|]. apply IHl. }
  unfold updateForest. cbn [map]. rewrite !findNode_cons, Hc.
  destruct (findNode_node o c); [done|]. apply IHl.
Qed.

Lemma findNode_updateForest_other o' l :
  o' ≠ o → own <$> findNode o' (updateForest o f l) = own <$> findNode o' l.
Proof.
  intros Hne. induction l as [|c l IHl]; [done|].
  assert (Hc : own <$> findNode_node o' (updateNode o f c) = own <$> findNode_node o' c).
  { clear IHl l. induction c as [o1 ps kp|o1 ps l kp IH] using node_ind'.
    - rewrite updateNode_unfold, (findNode_node_unfold o' (Node _ _ _ _)). cbn [oid kids].
      destruct (bool_decide (o1 = o)) eqn:E.
      + apply bool_decide_eq_true in E. subst o1.
        rewrite findNode_node_unfold, f_oid. cbn [oid].
        rewrite !bool_decide_eq_false_2 by done.
        unfold visited_kids. by rewrite f_kids.
      + rewrite findNode_node_unfold. cbn [oid visited_kids kids props kpos].
        by destruct (bool_decide (o1 = o')).
    - rewrite updateNode_unfold, (findNode_node_unfold o' (Node _ _ _ _)). cbn [oid kids].
      destruct (bool_decide (o1 = o)) eqn:E.
      + apply bool_decide_eq_true in E. subst o1.
        rewrite findNode_node_unfold, f_oid. cbn [oid].
        rewrite !bool_decide_eq_false_2 by done.
        unfold visited_kids. by rewrite f_kids.
      + rewrite findNode_node_unfold. cbn [oid visited_kids kids props kpos].
        destruct (bool_decide (o1 = o')); [done|].
        induction IH as [|c l Hc _ IHl]; [done|].
        unfold updateForest. cbn [map]. rewrite !findNode_cons.
        destruct (findNode_node o' (updateNode o f c)) eqn:E1,
                 (findNode_node o' c) eqn:E2; done. }
  unfold updateForest. cbn [map]. rewrite !findNode_cons.
  destruct (findNode_node o' (updateNode o f c)) eqn:E1,
           (findNode_node o' c) eqn:E2; done.
Qed.

Lemma oids_updateForest l : oids (updateForest o f l) = oids l.
Proof.
  induction l as [|c l IHl]; [done|].
  assert (Hc : oids [updateNode o f c] = oids [c]).
  { clear IHl l. induction c as [o1 ps kp|o1 ps l kp IH] using node_ind'.
    - rewrite updateNode_unfold. cbn [oid kids].
      destruct (bool_decide (o1 = o)); [|done].
      rewrite !oids_cons, f_oid. unfold visited_kids. by rewrite f_kids.
    - rewrite updateNode_unfold. cbn [oid kids].
      destruct (bool_decide (o1 = o)).
      + rewrite !oids_cons, f_oid. unfold visited_kids. by rewrite f_kids.
      + rewrite !oids_cons. cbn [oid visited_kids kids]. do 2 f_equal.
        induction IH as [|c l Hc _ IHl]; [done|].
        unfold updateForest in *. cbn [map].
        rewrite (oids_cons (updateNode o f c)), (oids_cons c), IHl.
        rewrite !oids_cons in Hc. change (oids []) with (@nil nat) in Hc.
        rewrite !app_nil_r in Hc. injection Hc as -> ->. done. }
  unfold updateForest in *. cbn [map].
  rewrite (oids_cons (updateNode o f c)), (oids_cons c), IHl.
  rewrite !oids_cons in Hc. change (oids []) with (@nil nat) in Hc.
  rewrite !app_nil_r in Hc. injection Hc as -> ->. done.
Qed.
End updateForest.

(** On a forest whose nodes all have a display string the filter returns. *)
Lemma filterEach_returns df t l :
  Forall (fun n => ∀ nx, ∃ r nx', filterNode df t n nx = (Ok r, nx')) l →
  ∀ nx, ∃ rs nx', filterEach (filterNode df t) l nx = (Ok rs, nx').
Proof.
  induction 1 as [|c l Hc _ IH]; intros nx; cbn [filterEach]; [eauto|].
  fold (filterEach (filterNode df t)).
  destruct (Hc nx) as (r & nx1 & ->). destruct (IH nx1) as (rs & nx2 & ->). eauto.
Qed.

Lemma filterNode_returns df t n :
  Forall (fun m => is_Some (displayText df m)) (subtree n) →
  ∀ nx, ∃ r nx', filterNode df t n nx = (Ok r, nx').
Proof.
  induction n as [o ps kp|o ps l kp IH] using node_ind'; intros Hd nx.
  - apply subtree_displayable in Hd as [[s Hs] _]. cbn [filterNode]. rewrite Hs.
    destruct (_ || _); eauto.
  - apply subtree_displayable in Hd as [[s Hs] Hk]. cbn [visited_kids kids] in Hk.
    cbn [filterNode]. rewrite Hs.
    destruct (filterEach_returns df t l) with (nx := nx) as (rs & nx1 & ->).
    { rewrite Forall_forall in IH, Hk |- *. intros c Hc. apply IH; auto. }
    destruct (_ || _); eauto.
Qed.

Lemma refilter_returns st :
  searchTerm st = EmptyString ∨ displayable (displayField st) (data st) →
  (refilter st).1 = Ok tt.
Proof.
  intros H. unfold refilter, filterNodes, filterNodes_from.
  destruct (searchTerm st) as [|c s] eqn:Es; [done|].
  destruct H as [|Hd]; [done|].
  destruct (filterEach_returns (displayField st) (String c s) (data st))
    with (nx := nextOid st) as (rs & nx1 & ->); [|done].
  clear -Hd. induction (data st) as [|n l IH]; [constructor|].
  apply displayable_cons in Hd as [Hn Hl]. constructor; [|by apply IH].
  by apply filterNode_returns.
Qed.

Lemma refilter_result st :
  ∃ st', view_only st st' ∧
         (refilter st = (Ok tt, st') ∨ ∃ m, refilter st = (Throw m, st')).
Proof.
  pose proof (refilter_view st) as Hv.
  destruct (refilter st) as [[[]|m] st'] eqn:E; cbn [snd] in Hv; eauto.
Qed.

(** C7.  When the internal id resolves to a node of the forest, the update
    either returns success or is interrupted by an exception of the filter,
    and returns success whenever no search term is set or every node has a
    display string afterwards; in both cases the node, the same object at
    the same place, has the supplied fields merged over its own, while its
    children list, its internal id and its position among the properties
    are what they were, whatever the supplied object holds under those
    names; no other node and no index is changed.  When the internal id does
    not resolve, the update returns failure and changes nothing. *)
Theorem update_keeps_children_and_internal_id
    (st : TreeView) (i : value) (u n : node) (o : nat) :
  truthy i = true →
  internalIdMap st !! i = Some o →
  findNode o (data st) = Some n →
  (∃ r st',
      updateNodeByInternalId i (Some u) st = (r, st') ∧
      (r = Ok true ∨ ∃ m, r = Throw m) ∧
      (searchTerm st = EmptyString ∨ displayable (displayField st) (data st') →
       r = Ok true) ∧
      data st' = updateForest o (mergeUpdate u) (data st) ∧
      findNode o (data st') = Some (mergeUpdate u n) ∧
      oid (mergeUpdate u n) = oid n ∧
      kids (mergeUpdate u n) = kids n ∧
      kpos (mergeUpdate u n) = kpos n ∧
      iid (mergeUpdate u n) = iid n ∧
      (∀ k, k ≠ "_internalId"%string →
            prop_get k (props (mergeUpdate u n)) =
            match assigned k (props u) with
            | Some v => v
            | None => prop_get k (props n)
            end) ∧
      oids (data st') = oids (data st) ∧
      (∀ o', o' ≠ o → own <$> findNode o' (data st') = own <$> findNode o' (data st)) ∧
      nodeDataMap st' = nodeDataMap st ∧ internalIdMap st' = internalIdMap st ∧
      nodeToInternalIdMap st' = nodeToInternalIdMap st ∧
      usedInternalIds st' = usedInternalIds st) ∧
  (∀ j u', internalIdMap st !! j = None →
           updateNodeByInternalId j u' st = (Ok false, st)).
Proof.
  intros Hi Hlook Hfind. split.
  - unfold updateNodeByInternalId. rewrite Hi, Hlook. cbn [negb].
    unfold bind, modify, ret.
    set (s1 := set_data (updateForest o (mergeUpdate u) (data st)) st).
    assert (Hs1 : data s1 = updateForest o (mergeUpdate u) (data st) ∧
                  displayField s1 = displayField st ∧ searchTerm s1 = searchTerm st ∧
                  nodeDataMap s1 = nodeDataMap st ∧ internalIdMap s1 = internalIdMap st ∧
                  nodeToInternalIdMap s1 = nodeToInternalIdMap st ∧
                  usedInternalIds s1 = usedInternalIds st) by (by destruct st).
    destruct Hs1 as (D1 & D2 & D3 & D4 & D5 & D6 & D7).
    destruct (refilter_result s1) as (s2 & Hv & Hre).
    destruct (view_only_fields _ _ Hv)
      as (V1 & V2 & V3 & _ & _ & V4 & V5 & V6 & V7 & _).
    assert (Hfinal : ∀ s3, paging_only s2 s3 ∨ s3 = s2 →
              data s3 = updateForest o (mergeUpdate u) (data st) ∧
              nodeDataMap s3 = nodeDataMap st ∧ internalIdMap s3 = internalIdMap st ∧
              nodeToInternalIdMap s3 = nodeToInternalIdMap st ∧
              usedInternalIds s3 = usedInternalIds st).
    { intros s3 [Hp| ->].
      - destruct (paging_only_fields _ _ Hp)
          as (P1 & _ & _ & _ & _ & _ & _ & _ & _ & P2 & P3 & P4 & P5 & _).
        rewrite P1, P2, P3, P4, P5. by rewrite V1, V4, V5, V6, V7, D1, D4, D5, D6, D7.
      - by rewrite V1, V4, V5, V6, V7, D1, D4, D5, D6, D7. }
    assert (Hrest : ∀ r s3,
              data s3 = updateForest o (mergeUpdate u) (data st) →
              (searchTerm st = EmptyString ∨ displayable (displayField st) (data s3) →
               r = Ok true) →
              (r = Ok true ∨ ∃ m, r = Throw m) →
              nodeDataMap s3 = nodeDataMap st ∧ internalIdMap s3 = internalIdMap st ∧
              nodeToInternalIdMap s3 = nodeToInternalIdMap st ∧
              usedInternalIds s3 = usedInternalIds st →
              (r = Ok true ∨ ∃ m, r = Throw m) ∧
              (searchTerm st = EmptyString ∨ displayable (displayField st) (data s3) →
               r = Ok true) ∧
              data s3 = updateForest o (mergeUpdate u) (data st) ∧
              findNode o (data s3) = Some (mergeUpdate u n) ∧
              oid (mergeUpdate u n) = oid n ∧
              kids (mergeUpdate u n) = kids n ∧
              kpos (mergeUpdate u n) = kpos n ∧
              iid (mergeUpdate u n) = iid n ∧
              (∀ k, k ≠ "_internalId"%string →
                    prop_get k (props (mergeUpdate u n)) =
                    match assigned k (props u) with
                    | Some v => v
                    | None => prop_get k (props n)
                    end) ∧
              oids (data s3) = oids (data st) ∧
              (∀ o', o' ≠ o →
                     own <$> findNode o' (data s3) = own <$> findNode o' (data st)) ∧
              nodeDataMap s3 = nodeDataMap st ∧ internalIdMap s3 = internalIdMap st ∧
              nodeToInternalIdMap s3 = nodeToInternalIdMap st ∧
              usedInternalIds s3 = usedInternalIds st).
    { intros r s3 Hd Hok Hr (M1 & M2 & M3 & M4).
      split; [done|]. split; [done|]. split; [done|]. rewrite Hd. split.
      { rewrite findNode_updateForest by done. by rewrite Hfind. }
      split; [done|]. split; [done|]. split; [done|]. split.
      { unfold iid, mergeUpdate. cbn [props]. apply prop_get_set_eq. }
      split.
      { intros k Hk. unfold mergeUpdate. cbn [props].
        rewrite prop_get_set_ne by done. apply prop_get_assign. }
      split; [by apply oids_updateForest|]. split; [|done].
      intros o' Hne. by apply findNode_updateForest_other. }
    destruct Hre as [Hre|[m Hre]]; rewrite Hre.
    + eexists _, _. split; [reflexivity|].
      match goal with |- context [updateTreeContent ?s] =>
        destruct (Hfinal (updateTreeContent s)) as (F1 & F2); [left; apply updateTreeContent_paging|]
      end.
      apply Hrest; auto.
    + eexists _, _. split; [reflexivity|].
      destruct (Hfinal s2) as (F1 & F2); [by right|].
      apply Hrest; eauto.
      intros Hcond. exfalso.
      assert (Hret : (refilter s1).1 = Ok tt).
      { apply refilter_returns. rewrite D3, D2, D1. rewrite F1 in Hcond. exact Hcond. }
      by rewrite Hre in Hret.
  - intros j u' Hnone. unfold updateNodeByInternalId.
    destruct (negb (truthy j)); [done|]. destruct u'; [|done]. by rewrite Hnone.
Qed.

(** * No operation removes an issued id *)

Lemma keeps_issued_ret {A} (a : A) : keeps_issued (ret a).
Proof. by intros st. Qed.

Lemma keeps_issued_gets {A} (f : TreeView → A) : keeps_issued (gets f).
Proof. by intros st. Qed.

Lemma keeps_issued_bind {A B} (m : M A) (k : A → M B) :
  keeps_issued m → (∀ a, keeps_issued (k a)) → keeps_issued (bind m k).
Proof.
  intros Hm Hk st. unfold bind. specialize (Hm st).
  destruct (m st) as [[a|msg] st1]; cbn [snd] in *; [|done].
  etrans; [exact Hm|apply Hk].
Qed.

Lemma keeps_issued_modify (f : TreeView → TreeView) :
  (∀ st, usedInternalIds st ⊆ usedInternalIds (f st)) → keeps_issued (modify f).
Proof. intros Hf st. apply Hf. Qed.

Lemma used_paging st st' : paging_only st st' → usedInternalIds st ⊆ usedInternalIds st'.
Proof.
  intros H. apply paging_only_fields in H
    as (_ & _ & _ & _ & _ & _ & _ & _ & _ & _ & _ & _ & -> & _). done.
Qed.

Lemma used_updateTreeContent st :
  usedInternalIds st ⊆ usedInternalIds (updateTreeContent st).
Proof. apply used_paging, updateTreeContent_paging. Qed.

Lemma keeps_issued_refilter : keeps_issued refilter.
Proof.
  intros st. destruct (view_only_fields _ _ (refilter_view st))
    as (_ & _ & _ & _ & _ & _ & _ & _ & -> & _). done.
Qed.

Lemma keeps_issued_generateInternalId : keeps_issued generateInternalId.
Proof. intros st. by destruct (generateInternalId_spec st) as [[? _] _]. Qed.

Lemma keeps_issued_buildNodeDataMap : keeps_issued buildNodeDataMap.
Proof.
  intros st. destruct (buildNodeDataMap_Build st) as (l' & st1 & HB & ->).
  apply Build_weak in HB as [_ [Hm _]].
  replace (usedInternalIds (set_data l' st1)) with (usedInternalIds st1) by (by destruct st1).
  etrans; [|exact Hm]. by destruct st.
Qed.

Lemma keeps_issued_spreadCopy d : keeps_issued (spreadCopy d).
Proof. intros st. unfold spreadCopy. cbn [snd]. by destruct st. Qed.

#[local] Opaque generateInternalId refilter buildNodeDataMap spreadCopy.

Create HintDb issued.
#[local] Hint Resolve keeps_issued_ret keeps_issued_gets keeps_issued_refilter
  keeps_issued_generateInternalId keeps_issued_buildNodeDataMap keeps_issued_spreadCopy
  used_updateTreeContent : issued.

Ltac issued_step :=
  match goal with
  | |- keeps_issued (bind _ _) => apply keeps_issued_bind; [|intros ?]
  | |- keeps_issued (modify _) => apply keeps_issued_modify; intros ?
  | |- keeps_issued _ => solve [eauto with issued]
  | |- usedInternalIds _ ⊆ usedInternalIds (updateTreeContent _) =>
      apply used_updateTreeContent
  end.

Lemma keeps_issued_refreshTree : keeps_issued refreshTree.
Proof. unfold refreshTree. repeat issued_step. Qed.
#[local] Hint Resolve keeps_issued_refreshTree : issued.

Lemma used_setter st :
  (∀ v, usedInternalIds (set_data v st) = usedInternalIds st) ∧
  (∀ v, usedInternalIds (set_currentPage v st) = usedInternalIds st) ∧
  (∀ v, usedInternalIds (set_pageSize v st) = usedInternalIds st) ∧
  (∀ v, usedInternalIds (set_selectedNodes v st) = usedInternalIds st) ∧
  (∀ v, usedInternalIds (set_expandedNodes v st) = usedInternalIds st) ∧
  (∀ v, usedInternalIds (set_searchTerm v st) = usedInternalIds st) ∧
  (∀ v, usedInternalIds (set_filteredData v st) = usedInternalIds st).
Proof. by destruct st. Qed.

Ltac used_setters :=
  repeat match goal with
         | |- context [usedInternalIds (set_data ?v ?s)] =>
             rewrite (proj1 (used_setter s) v)
         | |- context [usedInternalIds (set_currentPage ?v ?s)] =>
             rewrite (proj1 (proj2 (used_setter s)) v)
         | |- context [usedInternalIds (set_pageSize ?v ?s)] =>
             rewrite (proj1 (proj2 (proj2 (used_setter s))) v)
         | |- context [usedInternalIds (set_selectedNodes ?v ?s)] =>
             rewrite (proj1 (proj2 (proj2 (proj2 (used_setter s)))) v)
         | |- context [usedInternalIds (set_expandedNodes ?v ?s)] =>
             rewrite (proj1 (proj2 (proj2 (proj2 (proj2 (used_setter s))))) v)
         | |- context [usedInternalIds (set_searchTerm ?v ?s)] =>
             rewrite (proj1 (proj2 (proj2 (proj2 (proj2 (proj2 (used_setter s)))))) v)
         | |- context [usedInternalIds (set_filteredData ?v ?s)] =>
             rewrite (proj2 (proj2 (proj2 (proj2 (proj2 (proj2 (used_setter s)))))) v)
         | |- context [usedInternalIds (updateTreeContent ?s)] =>
             etrans; [|apply used_updateTreeContent]
         end.

Lemma keeps_issued_handleSearch t : keeps_issued (handleSearch t).
Proof.
  unfold handleSearch. repeat issued_step; used_setters; try done.
  destruct (searchTerm _); [done|]. unfold autoExpandSearchResults. by used_setters.
Qed.

Lemma keeps_issued_updateData d : keeps_issued (updateData d).
Proof. unfold updateData. repeat issued_step; used_setters; done. Qed.

Lemma keeps_issued_importTreeData d : keeps_issued (importTreeData d).
Proof.
  intros st. unfold importTreeData. destruct d as [d|]; [|done].
  pose proof (keeps_issued_updateData d st) as H.
  by destruct (updateData d st) as [[?|?] ?].
Qed.

Lemma used_cleanup n st :
  usedInternalIds st ⊆ usedInternalIds (cleanupNodeMappings n st).
Proof.
  destruct (cleaned_fields _ _ _ (cleanupNodeMappings_cleaned n st))
    as (_ & _ & _ & _ & _ & _ & -> & _). done.
Qed.

Lemma keeps_issued_removeNode i : keeps_issued (removeNodeByInternalId i).
Proof.
  intros st. unfold removeNodeByInternalId.
  destruct (negb (truthy i)); [done|].
  destruct (internalIdMap st !! i); [|done].
  destruct (removeFromNodes _ _) as [[d x]|]; [|done].
  revert st. change (keeps_issued
    (modify (set_data d) ;;; modify (cleanupNodeMappings x) ;;; refilter ;;;
     buildNodeDataMap ;;; modify updateTreeContent ;;; ret true)).
  repeat issued_step; used_setters; try done. apply used_cleanup.
Qed.

Lemma keeps_issued_updateNode i u : keeps_issued (updateNodeByInternalId i u).
Proof.
  intros st. unfold updateNodeByInternalId.
  destruct (negb (truthy i)); [done|]. destruct u as [u|]; [|done].
  destruct (internalIdMap st !! i) as [o|]; [|done].
  revert st. change (keeps_issued
    (modify (fun s => set_data (updateForest o (mergeUpdate u) (data s)) s) ;;;
     refilter ;;; modify updateTreeContent ;;; ret true)).
  repeat issued_step; used_setters; done.
Qed.

Lemma keeps_issued_addNode p d pos : keeps_issued (addNode p d pos).
Proof.
  unfold addNode. destruct d as [d|]; [|apply keeps_issued_ret].
  repeat issued_step.
  destruct (is_root_sentinel p).
  - repeat issued_step. unfold addToRootLevel. by used_setters.
  - repeat issued_step. destruct a1; repeat issued_step. by used_setters.
Qed.

Lemma keeps_issued_addNodeAtPosition d r pos : keeps_issued (addNodeAtPosition d r pos).
Proof.
  unfold addNodeAtPosition. destruct d as [d|]; [|apply keeps_issued_ret].
  repeat issued_step. destruct a; repeat issued_step.
  destruct (findParentNode _ _); by used_setters.
Qed.

Lemma used_selection n k st :
  usedInternalIds (selectNodeAndChildren n k st) = usedInternalIds st ∧
  usedInternalIds (deselectNodeAndChildren n k st) = usedInternalIds st.
Proof.
  rewrite selectNodeAndChildren_any, deselectNodeAndChildren_any. by destruct st.
Qed.

(** Whatever the public operation, the ids issued stay issued. *)
Lemma run_op_keeps_issued o st : usedInternalIds st ⊆ usedInternalIds (run_op o st).
Proof.
  destruct o; cbn [run_op].
  - apply keeps_issued_handleSearch.
  - unfold setPageSize. destruct (_ <=? _); [done|]. by used_setters.
  - unfold goToPage. destruct (_ || _); [done|]. by used_setters.
  - unfold nextPage. destruct (_ <? _); [|done]. by used_setters.
  - unfold previousPage. destruct (_ >? _); [|done]. by used_setters.
  - unfold firstPage. by used_setters.
  - unfold lastPage. by used_setters.
  - unfold toggleNode. destruct (bool_decide _); by used_setters.
  - unfold selectNode. destruct (multiSelect st); by used_setters.
  - unfold toggleSelection. destruct (bool_decide _).
    + by rewrite (proj2 (used_selection n nodeId st)).
    + by rewrite (proj1 (used_selection n nodeId st)).
  - unfold clearSelection. by used_setters.
  - unfold expandAllNodes.
    pose proof (used_paging _ _ (getPaginatedData_paging st)) as Hp.
    destruct (getPaginatedData st) as [page st1]. cbn [snd] in Hp. by used_setters.
  - unfold collapseAllNodes. by used_setters.
  - apply keeps_issued_generateInternalId.
  - apply keeps_issued_buildNodeDataMap.
  - apply keeps_issued_refreshTree.
  - apply keeps_issued_updateData.
  - apply keeps_issued_importTreeData.
  - apply keeps_issued_removeNode.
  - apply keeps_issued_updateNode.
  - apply keeps_issued_addNode.
  - apply keeps_issued_addNodeAtPosition.
Qed.

Lemma run_ops_keeps_issued os st : usedInternalIds st ⊆ usedInternalIds (run_ops os st).
Proof.
  revert st. induction os as [|o os IH]; intros st; [done|].
  cbn [run_ops fold_left]. etrans; [apply (run_op_keeps_issued o)|apply IH].
Qed.

(** An id once issued is never returned by the allocator again. *)
Lemma issued_never_again os st id :
  id ∈ usedInternalIds st →
  ∀ id' st', generateInternalId (run_ops os st) = (Ok id', st') → id' ≠ id.
Proof.
  intros Hin id' st' Hg.
  pose proof (generateInternalId_spec (run_ops os st)) as (_ & _ & _ & _ & H).
  rewrite Hg in H. cbn [fst] in H. destruct H as (Hfresh & _).
  intros ->. apply Hfresh. by apply run_ops_keeps_issued.
Qed.

#[local] Transparent generateInternalId refilter buildNodeDataMap spreadCopy.

(** * Insertion *)

Lemma insertByPosition_own nn pos l :
  map own (forestNodes (insertByPosition nn pos l)) ≡ₚ
  map own (subtree nn) ++ map own (forestNodes l).
Proof.
  unfold insertByPosition. destruct (String.eqb pos "first").
  - by rewrite forestNodes_cons', map_app.
  - rewrite forestNodes_app, map_app. cbn [forestNodes flat_map].
    rewrite app_nil_r. apply Permutation_app_comm.
Qed.

Lemma insertByPosition_skeleton nn pos l :
  map skeleton (insertByPosition nn pos l) =
  insertByPosition (skeleton nn) pos (map skeleton l).
Proof.
  unfold insertByPosition. destruct (String.eqb pos "first"); [done|].
  by rewrite map_app.
Qed.

Lemma addToParentNode_own nn pos n :
  own (addToParentNode nn pos n) = own n ∧
  map own (descendants (addToParentNode nn pos n)) ≡ₚ
  map own (subtree nn) ++ map own (descendants n).
Proof.
  destruct n as [o ps [l|] kp]; unfold addToParentNode; cbn [kids oid props kpos].
  - split; [done|]. rewrite !descendants_Some. apply insertByPosition_own.
  - split; [done|]. rewrite descendants_Some.
    etrans; [apply insertByPosition_own|]. done.
Qed.

Section addChild.
Variables (p : nat) (nn : node) (pos : string).
Let X := map own (subtree nn).
Let f := addToParentNode nn pos.

#[local] Arguments addChild_post : simpl never.

Lemma addChild_list l :
  Forall (fun c => NoDup (oids [c]) → addChild_post p nn [c] [updateNode p f c]) l →
  NoDup (oids l) → addChild_post p nn l (updateForest p f l).
Proof.
  induction 1 as [|c l Hc _ IH]; intros Hnd.
  - exists []. split; [by left|done].
  - rewrite oids_cons in Hnd. 
    assert (Hndc : NoDup (oids [c])).
    { rewrite oids_cons. change (oids []) with (@nil nat). rewrite app_nil_r.
      rewrite app_comm_cons in Hnd. by apply NoDup_app in Hnd as [? _]. }
    assert (Hndl : NoDup (oids l)).
    { rewrite app_comm_cons in Hnd. by apply NoDup_app in Hnd as (_ & _ & ?). }
    assert (Hdis : ∀ x, x ∈ oids [c] → x ∉ oids l).
    { rewrite oids_cons. change (oids []) with (@nil nat). rewrite app_nil_r.
      rewrite app_comm_cons in Hnd. by apply NoDup_app in Hnd as (_ & ? & _). }
    destruct (Hc Hndc) as (Ec & Hec & Hpc). destruct (IH Hndl) as (El & Hel & Hpl).
    assert (Hall : map own (forestNodes (updateForest p f (c :: l))) ≡ₚ
                   (Ec ++ El) ++ map own (forestNodes (c :: l))).
    { unfold updateForest in *. cbn [map].
      rewrite (forestNodes_cons' (updateNode p f c)), (forestNodes_cons' c), !map_app.
      cbn [forestNodes flat_map] in Hpc. rewrite !app_nil_r in Hpc.
      rewrite Hpc, Hpl. rewrite <- !app_assoc. apply Permutation_app_head.
      rewrite !app_assoc. apply Permutation_app_tail, Permutation_app_comm. }
    exists (Ec ++ El). split; [|exact Hall].
    assert (Hc_in : p ∈ oids [c] → p ∈ oids (c :: l)).
    { rewrite !oids_cons. change (oids []) with (@nil nat). rewrite app_nil_r.
      intros [->|?]%elem_of_cons; [by left|right]. apply elem_of_app. by left. }
    assert (Hl_in : p ∈ oids l → p ∈ oids (c :: l)).
    { rewrite oids_cons. intros ?. right. apply elem_of_app. by right. }
    destruct Hec as [->|[-> Hin]], Hel as [->|[-> Hinl]]; cbn [app].
    + by left.
    + right. auto.
    + right. rewrite app_nil_r. auto.
    + exfalso. by apply (Hdis p).
Qed.

Lemma addChild_node c : NoDup (oids [c]) → addChild_post p nn [c] [updateNode p f c].
Proof.
  induction c as [o ps kp|o ps l kp IH] using node_ind'; intros Hnd.
  - rewrite updateNode_unfold. cbn [oid kids props kpos].
    destruct (bool_decide (o = p)) eqn:E.
    + apply bool_decide_eq_true in E. subst o. exists X. split.
      * right. split; [done|]. rewrite oids_cons. by left.
      * cbn [forestNodes flat_map]. rewrite !app_nil_r, !subtree_own.
        destruct (addToParentNode_own nn pos (Node p ps None kp)) as [H1 H2].
        fold f X in H1, H2. rewrite H1, H2. cbn [descendants map]. rewrite app_nil_r.
        apply Permutation_cons_append.
    + exists []. split; [by left|done].
  - rewrite updateNode_unfold. cbn [oid kids props kpos].
    destruct (bool_decide (o = p)) eqn:E.
    + apply bool_decide_eq_true in E. subst o. exists X. split.
      * right. split; [done|]. rewrite oids_cons. by left.
      * cbn [forestNodes flat_map]. rewrite !app_nil_r, !subtree_own.
        destruct (addToParentNode_own nn pos (Node p ps (Some l) kp)) as [H1 H2].
        fold f X in H1, H2. rewrite H1, H2.
        apply Permutation_middle.
    + apply bool_decide_eq_false in E.
      rewrite oids_cons in Hnd. change (oids []) with (@nil nat) in Hnd.
      rewrite app_nil_r in Hnd. cbn [oid visited_kids kids] in Hnd.
      apply NoDup_cons in Hnd as [Hno Hndl].
      destruct (addChild_list l IH Hndl) as (El & Hel & Hpl).
      exists El. split.
      * destruct Hel as [->|[-> Hin]]; [by left|right]. split; [done|].
        rewrite oids_cons. right. cbn [visited_kids kids].
        apply elem_of_app. by left.
      * cbn [forestNodes flat_map]. rewrite !app_nil_r, !subtree_own.
        rewrite !descendants_Some. cbn [own oid props]. rewrite Hpl.
        apply Permutation_middle.
Qed.

Lemma updateForest_addChild l :
  NoDup (oids l) → addChild_post p nn l (updateForest p f l).
Proof.
  intros Hnd. apply addChild_list; [|done].
  apply Forall_forall. intros c _. apply addChild_node.
Qed.
End addChild.

Lemma skeleton_own_oid n : oid (skeleton n) = oid n.
Proof. by destruct n as [o ps [l|] kp]. Qed.

Lemma skeleton_oids l l' : map skeleton l' = map skeleton l → oids l' = oids l.
Proof.
  assert (H : ∀ l, oids (map skeleton l) = oids l).
  { clear. induction l as [|c l IHl]; [done|]. cbn [map].
    rewrite (oids_cons (skeleton c)), (oids_cons c), IHl, skeleton_own_oid.
    do 2 f_equal.
    clear IHl l. induction c as [o ps kp|o ps l kp IH] using node_ind'; [done|].
    cbn [skeleton visited_kids kids].
    induction IH as [|c l Hc _ IHl]; [done|]. cbn [map].
    by rewrite (oids_cons (skeleton c)), (oids_cons c), IHl, skeleton_own_oid, Hc. }
  intros E. by rewrite <- (H l'), E, H.
Qed.

Lemma findNode_absent o l : o ∉ oids l → findNode o l = None.
Proof.
  induction l as [|c l IHl]; intros Hno; [done|].
  rewrite oids_cons in Hno. rewrite findNode_cons.
  assert (Hc : findNode_node o c = None).
  { assert (Hnc : o ∉ oid c :: oids (visited_kids c)).
    { intros [->|?]%elem_of_cons; apply Hno; [by left|].
      right. apply elem_of_app. by left. }
    clear -Hnc. induction c as [o1 ps kp|o1 ps l kp IH] using node_ind'.
    - rewrite findNode_node_unfold. cbn [oid visited_kids kids].
      rewrite bool_decide_eq_false_2; [done|]. intros ->. apply Hnc. by left.
    - rewrite findNode_node_unfold. cbn [oid visited_kids kids] in *.
      rewrite bool_decide_eq_false_2 by (intros ->; apply Hnc; by left).
      assert (Hl : o ∉ oids l) by (intros ?; apply Hnc; by right).
      clear Hnc. induction IH as [|c l Hc _ IHl]; [done|].
      rewrite oids_cons in Hl. rewrite findNode_cons, Hc.
      + apply IHl. intros ?. apply Hl. right. apply elem_of_app. by right.
      + intros [->|?]%elem_of_cons; apply Hl; [by left|].
        right. apply elem_of_app. by left. }
  rewrite Hc. apply IHl. intros ?. apply Hno. right. apply elem_of_app. by right.
Qed.

Lemma removeFromNodes_findNode t l l' x :
  removeFromNodes t l = Some (l', x) → findNode t l = Some x.
Proof.
  unfold removeFromNodes. revert l l' x.
  assert (Hn : ∀ c, (∀ c' x, removeIn t c = Some (c', x) →
                        oid c ≠ t → findNode_node t c = Some x) ∧
                    (removeIn t c = None → oid c ≠ t → findNode_node t c = None)).
  { induction c as [o ps kp|o ps l kp IH] using node_ind'.
    - split; [done|]. intros _ Hne. rewrite findNode_node_unfold. cbn [oid visited_kids kids].
      by rewrite bool_decide_eq_false_2.
    - assert (Hl : (∀ l' x, removeFrom (removeIn t) t l = Some (l', x) →
                            findNode t l = Some x) ∧
                   (removeFrom (removeIn t) t l = None → findNode t l = None)).
      { induction IH as [|c l [Hc1 Hc2] _ [IH1 IH2]]; [done|].
        cbn [removeFrom]. fold (removeFrom (removeIn t) t). rewrite findNode_cons.
        destruct (bool_decide (oid c = t)) eqn:E.
        - apply bool_decide_eq_true in E. split; [|done]. intros l' x [= <- <-].
          rewrite findNode_node_unfold. by rewrite bool_decide_eq_true_2.
        - apply bool_decide_eq_false in E.
          destruct (removeIn t c) as [[c' y]|] eqn:Ec.
          + split; [|done]. intros l' x [= <- <-]. by rewrite (Hc1 c' y).
          + rewrite Hc2 by done.
            destruct (removeFrom (removeIn t) t l) as [[l'' y]|]; split; try done;
              try (intros l' x [= <- <-]; by apply (IH1 l'' y));
              try (intros _; by apply IH2). }
      destruct Hl as [Hl1 Hl2]. cbn [removeIn].
      destruct (removeFrom (removeIn t) t l) as [[l' y]|] eqn:El; split; try done.
      + intros c' x [= <- <-] Hne. rewrite findNode_node_unfold. cbn [oid visited_kids kids].
        rewrite bool_decide_eq_false_2 by done. by apply (Hl1 l' y).
      + intros _ Hne. rewrite findNode_node_unfold. cbn [oid visited_kids kids].
        rewrite bool_decide_eq_false_2 by done. by apply Hl2. }
  revert Hn.
  clear. intros Hn. induction l as [|c l IHl]; intros l' x; [done|].
  cbn [removeFrom]. fold (removeFrom (removeIn t) t). rewrite findNode_cons.
  destruct (bool_decide (oid c = t)) eqn:E.
  - apply bool_decide_eq_true in E. intros [= <- <-].
    rewrite findNode_node_unfold. by rewrite bool_decide_eq_true_2.
  - apply bool_decide_eq_false in E. destruct (Hn c) as [Hc1 Hc2].
    destruct (removeIn t c) as [[c' y]|] eqn:Ec.
    + intros [= <- <-]. by rewrite (Hc1 c' y).
    + rewrite Hc2 by done.
      destruct (removeFrom (removeIn t) t l) as [[l'' y]|] eqn:El; [|done].
      intros [= <- <-]. by apply (IHl l'' y).
Qed.

Lemma generateInternalId_loop_counter r st :
  (internalIdCounter st < internalIdCounter (generateInternalId_loop r st).2)%nat.
Proof.
  revert st. induction r as [|r IH]; intros st; cbn [generateInternalId_loop];
    unfold draw_candidate.
  - cbn [snd]. destruct st; tv_fields. lia.
  - destruct (bool_decide _); cbn [snd].
    + etrans; [|apply IH]. destruct st; tv_fields. lia.
    + destruct st; tv_fields. lia.
Qed.

Lemma generateInternalId_counter st :
  (internalIdCounter st < internalIdCounter (generateInternalId st).2)%nat.
Proof. unfold generateInternalId. apply generateInternalId_loop_counter. Qed.

Lemma iids_app l1 l2 : iids (l1 ++ l2) = iids l1 ++ iids l2.
Proof. unfold iids. by rewrite forestNodes_app, map_app. Qed.

Lemma fold_idIndex_other (L : list node) (m : gmap value nat) (i : value) :
  i ∉ map iid L →
  fold_left (fun m n => <[iid n := oid n]> m) L m !! i = m !! i.
Proof.
  revert m. induction L as [|n L IH]; intros m Hni; [done|].
  cbn [fold_left]. rewrite IH.
  - apply lookup_insert_ne. intros E. apply Hni. rewrite <- E. by left.
  - intros ?. apply Hni. by right.
Qed.

Lemma idIndex_lookup l m n :
  NoDup (iids l) → n ∈ forestNodes l → idIndex l m !! iid n = Some (oid n).
Proof.
  unfold idIndex, iids. revert m.
  induction (forestNodes l) as [|c L IH]; intros m Hnd Hin; [by apply elem_of_nil in Hin|].
  cbn [map] in Hnd. apply NoDup_cons in Hnd as [Hc HL]. cbn [fold_left].
  destruct (decide (iid n ∈ map iid L)) as [Hyes|Hno].
  - apply elem_of_cons in Hin as [->|Hin]; [done|]. by apply IH.
  - apply elem_of_cons in Hin as [->|Hin].
    + rewrite fold_idIndex_other by done. apply lookup_insert_eq.
    + exfalso. apply Hno. apply list_elem_of_fmap. eauto.
Qed.

Lemma refreshTree_data st :
  ∃ l', (refreshTree st).2 = (refreshTree st).2 ∧
        data (refreshTree st).2 = l' ∧ map skeleton l' = map skeleton (data st).
Proof.
  unfold refreshTree, bind, modify.
  destruct (refilter_result st) as (s1 & Hv & Hre).
  destruct (view_only_fields _ _ Hv) as (V1 & _).
  destruct Hre as [Hre|[m Hre]]; rewrite Hre.
  - destruct (buildNodeDataMap_Build s1) as (l' & s2 & HB & Hs2).
    apply Build_weak in HB as [Hsk _].
    destruct (buildNodeDataMap s1) as [[[]|m] s3]; cbn [snd] in *; subst s3.
    + eexists. split; [done|]. split; [done|].
      destruct (paging_only_fields _ _ (updateTreeContent_paging (set_data l' s2)))
        as (-> & _).
      replace (data (set_data l' s2)) with l' by (by destruct s2).
      etrans; [exact Hsk|]. f_equal. exact V1.
    + eexists. split; [done|]. split; [done|].
      replace (data (set_data l' s2)) with l' by (by destruct s2).
      etrans; [exact Hsk|]. f_equal. exact V1.
  - exists (data s1). split; [done|]. split; [done|]. f_equal. exact V1.
Qed.


(** * Inversion of the operations that returned *)

Lemma refreshTree_inv s s' :
  refreshTree s = (Ok tt, s') →
  ∃ sD sE l',
    view_only s sD ∧
    Build (set_nodeToInternalIdMap ∅ (set_internalIdMap ∅ (set_nodeDataMap ∅ sD)))
          (data s) l' (Ok tt) sE ∧
    paging_only (set_data l' sE) s'.
Proof.
  unfold refreshTree, bind, modify.
  destruct (refilter_result s) as (sD & Hv & Hre).
  destruct (view_only_fields _ _ Hv) as (V1 & _).
  destruct Hre as [Hre|[m Hre]]; rewrite Hre; [|discriminate].
  destruct (buildNodeDataMap_Build sD) as (l' & sE & HB & HsE). rewrite V1 in HB.
  destruct (buildNodeDataMap sD) as [[[]|m] s3]; cbn [fst snd] in *; [|discriminate].
  subst s3. intros [= <-]. exists sD, sE, l'. split; [done|]. split; [done|].
  apply updateTreeContent_paging.
Qed.

Lemma addNode_inv p d pos st0 id st1 :
  addNode p (Some d) pos st0 = (Ok (Some id), st1) →
  ∃ sB Fins,
    generateInternalId (set_nextOid (S (nextOid st0)) st0) = (Ok id, sB) ∧
    (Fins = insertByPosition
              (Node (nextOid st0) (prop_set "_internalId" id (props d)) (kids d) (kpos d))
              pos (data st0) ∨
     ∃ q, Fins = updateForest q
                   (addToParentNode
                      (Node (nextOid st0) (prop_set "_internalId" id (props d))
                            (kids d) (kpos d)) pos)
                   (data st0)) ∧
    refreshTree (set_data Fins sB) = (Ok tt, st1).
Proof.
  unfold addNode, bind, spreadCopy, modify, ret, gets.
  set (sA := set_nextOid (S (nextOid st0)) st0).
  pose proof (generateInternalId_spec sA) as (R & _).
  destruct (generateInternalId sA) as [[i|m] sB] eqn:Eg; cbn [snd] in R; [|discriminate].
  destruct (registry_only_fields _ _ R) as (F1 & _).
  assert (A1 : data sA = data st0) by (by destruct st0).
  change (with_internalId i (Node (nextOid st0) (props d) (kids d) (kpos d)))
    with (Node (nextOid st0) (prop_set "_internalId" i (props d)) (kids d) (kpos d)).
  destruct (is_root_sentinel p).
  - unfold addToRootLevel. rewrite F1, A1.
    destruct (refreshTree _) as [[[]|m] s'] eqn:Er; [|discriminate].
    intros [= <- <-]. eexists _, _. split; [done|]. split; [by left|done].
  - cbn beta iota. destruct (internalIdMap sB !! p) as [q|]; [|discriminate].
    rewrite F1, A1.
    destruct (refreshTree _) as [[[]|m] s'] eqn:Er; [|discriminate].
    intros [= <- <-]. eexists _, _. split; [done|]. split; [right; eauto|done].
Qed.

Lemma removeNode_inv id st1 st2 :
  removeNodeByInternalId id st1 = (Ok true, st2) →
  truthy id = true ∧
  ∃ t R N sG,
    internalIdMap st1 !! id = Some t ∧
    removeFromNodes t (data st1) = Some (R, N) ∧
    cleaned (cascadeKeys N) (set_data R st1) sG ∧
    refreshTree sG = (Ok tt, st2).
Proof.
  unfold removeNodeByInternalId.
  destruct (truthy id); cbn [negb]; [|discriminate].
  destruct (internalIdMap st1 !! id) as [t|] eqn:Et; [|discriminate].
  destruct (removeFromNodes t (data st1)) as [[R N]|] eqn:Er; [|discriminate].
  intros H. split; [done|]. exists t, R, N, (cleanupNodeMappings N (set_data R st1)).
  split; [done|]. split; [done|]. split; [apply cleanupNodeMappings_cleaned|].
  revert H. unfold refreshTree, bind, modify, ret.
  destruct (refilter _) as [[[]|m] s1]; [|discriminate].
  destruct (buildNodeDataMap s1) as [[[]|m] s2]; [|discriminate].
  by intros [= <-].
Qed.

Lemma idIndex_source l i o :
  idIndex l ∅ !! i = Some o → ∃ n, n ∈ forestNodes l ∧ iid n = i ∧ oid n = o.
Proof.
  unfold idIndex.
  assert (H : ∀ (L : list node) (m : gmap value nat),
             fold_left (fun m n => <[iid n := oid n]> m) L m !! i = Some o →
             m !! i = Some o ∨ ∃ n, n ∈ L ∧ iid n = i ∧ oid n = o).
  { induction L as [|c L IH]; intros m Hm; [by left|]. cbn [fold_left] in Hm.
    apply IH in Hm as [Hm|(n & Hn & ?)].
    - destruct (decide (iid c = i)) as [E|E].
      + rewrite <- E, lookup_insert_eq in Hm. injection Hm as <-.
        right. exists c. split; [by left|done].
      + rewrite lookup_insert_ne in Hm by done. by left.
    - right. exists n. split; [by right|done]. }
  intros Hl. apply H in Hl as [Hl|?]; [by rewrite lookup_empty in Hl|done].
Qed.

Lemma own_inj_oid (L : list node) n m :
  NoDup (map oid L) → n ∈ L → m ∈ L → oid n = oid m → own n = own m.
Proof.
  induction L as [|c L IH]; intros Hnd Hn Hm E; [by apply elem_of_nil in Hn|].
  cbn [map] in Hnd. apply NoDup_cons in Hnd as [Hc HL].
  apply elem_of_cons in Hn as [->|Hn], Hm as [->|Hm]; try done.
  - exfalso. apply Hc. rewrite E. apply list_elem_of_fmap. eauto.
  - exfalso. apply Hc. rewrite <- E. apply list_elem_of_fmap. eauto.
  - by apply IH.
Qed.

Lemma iid_own n m : own n = own m → iid n = iid m.
Proof. unfold own, iid. by intros [= _ ->]. Qed.

Lemma oid_own n m : own n = own m → oid n = oid m.
Proof. unfold own. by intros [= -> _]. Qed.

Lemma own_elem_of (n : node) (L : list node) :
  own n ∈ map own L → ∃ m, m ∈ L ∧ own m = own n.
Proof. intros (m & E & Hm)%list_elem_of_fmap. eauto. Qed.

Lemma descendants_kids n : descendants n = forestNodes (visited_kids n).
Proof. by destruct n as [o ps [l|] kp]. Qed.

(** The state in which [addNode] leaves the registry when it returns. *)
Lemma addNode_settles (st0 st1 : TreeView) (p : value) (d : node) (pos : string) (id : value) :
  NoDup (oids (data st0) ++ oids (visited_kids d)) →
  (∀ o, o ∈ oids (data st0) ++ oids (visited_kids d) → (o < nextOid st0)%nat) →
  (∀ n, n ∈ forestNodes (data st0) ++ forestNodes (visited_kids d) →
        truthy (iid n) = true → iid n ∈ usedInternalIds st0) →
  addNode p (Some d) pos st0 = (Ok (Some id), st1) →
  Forall (fun i => truthy i = true) (iids (data st1)) ∧
  NoDup (iids (data st1)) ∧
  (∀ i, i ∈ iids (data st1) → i ∈ usedInternalIds st1) ∧
  NoDup (oids (data st1)) ∧
  internalIdMap st1 = idIndex (data st1) ∅ ∧
  (∀ o', internalIdMap st1 !! id = Some o' → o' = nextOid st0) ∧
  truthy id = true ∧ id ∈ usedInternalIds st1.
Proof.
  intros Htree Hfresh Hused Hadd.
  destruct (addNode_inv _ _ _ _ _ _ Hadd) as (sB & Fins & Hgen & Hcase & Href).
  set (nn := Node (nextOid st0) (prop_set "_internalId" id (props d)) (kids d) (kpos d)) in *.
  set (sA := set_nextOid (S (nextOid st0)) st0) in *.
  pose proof (generateInternalId_spec sA) as (RB & _ & _ & _ & G4).
  rewrite Hgen in RB, G4. cbn [fst snd] in *. destruct G4 as (Hnew & Htr & Hu).
  assert (A8 : usedInternalIds sA = usedInternalIds st0) by (by destruct st0).
  rewrite A8 in Hnew, Hu.
  destruct (refreshTree_inv _ _ Href) as (sD & sE & l' & Hv & HB & Hp).
  replace (data (set_data Fins sB)) with Fins in HB by (by destruct sB).
  set (s0 := set_nodeToInternalIdMap ∅ (set_internalIdMap ∅ (set_nodeDataMap ∅ sD))) in *.
  destruct (view_only_fields _ _ Hv) as (_ & _ & _ & _ & _ & _ & _ & _ & V9 & _).
  assert (Hs0 : internalIdMap s0 = ∅ ∧ usedInternalIds s0 = {[id]} ∪ usedInternalIds st0).
  { split; [by destruct sD|].
    transitivity (usedInternalIds sD); [by destruct sD|]. rewrite V9, <- Hu. by destruct sB. }
  destruct Hs0 as [Hm0 Hu0].
  destruct (Build_strong _ _ _ _ HB) as (B1 & _ & _ & B4 & B5 & _ & B7 & _).
  { rewrite Hm0. set_solver. }
  destruct (Build_weak _ _ _ _ _ HB) as [Hsk [Hmono _]].
  destruct (paging_only_fields _ _ Hp)
    as (P1 & _ & _ & _ & _ & _ & _ & _ & _ & _ & P11 & _ & P13 & _).
  assert (Hd1 : data st1 = l') by (rewrite P1; by destruct sE).
  assert (Hi1 : internalIdMap st1 = internalIdMap sE) by (rewrite P11; by destruct sE).
  assert (Hu1 : usedInternalIds st1 = usedInternalIds sE) by (rewrite P13; by destruct sE).
  rewrite Hd1, Hi1, Hu1, B1, Hm0.
  (* the nodes of the forest after the insertion *)
  assert (Hnd0 : NoDup (oids (data st0))) by (by apply NoDup_app in Htree as [? _]).
  assert (Hown : ∃ E, (E = [] ∨ E = map own (subtree nn)) ∧
                      map own (forestNodes Fins) ≡ₚ E ++ map own (forestNodes (data st0))).
  { destruct Hcase as [->|[q ->]].
    - exists (map own (subtree nn)). split; [by right|apply insertByPosition_own].
    - destruct (updateForest_addChild q nn pos (data st0) Hnd0) as (E & HE & HP).
      exists E. split; [|done]. destruct HE as [->|[-> _]]; auto. }
  destruct Hown as (E & HE & Hperm).
  assert (Hsub : map oid (subtree nn) = nextOid st0 :: oids (visited_kids d)).
  { unfold subtree. cbn [map]. f_equal. by rewrite descendants_kids. }
  assert (HndF : NoDup (oids Fins)).
  { rewrite oids_own, Hperm, map_app, <- oids_own.
    destruct HE as [->| ->]; [done|]. rewrite map_map.
    change (map (fun x => (own x).1) (subtree nn)) with (map oid (subtree nn)).
    rewrite Hsub. cbn [app]. constructor.
    - intros Hin. assert (nextOid st0 < nextOid st0)%nat; [|lia].
      apply Hfresh. apply elem_of_app in Hin as [?|?]; apply elem_of_app; auto.
    - by rewrite Permutation_app_comm. }
  split; [done|]. split; [done|]. split; [done|].
  split; [by rewrite (skeleton_oids _ _ Hsk)|]. split; [done|].
  split; [|split; [done|apply Hmono; rewrite Hu0; set_solver]].
  rewrite <- Hm0, <- B1.
  apply (Build_target _ _ _ _ _ id (nextOid st0) HB).
  - rewrite Hu0. set_solver.
  - intros n Hn Hid.
    assert (Hin : own n ∈ map own (forestNodes Fins)) by (apply list_elem_of_fmap; eauto).
    rewrite Hperm in Hin. apply elem_of_app in Hin as [Hin|Hin].
    + destruct HE as [->| ->]; [by apply elem_of_nil in Hin|].
      apply own_elem_of in Hin as (m & Hm & Hmo).
      unfold subtree in Hm. apply elem_of_cons in Hm as [->|Hm].
      * by rewrite <- (oid_own _ _ Hmo).
      * exfalso. apply Hnew. rewrite <- Hid, <- (iid_own _ _ Hmo).
        rewrite descendants_kids in Hm. apply Hused.
        -- apply elem_of_app. by right.
        -- by rewrite (iid_own _ _ Hmo), Hid.
    + apply own_elem_of in Hin as (m & Hm & Hmo).
      exfalso. apply Hnew. rewrite <- Hid, <- (iid_own _ _ Hmo). apply Hused.
      * apply elem_of_app. by left.
      * by rewrite (iid_own _ _ Hmo), Hid.
  - rewrite Hm0. intros o'. by rewrite lookup_empty.
Qed.

Lemma subtree_self n : n ∈ subtree n.
Proof. unfold subtree. apply elem_of_cons. by left. Qed.


(** * The statements on concrete trees *)

(** A decidable proposition, decided by evaluation. *)
Ltac by_decide := apply (bool_decide_unpack _); vm_compute; exact I.

(** The search for [app] in the tree of fruits; the lower-case form of
    [École]. *)
Lemma filterNodes_retains_matches_and_ancestors_witness :
  displayable (displayField fruitTree) (data fruitTree) ∧
  toLowerCase "app" = "app"%string ∧
  toLowerCase (String (ascii_of_nat 201) "Cole") = String (ascii_of_nat 233) "cole" ∧
  (filterNodes (data fruitTree) "app" fruitTree).1 =
    Ok [Node 101 (props fruitsNode)
             (Some [Node 100 (props (stamped 1 "Apple" "2")) (Some []) 2]) 1] ∧
  ∃ rs st',
    filterNodes (data fruitTree) "app" fruitTree = (Ok rs, st') ∧
    data st' = data fruitTree ∧
    Forall2 (FilteredCopy (displayField fruitTree) "app")
            (List.filter (retained (displayField fruitTree) "app") (data fruitTree)) rs ∧
    map props rs `sublist_of` map props (data fruitTree).
Proof.
  assert (H : displayable (displayField fruitTree) (data fruitTree))
    by (unfold displayable; by_decide).
  assert (L : toLowerCase "app" = "app"%string) by reflexivity.
  split; [exact H|]. split; [exact L|]. split; [vm_compute; reflexivity|].
  split; [vm_compute; reflexivity|].
  exact (proj1 (filterNodes_retains_matches_and_ancestors
                  fruitTree (data fruitTree) "app" H L)).
Defined.

(** C1, as the specification states it, fails for a term with a capital
    letter: [Apple] contains [APP], letter case ignored, so that [Fruits] is
    to be retained with [Apple] below it; but [filterNodes], called with
    [APP], looks for [APP] in [apple] and returns the empty forest. *)
Lemma filterNodes_compares_with_the_term_as_given :
  displayable (displayField fruitTree) (data fruitTree) ∧
  toLowerCase "Apple" = (toLowerCase "APP" +:+ "le")%string ∧
  matchesTerm (displayField fruitTree) "APP" (stamped 1 "Apple" "2") = true ∧
  List.filter (retained (displayField fruitTree) "APP") (data fruitTree) = [fruitsNode] ∧
  (filterNodes (data fruitTree) "APP" fruitTree).1 = Ok [] ∧
  ¬ (∃ rs st',
       filterNodes (data fruitTree) "APP" fruitTree = (Ok rs, st') ∧
       Forall2 (FilteredCopy (displayField fruitTree) "APP")
               (List.filter (retained (displayField fruitTree) "APP") (data fruitTree)) rs).
Proof.
  assert (E : (filterNodes (data fruitTree) "APP" fruitTree).1 = Ok [])
    by (vm_compute; reflexivity).
  assert (R : List.filter (retained (displayField fruitTree) "APP") (data fruitTree) =
              [fruitsNode]) by (vm_compute; reflexivity).
  split; [unfold displayable; by_decide|].
  split; [vm_compute; reflexivity|]. split; [vm_compute; reflexivity|].
  split; [exact R|]. split; [exact E|].
  intros (rs & st' & Hf & Hc). rewrite Hf in E. cbn [fst] in E.
  injection E as ->. rewrite R in Hc. inversion Hc.
Qed.

(** Five items, two to the page: three pages, and page 3 can be gone to. *)
Lemma pagination_totalPages_clamp_and_slice_witness :
  0 < pageSize fiveTree ∧
  totalPages (calculatePagination fiveTree) = 3 ∧
  1 ≤ currentPage (run_op (OpGoToPage 3) fiveTree) ≤ totalPages (run_op (OpGoToPage 3) fiveTree) ∧
  paging_ok (getPaginatedData fiveTree).2.
Proof.
  assert (H : 0 < pageSize fiveTree) by (vm_compute; reflexivity).
  destruct (pagination_totalPages_clamp_and_slice fiveTree H) as ((T & _) & Nav & Pg).
  split; [exact H|]. split; [|split].
  - rewrite T. vm_compute. reflexivity.
  - refine (proj1 (proj2 (Nav (OpGoToPage 3) eq_refl _))).
    vm_compute. split; discriminate.
  - refine (proj1 (Pg _)). vm_compute. reflexivity.
Defined.

(** [fiveTree] is a state of the example of the paginator. *)
Lemma fiveTree_five_items :
  five_items fiveTree (stamped 1 "i1" "1") (stamped 2 "i2" "2") (stamped 3 "i3" "3")
             (stamped 4 "i4" "4") (stamped 5 "i5" "5").
Proof.
  unfold five_items, paging_ok.
  repeat split; try (vm_compute; reflexivity); vm_compute; discriminate.
Defined.

(** The example of the paginator on [fiveTree]. *)
Lemma goToPage_out_of_range_is_rejected_witness :
  five_items fiveTree (stamped 1 "i1" "1") (stamped 2 "i2" "2") (stamped 3 "i3" "3")
             (stamped 4 "i4" "4") (stamped 5 "i5" "5") ∧
  (getPaginatedData fiveTree).1 = [stamped 1 "i1" "1"; stamped 2 "i2" "2"] ∧
  goToPage 10 fiveTree = fiveTree ∧
  currentPage (goToPage 3 fiveTree) = 3 ∧
  paginatedData (goToPage 3 fiveTree) = [stamped 5 "i5" "5"] ∧
  currentPage (lastPage fiveTree) = 3 ∧
  paginatedData (lastPage fiveTree) = [stamped 5 "i5" "5"].
Proof.
  split; [exact fiveTree_five_items|].
  exact (goToPage_out_of_range_is_rejected fiveTree _ _ _ _ _ fiveTree_five_items).
Defined.

(** C5, as the specification states it, fails: with page size 2, five root
    items and page 1 current, [goToPage(10)] leaves page 1 with items 1 and
    2 in place; it does not move to page 3. *)
Lemma goToPage_10_does_not_clamp :
  five_items fiveTree (stamped 1 "i1" "1") (stamped 2 "i2" "2") (stamped 3 "i3" "3")
             (stamped 4 "i4" "4") (stamped 5 "i5" "5") ∧
  currentPage (goToPage 10 fiveTree) = 1 ∧
  paginatedData (goToPage 10 fiveTree) = [stamped 1 "i1" "1"; stamped 2 "i2" "2"] ∧
  ¬ (currentPage (goToPage 10 fiveTree) = 3 ∧
     paginatedData (goToPage 10 fiveTree) = [stamped 5 "i5" "5"]).
Proof.
  split; [exact fiveTree_five_items|].
  split; [vm_compute; reflexivity|]. split; [vm_compute; reflexivity|].
  intros [H _]. vm_compute in H. discriminate H.
Qed.


(** [Apple] is selected alone, then [Fruits] is toggled twice. *)
Lemma cascade_selects_node_and_descendants_witness :
  stamped 1 "Apple" "2" ∈ descendants fruitsNode ∧
  (nodeKey fruitsNode ∉
     selectedNodes (selectNodeAndChildren (stamped 1 "Apple" "2")
                      (nodeKey (stamped 1 "Apple" "2")) fruitTree)) ∧
  selectedNodes
    (toggleSelection (nodeKey fruitsNode) fruitsNode
       (selectNodeAndChildren (stamped 1 "Apple" "2")
          (nodeKey (stamped 1 "Apple" "2")) fruitTree)) =
  selectedNodes fruitTree ∪ cascadeKeys fruitsNode ∧
  selectedNodes
    (toggleSelection (nodeKey fruitsNode) fruitsNode
       (toggleSelection (nodeKey fruitsNode) fruitsNode
          (selectNodeAndChildren (stamped 1 "Apple" "2")
             (nodeKey (stamped 1 "Apple" "2")) fruitTree))) =
  selectedNodes fruitTree ∖ cascadeKeys fruitsNode.
Proof.
  assert (H1 : stamped 1 "Apple" "2" ∈ descendants fruitsNode)
    by (apply list_elem_of_In; vm_compute; left; reflexivity).
  assert (H2 : nodeKey fruitsNode ∉
    selectedNodes (selectNodeAndChildren (stamped 1 "Apple" "2")
                     (nodeKey (stamped 1 "Apple" "2")) fruitTree)) by by_decide.
  split; [exact H1|]. split; [exact H2|].
  exact (proj2 (proj2 (proj2 (cascade_selects_node_and_descendants fruitsNode fruitTree)))
           (stamped 1 "Apple" "2") H1 H2).
Defined.


(** [Apple] is renamed by an update that also holds children and an
    internal id; an update under an unknown id fails. *)
Lemma update_keeps_children_and_internal_id_witness :
  truthy appleId = true ∧
  internalIdMap fruitTree !! appleId = Some 1%nat ∧
  findNode 1 (data fruitTree) = Some (stamped 1 "Apple" "2") ∧
  updateNodeByInternalId appleId (Some appleUpdate) fruitTree =
    (Ok true, (updateNodeByInternalId appleId (Some appleUpdate) fruitTree).2) ∧
  findNode 1 (data (updateNodeByInternalId appleId (Some appleUpdate) fruitTree).2) =
    Some (stamped 1 "Apricot" "2") ∧
  updateNodeByInternalId (VStr "missing") (Some appleUpdate) fruitTree = (Ok false, fruitTree).
Proof.
  assert (H1 : truthy appleId = true) by reflexivity.
  assert (H2 : internalIdMap fruitTree !! appleId = Some 1%nat) by (vm_compute; reflexivity).
  assert (H3 : findNode 1 (data fruitTree) = Some (stamped 1 "Apple" "2"))
    by (vm_compute; reflexivity).
  destruct (update_keeps_children_and_internal_id fruitTree appleId appleUpdate
              (stamped 1 "Apple" "2") 1 H1 H2 H3)
    as ((r & st' & E & _ & Hok & _ & Hf & _) & Hmiss).
  split; [exact H1|]. split; [exact H2|]. split; [exact H3|].
  rewrite E. cbn [snd]. split; [|split].
  - f_equal. apply Hok. left. vm_compute. reflexivity.
  - rewrite Hf. vm_compute. reflexivity.
  - apply Hmiss. vm_compute. reflexivity.
Defined.

(** The derived key of [{name: "A"}], whatever object holds it. *)
Lemma derived_key_is_prefix_of_serialisation_witness :
  truthy (prop_get "id" (props (leaf 0 "A"))) = false ∧
  (∃ s rest,
      generateNodeId (leaf 0 "A") = VStr ("node_" +:+ s) ∧
      nodeKey (leaf 0 "A") = VStr ("node_" +:+ s) ∧
      strip_non_alnum (JSON_stringify (leaf 0 "A")) = s +:+ rest ∧
      (String.length s ≤ 10)%nat ∧
      ((String.length s < 10)%nat → rest = EmptyString) ∧
      all_chars is_alnum s = true) ∧
  generateNodeId (leaf 9 "A") = generateNodeId (leaf 0 "A").
Proof.
  assert (H : truthy (prop_get "id" (props (leaf 0 "A"))) = false) by reflexivity.
  destruct (derived_key_is_prefix_of_serialisation (leaf 0 "A") H) as [K S].
  split; [exact H|]. split; [exact K|].
  apply S; reflexivity.
Defined.

(** C8.  The derived key of a node without [id] is not a function of its
    own fields: the key is derived from the serialisation of the whole
    node, so that the node [{name: "A"}] has one key before the rebuild of
    the registry stamps its internal id on it and another one afterwards,
    and a third one with an empty [children] array, its own fields the same
    in all three. *)
Lemma derived_key_depends_on_children_and_internal_id :
  truthy (prop_get "id" (props (leaf 0 "A"))) = false ∧
  ownFields (Node 0 [("name"%string, VStr "A")] (Some []) 1) = ownFields (leaf 0 "A") ∧
  ownFields (stamped 0 "A" "1") = ownFields (leaf 0 "A") ∧
  data rawTree = [leaf 0 "A"] ∧
  data (buildNodeDataMap rawTree).2 = [stamped 0 "A" "1"] ∧
  generateNodeId (leaf 0 "A") = VStr "node_nameA" ∧
  generateNodeId (Node 0 [("name"%string, VStr "A")] (Some []) 1) = VStr "node_nameAchild" ∧
  generateNodeId (stamped 0 "A" "1") = VStr "node_nameAinter" ∧
  generateNodeId (Node 0 [("name"%string, VStr "A")] (Some []) 1) ≠ generateNodeId (leaf 0 "A") ∧
  generateNodeId (stamped 0 "A" "1") ≠ generateNodeId (leaf 0 "A").
Proof. vm_compute. repeat split; discriminate. Qed.

(** C6.  The registry rebuild run on the forest [[{name: "A"}]] and then run
    again: the two id indexes are the same after both runs, but the
    natural-key index is not, the second run files the node under another
    derived key than the first. *)
Theorem buildNodeDataMap_twice_changes_natural_keys :
  (buildNodeDataMap rawTree).1 = Ok tt ∧
  (buildNodeDataMap (buildNodeDataMap rawTree).2).1 = Ok tt ∧
  data (buildNodeDataMap rawTree).2 = [stamped 0 "A" "1"] ∧
  data (buildNodeDataMap (buildNodeDataMap rawTree).2).2 = [stamped 0 "A" "1"] ∧
  internalIdMap (buildNodeDataMap (buildNodeDataMap rawTree).2).2 =
    internalIdMap (buildNodeDataMap rawTree).2 ∧
  nodeToInternalIdMap (buildNodeDataMap (buildNodeDataMap rawTree).2).2 =
    nodeToInternalIdMap (buildNodeDataMap rawTree).2 ∧
  nodeDataMap (buildNodeDataMap rawTree).2 = {[VStr "node_nameA" := 0%nat]} ∧
  nodeDataMap (buildNodeDataMap (buildNodeDataMap rawTree).2).2 =
    {[VStr "node_nameAinter" := 0%nat]} ∧
  nodeDataMap (buildNodeDataMap (buildNodeDataMap rawTree).2).2 ≠
    nodeDataMap (buildNodeDataMap rawTree).2.
Proof.
  repeat split; try (vm_compute; reflexivity).
  intros H. apply (f_equal (fun m => m !! VStr "node_nameA")) in H.
  vm_compute in H. discriminate H.
Qed.




(** * Further properties of the code *)

(** * Pages of the paginator *)

Lemma slice_take_drop {A} (l : list A) (start size : Z) :
  0 ≤ start → 0 < size →
  slice l start (start + size) = take (Z.to_nat size) (drop (Z.to_nat start) l).
Proof.
  intros Hs Hz. apply list_eq. intros i.
  rewrite slice_lookup by done.
  destruct (Z.of_nat i <? size) eqn:E.
  - apply Z.ltb_lt in E. rewrite lookup_take_lt by lia. by rewrite lookup_drop.
  - apply Z.ltb_ge in E. symmetry. apply lookup_take_ge. lia.
Qed.

(** The page shown after the current page was set to [p], a page that
    exists. *)
Lemma show_page st p :
  showPagination st = true → 0 < pageSize st → paging_ok st →
  1 ≤ p ≤ totalPages st →
  updateTreeContent (set_currentPage p st) =
  set_paginatedData
    (take (Z.to_nat (pageSize st)) (drop (Z.to_nat ((p - 1) * pageSize st)) (filteredView st)))
    (set_currentPage p st).
Proof.
  intros Hshow Hps [Ht _] Hp.
  assert (Hsh : showPagination (set_currentPage p st) = true) by (by destruct st).
  rewrite (updateTreeContent_shown _ Hsh), (getPaginatedData_shown _ Hsh).
  cbn [snd]. rewrite calculatePagination_eq.
  replace (filteredView (set_currentPage p st)) with (filteredView st) by (by destruct st).
  replace (pageSize (set_currentPage p st)) with (pageSize st) by (by destruct st).
  rewrite <- Ht.
  replace (currentPage (set_currentPage p st)) with p by (by destruct st).
  replace (Z.max 1 (Z.min p (totalPages st))) with p by lia.
  replace (currentPage (set_currentPage p (set_totalPages (totalPages st) (set_currentPage p st))))
    with p by (by destruct st).
  rewrite slice_take_drop by nia.
  by destruct st.
Qed.

Lemma pages_concat {A} (s T : nat) (l : list A) :
  (0 < s)%nat → (length l ≤ T * s)%nat →
  concat (map (fun k => take s (drop (k * s) l)) (seq 0 T)) = l.
Proof.
  intros Hs. revert l. induction T as [|T IH]; intros l Hl.
  - destruct l as [|a l]; [reflexivity|]. exfalso. cbn [length] in Hl. lia.
  - cbn [seq map concat]. rewrite <- seq_shift, map_map.
    rewrite (map_ext _ (fun k => take s (drop (k * s) (drop s l)))).
    + rewrite IH by (rewrite length_drop; lia). apply take_drop.
    + intros k. by rewrite drop_drop.
Qed.

Lemma goToPage_page st p :
  showPagination st = true → 0 < pageSize st → paging_ok st →
  1 ≤ p ≤ totalPages st →
  goToPage p st =
  set_paginatedData
    (take (Z.to_nat (pageSize st)) (drop (Z.to_nat ((p - 1) * pageSize st)) (filteredView st)))
    (set_currentPage p st).
Proof.
  intros Hshow Hps Hok Hp. unfold goToPage.
  replace ((p <? 1) || (p >? totalPages st)) with false by (symmetry; apply orb_false_iff; lia).
  by apply show_page.
Qed.

Lemma paging_ok_count st :
  0 < pageSize st → paging_ok st →
  Z.of_nat (length (filteredView st)) ≤ totalPages st * pageSize st ∧
  (0 < Z.of_nat (length (filteredView st)) ∨ 1 < totalPages st →
   (totalPages st - 1) * pageSize st < Z.of_nat (length (filteredView st))).
Proof.
  intros Hps [Ht _].
  pose proof (Math_ceil_div_spec (Z.of_nat (length (filteredView st))) _ Hps) as [H1 H2].
  split; [nia|]. intros H. nia.
Qed.

(** X1.  With pagination shown and a positive page size, the pages that
    [goToPage] shows for the page numbers 1 to [totalPages], put one after
    the other, are the top-level sequence of the filtered forest: every
    item is on exactly one page, in order.  Every page but the last holds
    [pageSize] items, and no page is empty unless the filtered forest
    is. *)
Theorem pages_partition_filtered_forest (st : TreeView) :
  showPagination st = true → 0 < pageSize st → paging_ok st →
  concat (map (fun k => paginatedData (goToPage (Z.of_nat k) st))
              (seq 1 (Z.to_nat (totalPages st)))) = filteredView st ∧
  (∀ p, 1 ≤ p < totalPages st →
        Z.of_nat (length (paginatedData (goToPage p st))) = pageSize st) ∧
  (∀ p, 1 ≤ p ≤ totalPages st → filteredView st ≠ [] →
        paginatedData (goToPage p st) ≠ []).
Proof.
  intros Hshow Hps Hok.
  pose proof (paging_ok_count st Hps Hok) as [Hc1 Hc2].
  pose proof (paging_ok_bounds st Hok) as Hb.
  assert (Hpage : ∀ p, 1 ≤ p ≤ totalPages st →
            paginatedData (goToPage p st) =
            take (Z.to_nat (pageSize st))
                 (drop (Z.to_nat ((p - 1) * pageSize st)) (filteredView st))).
  { intros p Hp. rewrite (goToPage_page st p) by done. by destruct st. }
  split; [|split].
  - rewrite <- seq_shift, map_map.
    etransitivity;
      [|apply (pages_concat (Z.to_nat (pageSize st)) (Z.to_nat (totalPages st))); nia].
    f_equal. apply map_ext_in. intros k Hk%in_seq.
    rewrite Hpage by lia. do 2 f_equal. nia.
  - intros p Hp. rewrite Hpage by lia.
    rewrite length_take, length_drop. nia.
  - intros p Hp Hne. rewrite Hpage by lia.
    assert (0 < length (filteredView st))%nat by (destruct (filteredView st); [done|simpl; lia]).
    intros Hnil%(f_equal length). rewrite length_take, length_drop in Hnil.
    cbn [length] in Hnil. nia.
Qed.

(** X2.  [nextPage] on the last page and [previousPage] on page 1 change
    nothing.  On any other page [nextPage] moves one page on and shows the
    [pageSize] items that follow, and [previousPage] after it is back on
    the page it started from, with the same items. *)
Theorem nextPage_previousPage_inverse (st : TreeView) :
  showPagination st = true → 0 < pageSize st → paging_ok st →
  (currentPage st = totalPages st → nextPage st = st) ∧
  (currentPage st = 1 → previousPage st = st) ∧
  (currentPage st < totalPages st →
   currentPage (nextPage st) = currentPage st + 1 ∧
   paginatedData (nextPage st) =
     take (Z.to_nat (pageSize st))
          (drop (Z.to_nat (currentPage st * pageSize st)) (filteredView st)) ∧
   currentPage (previousPage (nextPage st)) = currentPage st ∧
   paginatedData (previousPage (nextPage st)) = (getPaginatedData st).1).
Proof.
  intros Hshow Hps Hok. pose proof (paging_ok_bounds st Hok) as Hb.
  split; [|split].
  - intros E. unfold nextPage. by rewrite E, Z.ltb_irrefl.
  - intros E. unfold previousPage. by rewrite E.
  - intros Hlt.
    assert (Hn : nextPage st = goToPage (currentPage st + 1) st).
    { unfold nextPage, goToPage.
      replace (currentPage st <? totalPages st) with true by (symmetry; lia).
      by replace ((currentPage st + 1 <? 1) || (currentPage st + 1 >? totalPages st))
        with false by (symmetry; apply orb_false_iff; lia). }
    rewrite Hn, (goToPage_page st (currentPage st + 1)) by (done || lia).
    set (pg := take _ _).
    set (st1 := set_paginatedData pg (set_currentPage (currentPage st + 1) st)).
    assert (F : showPagination st1 = true ∧ pageSize st1 = pageSize st ∧
                totalPages st1 = totalPages st ∧ filteredView st1 = filteredView st ∧
                currentPage st1 = currentPage st + 1 ∧ paginatedData st1 = pg)
      by (unfold st1, filteredView; destruct st; tv_fields; done).
    destruct F as (F1 & F2 & F3 & F4 & F5 & F6).
    assert (Hok1 : paging_ok st1).
    { destruct Hok as [Ht _]. split; [by rewrite F3, F4, F2|]. rewrite F5, F3. lia. }
    assert (Hp : previousPage st1 = goToPage (currentPage st) st1).
    { unfold previousPage, goToPage. rewrite F5, F3.
      replace (currentPage st + 1 >? 1) with true by (symmetry; lia).
      replace (currentPage st + 1 - 1) with (currentPage st) by lia.
      by replace ((currentPage st <? 1) || (currentPage st >? totalPages st))
        with false by (symmetry; apply orb_false_iff; lia). }
    split; [done|]. split.
    { rewrite F6. unfold pg. do 3 f_equal. lia. }
    rewrite Hp, (goToPage_page st1 (currentPage st)) by (done || rewrite ?F2, ?F3; lia).
    rewrite F2, F4. split; [by destruct st1|].
    rewrite (getPaginatedData_shown _ Hshow). cbn [fst].
    rewrite (calculatePagination_idem _ Hok), slice_take_drop by nia.
    by destruct st1.
Qed.

(** X3.  [setPageSize] rejects a size that is not positive and changes
    nothing.  With a positive size and pagination shown it sets the size,
    goes back to page 1, shows the first [newPageSize] items of the filtered
    forest and recomputes the number of pages. *)
Theorem setPageSize_resets_to_first_page (st : TreeView) (newPageSize : Z) :
  (newPageSize ≤ 0 → setPageSize newPageSize st = st) ∧
  (0 < newPageSize → showPagination st = true →
   pageSize (setPageSize newPageSize st) = newPageSize ∧
   currentPage (setPageSize newPageSize st) = 1 ∧
   totalPages (setPageSize newPageSize st) =
     Z.max 1 (Math_ceil_div (Z.of_nat (length (filteredView st))) newPageSize) ∧
   paginatedData (setPageSize newPageSize st) =
     take (Z.to_nat newPageSize) (filteredView st) ∧
   filteredView (setPageSize newPageSize st) = filteredView st).
Proof.
  split.
  - intros H. unfold setPageSize. by replace (newPageSize <=? 0) with true by (symmetry; lia).
  - intros Hn Hshow. unfold setPageSize.
    replace (newPageSize <=? 0) with false by (symmetry; lia).
    set (s := set_currentPage 1 (set_pageSize newPageSize st)).
    assert (F : showPagination s = true ∧ pageSize s = newPageSize ∧
                filteredView s = filteredView st ∧ currentPage s = 1)
      by (unfold s, filteredView; destruct st; tv_fields; done).
    destruct F as (F1 & F2 & F3 & F4).
    rewrite (updateTreeContent_shown _ F1), (getPaginatedData_shown _ F1). cbn [snd].
    rewrite calculatePagination_eq, F2, F3, F4.
    set (T := Z.max 1 (Math_ceil_div (Z.of_nat (length (filteredView st))) newPageSize)).
    replace (Z.max 1 (Z.min 1 T)) with 1 by lia.
    replace (currentPage (set_currentPage 1 (set_totalPages T s))) with 1 by (by destruct s).
    rewrite (slice_take_drop _ ((1 - 1) * newPageSize)) by lia.
    change (Z.to_nat ((1 - 1) * newPageSize)) with 0%nat. rewrite drop_0.
    unfold filteredView in *. destruct s. tv_fields. by subst.
Qed.

(** X4.  With pagination shown, a positive page size and the page count
    as a recomputation leaves it, the item range that [getCurrentPageInfo]
    reports agrees with the page shown: the items [startItem] to [endItem]
    are as many as the page holds, and they lie within 1 and [totalItems];
    for an empty filtered forest the range reported is 1 to 0. *)
Theorem getCurrentPageInfo_range (st : TreeView) :
  showPagination st = true → 0 < pageSize st → paging_ok st →
  let info := getCurrentPageInfo st in
  info_endItem info - info_startItem info + 1 =
    Z.of_nat (length (getPaginatedData st).1) ∧
  (filteredView st = [] → info_startItem info = 1 ∧ info_endItem info = 0) ∧
  (filteredView st ≠ [] →
   1 ≤ info_startItem info ≤ info_endItem info ∧
   info_endItem info ≤ info_totalItems info).
Proof.
  intros Hshow Hps Hok info.
  pose proof (paging_ok_count st Hps Hok) as [Hc1 Hc2].
  pose proof (paging_ok_bounds st Hok) as Hb.
  unfold info, getCurrentPageInfo. cbn [info_startItem info_endItem info_totalItems].
  rewrite (getPaginatedData_shown _ Hshow). cbn [fst].
  rewrite (calculatePagination_idem _ Hok), slice_take_drop by nia.
  rewrite length_take, length_drop.
  split; [|split].
  - destruct (decide (length (filteredView st) = 0%nat)) as [E|E].
    + rewrite E in *. nia.
    + nia.
  - intros E. rewrite E in *. cbn [length] in *. nia.
  - intros E. assert (0 < length (filteredView st))%nat
      by (destruct (filteredView st); [done|simpl; lia]). nia.
Qed.

(** * Expansion markers *)

Lemma collectNodeIds_node_subtree n : collectNodeIds_node n = map nodeKey (subtree n).
Proof.
  induction n as [o ps kp|o ps l kp IH] using node_ind'; [done|].
  unfold subtree. cbn [collectNodeIds_node descendants map]. f_equal.
  induction IH as [|c l Hc _ IHl]; [done|].
  cbn [flat_map]. rewrite map_app, Hc, IHl. done.
Qed.

Lemma collectNodeIds_forest l : collectNodeIds l = map nodeKey (forestNodes l).
Proof.
  unfold collectNodeIds, forestNodes. induction l as [|c l IH]; [done|].
  cbn [flat_map]. by rewrite map_app, collectNodeIds_node_subtree, IH.
Qed.

Lemma fold_add_keys (l : list value) (X : gset value) :
  fold_left (fun s id => {[id]} ∪ s) l X = list_to_set l ∪ X.
Proof.
  revert X. induction l as [|k l IH]; intros X; cbn [fold_left list_to_set].
  - by rewrite (left_id_L ∅ (∪)).
  - rewrite IH. clear. set_solver.
Qed.

Lemma autoExpandSearchResults_eq st :
  autoExpandSearchResults st =
  set_expandedNodes (keysOf (filteredView st) ∪ expandedNodes st) st.
Proof.
  unfold autoExpandSearchResults. by rewrite fold_add_keys, collectNodeIds_forest.
Qed.

Lemma handleSearch_unfold term st :
  handleSearch term st =
  match refilter (set_searchTerm (toLowerCase term) st) with
  | (Ok _, s2) =>
      (Ok tt,
       updateTreeContent
         (match toLowerCase term with
          | EmptyString => set_currentPage 1 s2
          | _ => autoExpandSearchResults (set_currentPage 1 s2)
          end))
  | (Throw m, s2) => (Throw m, s2)
  end.
Proof.
  unfold handleSearch, bind, modify.
  destruct (refilter _) as [[[]|m] s2] eqn:E; [|done].
  f_equal.
  pose proof (refilter_view (set_searchTerm (toLowerCase term) st)) as V.
  rewrite E in V. cbn [snd] in V.
  destruct (view_only_fields _ _ V) as (_ & _ & V3 & _).
  replace (searchTerm (set_currentPage 1 s2)) with (toLowerCase term); [done|].
  transitivity (searchTerm s2); [|by destruct s2].
  rewrite V3. by destruct st.
Qed.

Lemma updateTreeContent_first_page st :
  currentPage st = 1 → currentPage (updateTreeContent st) = 1.
Proof.
  intros E. destruct (showPagination st) eqn:Hshow.
  - rewrite (updateTreeContent_shown _ Hshow), (getPaginatedData_shown _ Hshow).
    cbn [snd]. rewrite calculatePagination_eq, E.
    set (T := Z.max 1 (Math_ceil_div _ _)).
    transitivity (Z.max 1 (Z.min 1 T)); [by destruct st|lia].
  - by rewrite (updateTreeContent_hidden _ Hshow).
Qed.

(** X5.  A search leaves the forest, the selection, the three indexes and
    the allocator as they are and only adds expansion markers; the term it
    keeps is the lower-cased one.  When it returns, which it does on a
    forest whose nodes all have a display string, page 1 is current and,
    for a term that is not empty, every node of the filtered forest is
    marked expanded; with the empty term no marker is added. *)
Theorem handleSearch_frame (term : string) (st : TreeView) :
  let r := handleSearch term st in
  (data r.2 = data st ∧ selectedNodes r.2 = selectedNodes st ∧
   nodeDataMap r.2 = nodeDataMap st ∧ internalIdMap r.2 = internalIdMap st ∧
   nodeToInternalIdMap r.2 = nodeToInternalIdMap st ∧
   usedInternalIds r.2 = usedInternalIds st ∧
   internalIdCounter r.2 = internalIdCounter st ∧
   pageSize r.2 = pageSize st ∧
   searchTerm r.2 = toLowerCase term ∧
   expandedNodes st ⊆ expandedNodes r.2) ∧
  (r.1 = Ok tt →
   currentPage r.2 = 1 ∧
   expandedNodes r.2 =
     match toLowerCase term with
     | EmptyString => expandedNodes st
     | _ => keysOf (filteredView r.2) ∪ expandedNodes st
     end) ∧
  (displayable (displayField st) (data st) → r.1 = Ok tt).
Proof.
  intros r. unfold r. rewrite handleSearch_unfold.
  set (st1 := set_searchTerm (toLowerCase term) st).
  assert (F1 : data st1 = data st ∧ selectedNodes st1 = selectedNodes st ∧
               nodeDataMap st1 = nodeDataMap st ∧ internalIdMap st1 = internalIdMap st ∧
               nodeToInternalIdMap st1 = nodeToInternalIdMap st ∧
               usedInternalIds st1 = usedInternalIds st ∧
               internalIdCounter st1 = internalIdCounter st ∧
               pageSize st1 = pageSize st ∧ searchTerm st1 = toLowerCase term ∧
               expandedNodes st1 = expandedNodes st ∧ displayField st1 = displayField st)
    by (unfold st1; by destruct st).
  destruct F1 as (A1 & A2 & A3 & A4 & A5 & A6 & A7 & A8 & A9 & A10 & A11).
  pose proof (refilter_view st1) as V.
  pose proof (refilter_returns st1) as Hret.
  destruct (refilter st1) as [[[]|m] s2] eqn:E; cbn [fst snd] in *.
  - destruct (view_only_fields _ _ V)
      as (V1 & _ & V3 & V4 & V5 & V6 & V7 & V8 & V9 & V10 & _ & V12 & _).
    set (s3 := set_currentPage 1 s2).
    assert (F3 : data s3 = data s2 ∧ selectedNodes s3 = selectedNodes s2 ∧
                 nodeDataMap s3 = nodeDataMap s2 ∧ internalIdMap s3 = internalIdMap s2 ∧
                 nodeToInternalIdMap s3 = nodeToInternalIdMap s2 ∧
                 usedInternalIds s3 = usedInternalIds s2 ∧
                 internalIdCounter s3 = internalIdCounter s2 ∧
                 pageSize s3 = pageSize s2 ∧ searchTerm s3 = searchTerm s2 ∧
                 expandedNodes s3 = expandedNodes s2 ∧ currentPage s3 = 1 ∧
                 filteredView s3 = filteredView s2)
      by (unfold s3, filteredView; by destruct s2).
    destruct F3 as (B1 & B2 & B3 & B4 & B5 & B6 & B7 & B8 & B9 & B10 & B11 & B12).
    set (s4 := match toLowerCase term with
               | EmptyString => s3
               | _ => autoExpandSearchResults s3
               end).
    assert (F4 : data s4 = data s3 ∧ selectedNodes s4 = selectedNodes s3 ∧
                 nodeDataMap s4 = nodeDataMap s3 ∧ internalIdMap s4 = internalIdMap s3 ∧
                 nodeToInternalIdMap s4 = nodeToInternalIdMap s3 ∧
                 usedInternalIds s4 = usedInternalIds s3 ∧
                 internalIdCounter s4 = internalIdCounter s3 ∧
                 pageSize s4 = pageSize s3 ∧ searchTerm s4 = searchTerm s3 ∧
                 currentPage s4 = currentPage s3 ∧ filteredView s4 = filteredView s3 ∧
                 expandedNodes s4 =
                   match toLowerCase term with
                   | EmptyString => expandedNodes s3
                   | _ => keysOf (filteredView s3) ∪ expandedNodes s3
                   end).
    { unfold s4. destruct (toLowerCase term); [done|].
      rewrite autoExpandSearchResults_eq. unfold filteredView. by destruct s3. }
    destruct F4 as (C1 & C2 & C3 & C4 & C5 & C6 & C7 & C8 & C9 & C10 & C11 & C12).
    destruct (paging_only_fields _ _ (updateTreeContent_paging s4))
      as (P1 & _ & _ & P4 & P5 & _ & P7 & P8 & P9 & P10 & P11 & P12 & P13 & P14 & _).
    assert (Hexp : expandedNodes (updateTreeContent s4) =
                   match toLowerCase term with
                   | EmptyString => expandedNodes st
                   | _ => keysOf (filteredView (updateTreeContent s4)) ∪ expandedNodes st
                   end).
    { rewrite P8, C12, P4, C11, B10, V5, A10. done. }
    split; [|split].
    + rewrite P1, P7, P10, P11, P12, P13, P14, P5, P9.
      rewrite C1, C2, C3, C4, C5, C6, C7, C8, C9.
      rewrite B1, B2, B3, B4, B5, B6, B7, B8, B9.
      rewrite V1, V3, V4, V6, V7, V8, V9, V10, V12.
      repeat (split; [done|]).
      rewrite Hexp. clear. destruct (toLowerCase term); set_solver.
    + intros _. split; [|done].
      apply updateTreeContent_first_page. by rewrite C10.
    + done.
  - destruct (view_only_fields _ _ V)
      as (V1 & _ & V3 & V4 & V5 & V6 & V7 & V8 & V9 & V10 & _ & V12 & _).
    split; [|split].
    + rewrite V1, V3, V4, V5, V6, V7, V8, V9, V10, V12. by rewrite A10.
    + discriminate.
    + intros Hd. apply Hret. right. by rewrite A11, A1.
Qed.

Lemma expandAllNodes_expanded st :
  expandedNodes (expandAllNodes st) = keysOf (getPaginatedData st).1 ∪ expandedNodes st ∧
  data (expandAllNodes st) = data st ∧
  filteredView (expandAllNodes st) = filteredView st ∧
  selectedNodes (expandAllNodes st) = selectedNodes st.
Proof.
  unfold expandAllNodes.
  pose proof (getPaginatedData_paging st) as G.
  destruct (getPaginatedData st) as [page st1]. cbn [fst snd] in *.
  destruct (paging_only_fields _ _ G) as (G1 & _ & _ & G4 & _ & _ & G7 & G8 & _).
  rewrite fold_add_keys, collectNodeIds_forest. fold (keysOf page).
  match goal with
  | |- expandedNodes (updateTreeContent ?s) = _ ∧ _ =>
      destruct (paging_only_fields _ _ (updateTreeContent_paging s))
        as (P1 & _ & _ & P4 & _ & _ & P7 & P8 & _)
  end.
  rewrite P1, P4, P7, P8.
  unfold filteredView in *. destruct st1, st. tv_fields. by subst.
Qed.

(** X6.  [expandAllNodes] marks as expanded every node of the page shown,
    descendants included, and no other node: nodes of other pages get no
    marker.  [collapseAllNodes] removes every marker.  Neither changes the
    forest, the filtered forest or the selection. *)
Theorem expandAllNodes_marks_current_page (st : TreeView) :
  expandedNodes (expandAllNodes st) =
    keysOf (getPaginatedData st).1 ∪ expandedNodes st ∧
  expandedNodes (collapseAllNodes st) = ∅ ∧
  data (expandAllNodes st) = data st ∧ data (collapseAllNodes st) = data st ∧
  filteredView (expandAllNodes st) = filteredView st ∧
  filteredView (collapseAllNodes st) = filteredView st ∧
  selectedNodes (expandAllNodes st) = selectedNodes st ∧
  selectedNodes (collapseAllNodes st) = selectedNodes st.
Proof.
  destruct (expandAllNodes_expanded st) as (E1 & E2 & E3 & E4).
  rewrite E1, E2, E3, E4. unfold collapseAllNodes.
  destruct (paging_only_fields _ _ (updateTreeContent_paging (set_expandedNodes ∅ st)))
    as (Q1 & _ & _ & Q4 & _ & _ & Q7 & Q8 & _).
  rewrite Q1, Q4, Q7, Q8.
  unfold filteredView. by destruct st.
Qed.

(** X7.  [toggleNode] changes the marker of the one node it is called on,
    and a second call takes the first one back. *)
Theorem toggleNode_twice (nodeId : value) (st : TreeView) :
  toggleNode nodeId (toggleNode nodeId st) = st ∧
  (nodeId ∈ expandedNodes (toggleNode nodeId st) ↔ nodeId ∉ expandedNodes st) ∧
  (∀ k, k ≠ nodeId →
        (k ∈ expandedNodes (toggleNode nodeId st) ↔ k ∈ expandedNodes st)).
Proof.
  unfold toggleNode.
  destruct (bool_decide (nodeId ∈ expandedNodes st)) eqn:E.
  - apply bool_decide_eq_true in E.
    replace (expandedNodes (set_expandedNodes (expandedNodes st ∖ {[nodeId]}) st))
      with (expandedNodes st ∖ {[nodeId]}) by (by destruct st).
    rewrite bool_decide_eq_false_2 by (clear; set_solver).
    split; [|split].
    + replace ({[nodeId]} ∪ expandedNodes st ∖ {[nodeId]}) with (expandedNodes st).
      * by destruct st.
      * apply leibniz_equiv. intros k. revert E. clear.
        destruct (decide (k = nodeId)); set_solver.
    + revert E. clear. set_solver.
    + intros k Hk. revert Hk. clear. set_solver.
  - apply bool_decide_eq_false in E.
    replace (expandedNodes (set_expandedNodes ({[nodeId]} ∪ expandedNodes st) st))
      with ({[nodeId]} ∪ expandedNodes st) by (by destruct st).
    rewrite bool_decide_eq_true_2 by (clear; set_solver).
    split; [|split].
    + replace (({[nodeId]} ∪ expandedNodes st) ∖ {[nodeId]}) with (expandedNodes st).
      * by destruct st.
      * apply leibniz_equiv. revert E. clear. set_solver.
    + revert E. clear. set_solver.
    + intros k Hk. revert Hk. clear. set_solver.
Qed.

(** * Lookups in the registry *)

Lemma findNode_node_absent o c :
  o ∉ oid c :: oids (visited_kids c) → findNode_node o c = None.
Proof.
  intros Hno. pose proof (findNode_absent o [c]) as H.
  rewrite oids_cons, findNode_cons in H. change (oids []) with (@nil nat) in H.
  rewrite app_nil_r in H. specialize (H Hno). by destruct (findNode_node o c).
Qed.

Lemma findNode_present_list l n :
  Forall (fun c => NoDup (oid c :: oids (visited_kids c)) →
                   ∀ x, x ∈ subtree c → findNode_node (oid x) c = Some x) l →
  NoDup (oids l) → n ∈ forestNodes l → findNode (oid n) l = Some n.
Proof.
  induction 1 as [|c l Hc _ IH]; intros Hnd Hin; [by apply elem_of_nil in Hin|].
  rewrite oids_cons in Hnd. rewrite forestNodes_cons' in Hin. rewrite findNode_cons.
  assert (Hndc : NoDup (oid c :: oids (visited_kids c))).
  { rewrite app_comm_cons in Hnd. by apply NoDup_app in Hnd as [? _]. }
  apply elem_of_app in Hin as [Hin|Hin].
  - by rewrite (Hc Hndc n Hin).
  - rewrite findNode_node_absent.
    + apply IH; [|done]. rewrite app_comm_cons in Hnd. by apply NoDup_app in Hnd as (_ & _ & ?).
    + rewrite app_comm_cons in Hnd. apply NoDup_app in Hnd as (_ & Hdis & _).
      intros Ho. apply (Hdis _ Ho). unfold oids. apply list_elem_of_fmap. eauto.
Qed.

Lemma findNode_node_present c :
  NoDup (oid c :: oids (visited_kids c)) →
  ∀ x, x ∈ subtree c → findNode_node (oid x) c = Some x.
Proof.
  induction c as [o ps kp|o ps l kp IH] using node_ind'; intros Hnd x Hx.
  - apply list_elem_of_singleton in Hx as ->. rewrite findNode_node_unfold.
    by rewrite bool_decide_eq_true_2.
  - unfold subtree in Hx. rewrite descendants_Some in Hx.
    cbn [oid visited_kids kids] in Hnd. apply NoDup_cons in Hnd as [Ho Hl].
    apply elem_of_cons in Hx as [->|Hx].
    + rewrite findNode_node_unfold. by rewrite bool_decide_eq_true_2.
    + rewrite findNode_node_unfold. cbn [oid visited_kids kids].
      rewrite bool_decide_eq_false_2.
      * by apply findNode_present_list.
      * intros E. apply Ho. rewrite E. unfold oids. apply list_elem_of_fmap. eauto.
Qed.

Lemma findNode_present l n :
  NoDup (oids l) → n ∈ forestNodes l → findNode (oid n) l = Some n.
Proof.
  apply findNode_present_list. apply Forall_forall. intros c _. apply findNode_node_present.
Qed.

Lemma fold_oidIndex_other (L : list node) (m : gmap nat value) (o : nat) :
  o ∉ map oid L →
  fold_left (fun m n => <[oid n := iid n]> m) L m !! o = m !! o.
Proof.
  revert m. induction L as [|n L IH]; intros m Hni; [done|].
  cbn [fold_left]. rewrite IH.
  - apply lookup_insert_ne. intros E. apply Hni. rewrite <- E. by left.
  - intros ?. apply Hni. by right.
Qed.

Lemma oidIndex_lookup l m n :
  NoDup (oids l) → n ∈ forestNodes l → oidIndex l m !! oid n = Some (iid n).
Proof.
  unfold oidIndex, oids. revert m.
  induction (forestNodes l) as [|c L IH]; intros m Hnd Hin; [by apply elem_of_nil in Hin|].
  cbn [map] in Hnd. apply NoDup_cons in Hnd as [Hc HL]. cbn [fold_left].
  apply elem_of_cons in Hin as [->|Hin].
  - rewrite fold_oidIndex_other by done. apply lookup_insert_eq.
  - by apply IH.
Qed.

Lemma buildNodeDataMap_inv st st' :
  buildNodeDataMap st = (Ok tt, st') →
  ∃ sE,
    Build (set_nodeToInternalIdMap ∅ (set_internalIdMap ∅ (set_nodeDataMap ∅ st)))
          (data st) (data st') (Ok tt) sE ∧
    st' = set_data (data st') sE.
Proof.
  intros E. destruct (buildNodeDataMap_Build st) as (l' & st1 & HB & H2).
  rewrite E in HB, H2. cbn [fst snd] in *. exists st1.
  assert (data st' = l') as -> by (rewrite H2; by destruct st1). done.
Qed.

(** X8.  When [buildNodeDataMap] returns on a forest of distinct objects,
    every node of the forest carries an internal id that is not empty, no
    two nodes carry the same one, whatever ids the nodes came with, and the
    registry resolves each id to its node and each node to its id; an id
    that the registry knows is the id of a node of the forest.  The forest
    is otherwise as it was. *)
Theorem buildNodeDataMap_registers_every_node (st st' : TreeView) :
  NoDup (oids (data st)) →
  buildNodeDataMap st = (Ok tt, st') →
  map skeleton (data st') = map skeleton (data st) ∧
  NoDup (iids (data st')) ∧
  (∀ n, n ∈ forestNodes (data st') →
        truthy (iid n) = true ∧
        iid n ∈ usedInternalIds st' ∧
        hasInternalId (iid n) st' = true ∧
        getNodeByInternalId (iid n) st' = Some n ∧
        getInternalId n st' = Some (iid n)) ∧
  (∀ i, hasInternalId i st' = true →
        ∃ n, n ∈ forestNodes (data st') ∧ iid n = i).
Proof.
  intros Hnd E. destruct (buildNodeDataMap_inv _ _ E) as (sE & HB & Hst).
  set (s0 := set_nodeToInternalIdMap ∅ (set_internalIdMap ∅ (set_nodeDataMap ∅ st))) in *.
  assert (Z0 : internalIdMap s0 = ∅ ∧ nodeToInternalIdMap s0 = ∅) by (by destruct st).
  destruct Z0 as [Z1 Z2].
  destruct (Build_strong _ _ _ _ HB) as (B1 & B2 & _ & B4 & B5 & _ & B7 & _).
  { rewrite Z1. clear. set_solver. }
  destruct (Build_weak _ _ _ _ _ HB) as [Hsk _].
  assert (M : internalIdMap st' = idIndex (data st') ∅ ∧
              nodeToInternalIdMap st' = oidIndex (data st') ∅ ∧
              usedInternalIds st' = usedInternalIds sE).
  { assert (F : internalIdMap st' = internalIdMap sE ∧
                nodeToInternalIdMap st' = nodeToInternalIdMap sE ∧
                usedInternalIds st' = usedInternalIds sE)
      by (rewrite Hst; by destruct sE).
    destruct F as (-> & -> & ->). by rewrite B1, B2, Z1, Z2. }
  destruct M as (M1 & M2 & M3).
  assert (Hnd' : NoDup (oids (data st'))) by (by rewrite (skeleton_oids _ _ Hsk)).
  split; [done|]. split; [done|]. split.
  - intros n Hn.
    assert (Hi : iid n ∈ iids (data st')) by (apply list_elem_of_fmap; eauto).
    assert (Ht : truthy (iid n) = true).
    { rewrite Forall_forall in B4. by apply B4. }
    assert (Hl : internalIdMap st' !! iid n = Some (oid n))
      by (rewrite M1; by apply idIndex_lookup).
    split; [done|]. split; [rewrite M3; by apply B7|]. split; [|split].
    + unfold hasInternalId. rewrite Hl. by apply bool_decide_eq_true_2.
    + unfold getNodeByInternalId. rewrite Ht, Hl. cbn [negb]. by apply findNode_present.
    + unfold getInternalId. rewrite M2, (oidIndex_lookup _ _ n) by done. by rewrite Ht.
  - intros i Hi. unfold hasInternalId in Hi. apply bool_decide_eq_true in Hi as [o Ho].
    rewrite M1 in Ho. apply idIndex_source in Ho as (n & Hn & Hin & _). eauto.
Qed.

(** X9.  On a forest of distinct objects, a rebuild of the registry right
    after one that returned returns too, draws nothing from the allocator
    and leaves every node with the internal id it has: the forest, the two
    id indexes, the set of issued ids and the counter are the same after
    the second run. *)
Theorem rebuild_keeps_internal_ids (st st1 : TreeView) :
  NoDup (oids (data st)) →
  buildNodeDataMap st = (Ok tt, st1) →
  ∃ st2,
    buildNodeDataMap st1 = (Ok tt, st2) ∧
    data st2 = data st1 ∧
    internalIdMap st2 = internalIdMap st1 ∧
    nodeToInternalIdMap st2 = nodeToInternalIdMap st1 ∧
    usedInternalIds st2 = usedInternalIds st1 ∧
    internalIdCounter st2 = internalIdCounter st1 ∧
    draws st2 = draws st1.
Proof.
  intros _ E. destruct (buildNodeDataMap_inv _ _ E) as (sE & HB & Hst).
  set (s0 := set_nodeToInternalIdMap ∅ (set_internalIdMap ∅ (set_nodeDataMap ∅ st))) in *.
  assert (Z0 : internalIdMap s0 = ∅ ∧ nodeToInternalIdMap s0 = ∅) by (by destruct st).
  destruct Z0 as [Z1 Z2].
  destruct (Build_strong _ _ _ _ HB) as (B1 & B2 & _ & B4 & B5 & _ & B7 & _).
  { rewrite Z1. clear. set_solver. }
  assert (M : internalIdMap st1 = idIndex (data st1) ∅ ∧
              nodeToInternalIdMap st1 = oidIndex (data st1) ∅ ∧
              usedInternalIds st1 = usedInternalIds sE).
  { assert (F : internalIdMap st1 = internalIdMap sE ∧
                nodeToInternalIdMap st1 = nodeToInternalIdMap sE ∧
                usedInternalIds st1 = usedInternalIds sE)
      by (rewrite Hst; by destruct sE).
    destruct F as (-> & -> & ->). by rewrite B1, B2, Z1, Z2. }
  destruct M as (M1 & M2 & M3).
  destruct (buildNodeDataMap_Build st1) as (l2 & sF & HB2 & H2).
  set (s1 := set_nodeToInternalIdMap ∅ (set_internalIdMap ∅ (set_nodeDataMap ∅ st1))) in *.
  assert (Z3 : internalIdMap s1 = ∅ ∧ nodeToInternalIdMap s1 = ∅ ∧
               usedInternalIds s1 = usedInternalIds st1 ∧
               internalIdCounter s1 = internalIdCounter st1 ∧ draws s1 = draws st1)
    by (by destruct st1).
  destruct Z3 as (Z3 & Z4 & Z5 & Z6 & Z7).
  destruct (Build_stable _ _ _ _ _ HB2 B4 B5) as (-> & Hr & C1 & C2 & C3).
  { intros i _. by rewrite Z3. }
  rewrite Hr in HB2. destruct (Build_maps _ _ _ _ HB2) as (D1 & D2 & _).
  exists (buildNodeDataMap st1).2. rewrite H2.
  split; [rewrite <- Hr, <- H2; by destruct (buildNodeDataMap st1)|].
  split; [by destruct sF|].
  split; [rewrite M1, <- Z3, <- D1; by destruct sF|].
  split; [rewrite M2, <- Z4, <- D2; by destruct sF|].
  split; [|split; [rewrite <- Z6, <- C1; by destruct sF|rewrite <- Z7, <- C2; by destruct sF]].
  transitivity (usedInternalIds sF); [by destruct sF|].
  rewrite C3, Z5. apply leibniz_equiv. intros i. split; [|clear; set_solver].
  intros [?|Hi%elem_of_list_to_set]%elem_of_union; [done|]. rewrite M3. by apply B7.
Qed.

(** * The allocator *)

Lemma generateInternalId_loop_format r st :
  let res := generateInternalId_loop r st in
  match res.1 with
  | Ok id =>
      id = VStr (string_of_nat (internalIdCounter res.2) +:+ "_" +:+
                 string_of_Z (Date_now st (pred (draws res.2))) +:+ "_" +:+
                 random36 st (pred (draws res.2)))
  | Throw m =>
      m = AllocationError ∧
      internalIdCounter res.2 = (internalIdCounter st + S r)%nat
  end.
Proof.
  revert st. induction r as [|r IH]; intros st; cbn [generateInternalId_loop];
    unfold draw_candidate.
  - cbn [fst snd]. split; [done|]. destruct st; tv_fields. lia.
  - set (st1 := set_draws _ _).
    assert (F : Date_now st1 = Date_now st ∧ random36 st1 = random36 st ∧
                internalIdCounter st1 = S (internalIdCounter st) ∧
                draws st1 = S (draws st)) by (by destruct st).
    destruct F as (F1 & F2 & F3 & F4).
    destruct (bool_decide _); cbn [fst snd].
    + specialize (IH st1). cbn zeta in IH.
      destruct (generateInternalId_loop r st1).1.
      * by rewrite IH, F1, F2.
      * destruct IH as [-> ->]. split; [done|]. rewrite F3. lia.
    + replace (internalIdCounter (set_usedInternalIds _ st1)) with (S (internalIdCounter st))
        by (rewrite <- F3; by destruct st1).
      replace (draws (set_usedInternalIds _ st1)) with (S (draws st))
        by (rewrite <- F4; by destruct st1).
      done.
Qed.

(** X10.  [generateInternalId] never changes the forest or the indexes and
    always advances the counter.  The id it returns was not issued before,
    is issued afterwards, and is made of the counter it stopped at, the
    clock and the random digits of its last draw; when the first candidate
    is free it is returned after one pass.  It throws only after
    [maxAttempts + 1] passes, and then issues nothing. *)
Theorem generateInternalId_issues_fresh_id (st : TreeView) :
  let res := generateInternalId st in
  (data res.2 = data st ∧ nodeDataMap res.2 = nodeDataMap st ∧
   internalIdMap res.2 = internalIdMap st ∧
   nodeToInternalIdMap res.2 = nodeToInternalIdMap st ∧
   (internalIdCounter st < internalIdCounter res.2)%nat) ∧
  match res.1 with
  | Ok id =>
      (id ∉ usedInternalIds st) ∧ truthy id = true ∧
      usedInternalIds res.2 = {[id]} ∪ usedInternalIds st ∧
      id = VStr (string_of_nat (internalIdCounter res.2) +:+ "_" +:+
                 string_of_Z (Date_now st (pred (draws res.2))) +:+ "_" +:+
                 random36 st (pred (draws res.2)))
  | Throw m =>
      m = AllocationError ∧ usedInternalIds res.2 = usedInternalIds st ∧
      internalIdCounter res.2 = (internalIdCounter st + S maxAttempts)%nat
  end ∧
  ((draw_candidate st).1 ∉ usedInternalIds st →
   res.1 = Ok (draw_candidate st).1 ∧
   internalIdCounter res.2 = S (internalIdCounter st)).
Proof.
  intros res.
  pose proof (generateInternalId_spec st) as (R & S1 & S2 & S3 & S4).
  pose proof (generateInternalId_counter st) as Hc.
  pose proof (generateInternalId_loop_format maxAttempts st) as Hf.
  destruct (registry_only_fields _ _ R) as (R1 & _).
  fold res in R1, S1, S2, S3, S4, Hc. cbn zeta in Hf.
  change (generateInternalId_loop maxAttempts st) with res in Hf.
  split; [done|]. split.
  - destruct res.1 as [id|m].
    + destruct S4 as (? & ? & ?). done.
    + destruct Hf as [? ?]. done.
  - intros Hfree. unfold res, generateInternalId, maxAttempts.
    change 10000%nat with (S 9999). cbn [generateInternalId_loop].
    unfold draw_candidate in *. cbn [fst snd] in *.
    rewrite bool_decide_eq_false_2.
    + cbn [fst snd]. split; [done|]. by destruct st.
    + intros H. apply Hfree. revert H. by destruct st.
Qed.

(** * Levels and parents *)

Lemma placed_cons lv par c l :
  placed lv par (c :: l) =
  (oid c, (lv, par)) :: placed (lv + 1) (Some (oid c)) (visited_kids c) ++ placed lv par l.
Proof. destruct c as [o ps [ks|] kp]; reflexivity. Qed.

Lemma placed_fst lv par l : map fst (placed lv par l) = oids l.
Proof.
  revert lv par.
  induction l as [|c l IHl]; intros lv par; [done|].
  rewrite placed_cons, oids_cons. cbn [map fst]. rewrite map_app, IHl. do 2 f_equal.
  clear IHl. revert lv.
  induction c as [o ps kp|o ps ks kp IH] using node_ind'; intros lv; [done|].
  cbn [visited_kids kids oid]. generalize (lv + 1). generalize (Some o).
  induction IH as [|c ks Hc _ IHks]; intros par' lv'; [done|].
  rewrite placed_cons, oids_cons. cbn [map fst]. rewrite map_app.
  f_equal. f_equal; [apply Hc|apply IHks].
Qed.

Lemma placeOf_cons t o x L :
  placeOf t ((o, x) :: L) = if bool_decide (o = t) then Some x else placeOf t L.
Proof. unfold placeOf. cbn [find fst]. by destruct (bool_decide (o = t)). Qed.

Lemma placeOf_app t A B :
  placeOf t (A ++ B) = match placeOf t A with Some x => Some x | None => placeOf t B end.
Proof.
  induction A as [|[o x] A IH]; [done|].
  rewrite <- app_comm_cons, !placeOf_cons. by destruct (bool_decide (o = t)).
Qed.

Lemma placeOf_None t L : placeOf t L = None ↔ t ∉ map fst L.
Proof.
  induction L as [|[o x] L IH]; [split; [intros _; apply not_elem_of_nil|done]|].
  rewrite placeOf_cons. cbn [map fst]. destruct (bool_decide (o = t)) eqn:E.
  - apply bool_decide_eq_true in E as ->. split; [done|]. intros H. exfalso. apply H. by left.
  - apply bool_decide_eq_false in E. rewrite IH. split.
    + intros H [?|?]%elem_of_cons; [by subst|done].
    + intros H ?. apply H. by right.
Qed.

Lemma placeOf_unique t x L :
  NoDup (map fst L) → (t, x) ∈ L → placeOf t L = Some x.
Proof.
  induction L as [|[o y] L IH]; intros Hnd Hin; [by apply elem_of_nil in Hin|].
  cbn [map fst] in Hnd. apply NoDup_cons in Hnd as [Ho HL]. rewrite placeOf_cons.
  apply elem_of_cons in Hin as [[= -> ->]|Hin].
  - by rewrite bool_decide_eq_true_2.
  - rewrite bool_decide_eq_false_2; [by apply IH|].
    intros ->. apply Ho. apply list_elem_of_fmap. by exists (t, x).
Qed.

Lemma placed_levels lv par l p :
  0 ≤ lv → p ∈ placed lv par l → 0 ≤ p.2.1.
Proof.
  intros Hlv Hp. assert (H : lv ≤ p.2.1); [|lia]. clear Hlv.
  revert lv par Hp. induction l as [|c l IHl]; intros lv par Hp; [by apply elem_of_nil in Hp|].
  rewrite placed_cons in Hp. apply elem_of_cons in Hp as [->|Hp]; [done|].
  apply elem_of_app in Hp as [Hp|Hp]; [|by eapply IHl].
  clear IHl. revert lv par Hp.
  induction c as [o ps kp|o ps ks kp IH] using node_ind'; intros lv par Hp;
    [by apply elem_of_nil in Hp|].
  cbn [visited_kids kids oid] in Hp.
  assert (G : ∀ lv' par', p ∈ placed lv' par' ks → lv' ≤ p.2.1).
  { clear Hp. induction IH as [|c ks Hc _ IHks]; intros lv' par' Hp;
      [by apply elem_of_nil in Hp|].
    rewrite placed_cons in Hp. apply elem_of_cons in Hp as [->|Hp]; [done|].
    apply elem_of_app in Hp as [Hp|Hp]; [|by eapply IHks].
    specialize (Hc _ None Hp). lia. }
  specialize (G _ _ Hp). lia.
Qed.

(** [findLevel] reads the level of the first place of the target. *)
Lemma findLevelIn_placed t l :
  Forall (fun c => ∀ lv par, 0 ≤ lv →
            findLevelUnder t c lv =
            match placeOf t (placed lv par (visited_kids c)) with
            | Some x => x.1
            | None => -1
            end) l →
  ∀ lv par, 0 ≤ lv →
    findLevelIn (fun c => findLevelUnder t c (lv + 1)) t lv l =
    match placeOf t (placed lv par l) with Some x => x.1 | None => -1 end.
Proof.
  induction 1 as [|c l Hc _ IH]; intros lv par Hlv; [done|].
  cbn [findLevelIn]. rewrite placed_cons, placeOf_cons.
  destruct (bool_decide (oid c = t)); [done|].
  rewrite placeOf_app, (Hc (lv + 1) (Some (oid c))) by lia.
  destruct (placeOf t (placed (lv + 1) (Some (oid c)) (visited_kids c))) as [x|] eqn:E.
  - assert (0 ≤ x.1).
    { unfold placeOf in E. destruct (find _ _) as [p|] eqn:Ef; [|done].
      injection E as <-. apply find_some in Ef as [Hin _].
      apply (placed_levels (lv + 1) (Some (oid c)) (visited_kids c)); [lia|].
      by apply list_elem_of_In. }
    replace (x.1 =? -1) with false by (symmetry; lia). done.
  - cbn [negb Z.eqb]. by apply IH.
Qed.

Lemma findLevelUnder_placed t c :
  ∀ lv par, 0 ≤ lv →
    findLevelUnder t c lv =
    match placeOf t (placed lv par (visited_kids c)) with
    | Some x => x.1
    | None => -1
    end.
Proof.
  induction c as [o ps kp|o ps ks kp IH] using node_ind'; intros lv par Hlv; [done|].
  cbn [findLevelUnder visited_kids kids].
  rewrite <- (findLevelIn_placed t ks IH lv par Hlv). done.
Qed.

Lemma placed_parent lv q l p :
  p ∈ placed lv (Some q) l → is_Some p.2.2.
Proof.
  revert lv q. induction l as [|c l IHl]; intros lv q Hp; [by apply elem_of_nil in Hp|].
  rewrite placed_cons in Hp. apply elem_of_cons in Hp as [->|Hp]; [by eexists|].
  apply elem_of_app in Hp as [Hp|Hp]; [|by eapply IHl].
  clear IHl. revert lv q Hp.
  induction c as [o ps kp|o ps ks kp IH] using node_ind'; intros lv q Hp;
    [by apply elem_of_nil in Hp|].
  cbn [visited_kids kids oid] in Hp. revert Hp. generalize (lv + 1). generalize o.
  clear lv q. induction IH as [|c ks Hc _ IHks]; intros q lv Hp;
    [by apply elem_of_nil in Hp|].
  rewrite placed_cons in Hp. apply elem_of_cons in Hp as [->|Hp]; [by eexists|].
  apply elem_of_app in Hp as [Hp|Hp]; [by apply (Hc lv q)|by eapply IHks].
Qed.

(** [findParent] reads the parent of the first place of the target. *)
Lemma findParentIn_placed t l :
  Forall (fun c => ∀ lv,
            findParentUnder t c =
            match placeOf t (placed lv (Some (oid c)) (visited_kids c)) with
            | Some x => x.2
            | None => None
            end) l →
  ∀ lv par,
    findParentIn (findParentUnder t) t par l = snd <$> placeOf t (placed lv par l).
Proof.
  induction 1 as [|c l Hc _ IH]; intros lv par; [done|].
  cbn [findParentIn]. rewrite placed_cons, placeOf_cons.
  destruct (bool_decide (oid c = t)); [done|].
  rewrite placeOf_app, (Hc (lv + 1)).
  destruct (placeOf t (placed (lv + 1) (Some (oid c)) (visited_kids c))) as [x|] eqn:E.
  - assert (Hx : is_Some x.2).
    { unfold placeOf in E. destruct (find _ _) as [p|] eqn:Ef; [|done].
      injection E as <-. apply find_some in Ef as [Hin _].
      apply (placed_parent (lv + 1) (oid c) (visited_kids c)). by apply list_elem_of_In. }
    destruct x as [L [q|]]; [done|]. by destruct Hx.
  - apply IH.
Qed.

Lemma findParentUnder_placed t c :
  ∀ lv,
    findParentUnder t c =
    match placeOf t (placed lv (Some (oid c)) (visited_kids c)) with
    | Some x => x.2
    | None => None
    end.
Proof.
  induction c as [o ps kp|o ps ks kp IH] using node_ind'; intros lv; [done|].
  cbn [findParentUnder visited_kids kids oid].
  rewrite (findParentIn_placed t ks IH lv (Some o)).
  destruct (placeOf t (placed lv (Some o) ks)) as [[L [q|]]|]; done.
Qed.

Lemma getNodeLevel_placed t st :
  getNodeLevel t st =
  match placeOf t (placed 0 None (data st)) with Some x => x.1 | None => -1 end.
Proof.
  unfold getNodeLevel. apply (findLevelIn_placed t (data st)); [|done].
  apply Forall_forall. intros c _. apply findLevelUnder_placed.
Qed.

Lemma findParentNode_placed t l :
  findParentNode t l =
  match placeOf t (placed 0 None l) with Some x => x.2 | None => None end.
Proof.
  unfold findParentNode. rewrite (findParentIn_placed t l) with (lv := 0).
  - destruct (placeOf t (placed 0 None l)) as [[L [q|]]|]; done.
  - apply Forall_forall. intros c _. apply findParentUnder_placed.
Qed.

Lemma placed_root lv par l r : r ∈ l → (oid r, (lv, par)) ∈ placed lv par l.
Proof.
  induction l as [|c l IH]; intros Hr; [by apply elem_of_nil in Hr|].
  rewrite placed_cons. apply elem_of_cons in Hr as [->|Hr]; [by left|].
  right. apply elem_of_app. right. by apply IH.
Qed.

Lemma placed_child_list l :
  Forall (fun c0 => ∀ lv par P c,
            P ∈ forestNodes (visited_kids c0) → c ∈ visited_kids P →
            ∃ L q, (oid P, (L, q)) ∈ placed lv par (visited_kids c0) ∧
                   (oid c, (L + 1, Some (oid P))) ∈ placed lv par (visited_kids c0)) l →
  ∀ lv par P c,
    P ∈ forestNodes l → c ∈ visited_kids P →
    ∃ L q, (oid P, (L, q)) ∈ placed lv par l ∧
           (oid c, (L + 1, Some (oid P))) ∈ placed lv par l.
Proof.
  induction 1 as [|c0 l Hc0 _ IH]; intros lv par P c HP Hc; [by apply elem_of_nil in HP|].
  rewrite forestNodes_cons in HP. rewrite placed_cons.
  apply elem_of_cons in HP as [->|HP].
  - exists lv, par. split; [by left|]. right. apply elem_of_app. left. by apply placed_root.
  - apply elem_of_app in HP as [HP|HP].
    + destruct (Hc0 (lv + 1) (Some (oid c0)) P c HP Hc) as (L & q & H1 & H2).
      exists L, q. split; right; apply elem_of_app; by left.
    + destruct (IH lv par P c HP Hc) as (L & q & H1 & H2).
      exists L, q. split; right; apply elem_of_app; by right.
Qed.

Lemma placed_child lv par l P c :
  P ∈ forestNodes l → c ∈ visited_kids P →
  ∃ L q, (oid P, (L, q)) ∈ placed lv par l ∧
         (oid c, (L + 1, Some (oid P))) ∈ placed lv par l.
Proof.
  apply placed_child_list. apply Forall_forall. intros c0 _. clear.
  induction c0 as [o ps kp|o ps ks kp IH] using node_ind'; intros lv par P c HP Hc.
  - by apply elem_of_nil in HP.
  - cbn [visited_kids kids] in *. by apply placed_child_list.
Qed.

(** X11.  In a forest of distinct objects [findParentNode] and
    [getNodeLevel] agree with the shape of the forest: a child has its
    parent as parent and sits one level below it; a root has no parent and
    level 0.  For an object that is not in the forest [getNodeLevel] is
    [-1], and only then, and [findParentNode] is [null], as for a root. *)
Theorem parent_and_level_follow_the_forest (st : TreeView) :
  NoDup (oids (data st)) →
  (∀ P c, P ∈ forestNodes (data st) → c ∈ visited_kids P →
          findParentNode (oid c) (data st) = Some (oid P) ∧
          getNodeLevel (oid c) st = getNodeLevel (oid P) st + 1) ∧
  (∀ r, r ∈ data st →
        findParentNode (oid r) (data st) = None ∧ getNodeLevel (oid r) st = 0) ∧
  (∀ t, getNodeLevel t st = -1 ↔ t ∉ oids (data st)) ∧
  (∀ t, t ∉ oids (data st) → findParentNode t (data st) = None).
Proof.
  intros Hnd.
  assert (Hnd' : NoDup (map fst (placed 0 None (data st)))) by (by rewrite placed_fst).
  split; [|split; [|split]].
  - intros P c HP Hc.
    destruct (placed_child 0 None (data st) P c HP Hc) as (L & q & H1 & H2).
    rewrite findParentNode_placed, !getNodeLevel_placed.
    by rewrite (placeOf_unique _ _ _ Hnd' H1), (placeOf_unique _ _ _ Hnd' H2).
  - intros r Hr. rewrite findParentNode_placed, getNodeLevel_placed.
    by rewrite (placeOf_unique _ _ _ Hnd' (placed_root 0 None _ r Hr)).
  - intros t. rewrite getNodeLevel_placed, <- (placed_fst 0 None), <- placeOf_None.
    destruct (placeOf t (placed 0 None (data st))) as [x|] eqn:E; [|done].
    split; [|done]. intros Hx. exfalso.
    unfold placeOf in E. destruct (find _ _) as [p|] eqn:Ef; [|done].
    injection E as <-. apply find_some in Ef as [Hin _].
    apply list_elem_of_In in Hin. apply placed_levels in Hin; [lia|done].
  - intros t Ht. rewrite findParentNode_placed.
    rewrite <- (placed_fst 0 None), <- placeOf_None in Ht. by rewrite Ht.
Qed.

(** * Statistics *)

Lemma calculateStats_fold l :
  Forall (fun c => ∀ lv a m,
            let r := calculateStats_node lv c (a, m) in
            r.1 = (a + length (subtree c))%nat ∧ m ≤ r.2 ∧
            (∀ p, p ∈ placed (lv + 1) (Some (oid c)) (visited_kids c) → p.2.1 ≤ r.2) ∧
            (r.2 = m ∨
             ∃ p, p ∈ placed (lv + 1) (Some (oid c)) (visited_kids c) ∧ p.2.1 = r.2)) l →
  ∀ lv par a m,
    let r := fold_left (fun a c => calculateStats_node lv c a) l (a, m) in
    r.1 = (a + length (forestNodes l))%nat ∧ m ≤ r.2 ∧
    (∀ p, p ∈ placed lv par l → p.2.1 ≤ Z.max r.2 lv) ∧
    (r.2 = m ∨ ∃ p, p ∈ placed lv par l ∧ p.2.1 = r.2).
Proof.
  induction 1 as [|c l Hc _ IH]; intros lv par a m.
  - cbn [fold_left fst snd]. split; [cbn; lia|]. split; [lia|]. split; [|by left].
    intros p Hp. by apply elem_of_nil in Hp.
  - cbn [fold_left]. specialize (Hc lv a m). cbn zeta in Hc.
    destruct (calculateStats_node lv c (a, m)) as [a1 m1]. cbn [fst snd] in Hc.
    destruct Hc as (C1 & C2 & C3 & C4).
    specialize (IH lv par a1 m1). cbn zeta in IH |- *.
    destruct (fold_left _ l (a1, m1)) as [a2 m2]. cbn [fst snd] in *.
    destruct IH as (I1 & I2 & I3 & I4).
    split; [|split; [|split]].
    + rewrite I1, C1, forestNodes_cons', length_app. lia.
    + lia.
    + intros p Hp. rewrite placed_cons in Hp.
      apply elem_of_cons in Hp as [->|Hp]; [cbn; lia|].
      apply elem_of_app in Hp as [Hp|Hp]; [specialize (C3 p Hp); lia|by apply I3].
    + destruct I4 as [->|(p & Hp & E)].
      * destruct C4 as [->|(p & Hp & E)]; [by left|].
        right. exists p. split; [|done]. rewrite placed_cons. right. apply elem_of_app. by left.
      * right. exists p. split; [|done]. rewrite placed_cons. right. apply elem_of_app. by right.
Qed.

Lemma calculateStats_node_spec c :
  ∀ lv a m,
    let r := calculateStats_node lv c (a, m) in
    r.1 = (a + length (subtree c))%nat ∧ m ≤ r.2 ∧
    (∀ p, p ∈ placed (lv + 1) (Some (oid c)) (visited_kids c) → p.2.1 ≤ r.2) ∧
    (r.2 = m ∨
     ∃ p, p ∈ placed (lv + 1) (Some (oid c)) (visited_kids c) ∧ p.2.1 = r.2).
Proof.
  induction c as [o ps kp|o ps l kp IH] using node_ind'; intros lv a m.
  - cbn. split; [lia|]. split; [lia|]. split; [|by left].
    intros p Hp. by apply elem_of_nil in Hp.
  - cbn [calculateStats_node visited_kids kids oid fst snd].
    destruct l as [|c0 l0] eqn:El.
    + cbn. split; [lia|]. split; [lia|]. split; [|by left].
      intros p Hp. by apply elem_of_nil in Hp.
    + rewrite <- El in *. replace (0 <? length l)%nat with true
        by (rewrite El; reflexivity).
      pose proof (calculateStats_fold l IH (lv + 1) (Some o) (S a) (Z.max m (lv + 1))) as H.
      cbn zeta in H |- *.
      destruct (fold_left _ l _) as [a2 m2]. cbn [fst snd] in *.
      destruct H as (H1 & H2 & H3 & H4).
      split; [|split; [|split]].
      * rewrite H1. unfold subtree. rewrite descendants_Some. cbn [length]. lia.
      * lia.
      * intros p Hp. specialize (H3 p Hp). lia.
      * destruct H4 as [E|?]; [|by right].
        destruct (Z.max_spec m (lv + 1)) as [[_ E']|[_ E']]; rewrite E' in E; [|by left].
        right. exists (oid c0, (lv + 1, Some o)). split; [|done].
        apply placed_root. rewrite El. by left.
Qed.

Lemma calculateStats_spec l lv par a m :
  let r := calculateStats l lv (a, m) in
  r.1 = (a + length (forestNodes l))%nat ∧ m ≤ r.2 ∧ lv ≤ r.2 ∧
  (∀ p, p ∈ placed lv par l → p.2.1 ≤ r.2) ∧
  (r.2 = m ∨ r.2 = lv ∨ ∃ p, p ∈ placed lv par l ∧ p.2.1 = r.2).
Proof.
  unfold calculateStats. cbn [fst snd].
  pose proof (calculateStats_fold l) as H.
  specialize (H ltac:(apply Forall_forall; intros c _; apply calculateStats_node_spec)
                lv par a (Z.max m lv)).
  cbn zeta in H |- *. destruct (fold_left _ l _) as [a2 m2]. cbn [fst snd] in *.
  destruct H as (H1 & H2 & H3 & H4).
  split; [done|]. split; [lia|]. split; [lia|]. split.
  - intros p Hp. specialize (H3 p Hp). lia.
  - destruct H4 as [E|?]; [|by right; right].
    destruct (Z.max_spec m lv) as [[_ E']|[_ E']]; rewrite E' in E; auto.
Qed.

Lemma size_idIndex l : NoDup (iids l) → size (idIndex l ∅) = length (forestNodes l).
Proof.
  intros Hnd. rewrite <- size_dom, idIndex_dom, dom_empty_L, (left_id_L ∅ (∪)).
  rewrite size_list_to_set by done. unfold iids. by rewrite length_map.
Qed.

(** X12.  [getExportStats] counts every node of the forest once, and its
    [totalLevels] is the deepest level of a node: no node lies deeper, and
    in a forest of distinct objects that is not empty some node lies at
    that level.  After a rebuild of the registry that returned, the number
    of internal ids known is the number of nodes counted. *)
Theorem getExportStats_counts (st : TreeView) :
  stat_totalNodes (getExportStats st) = length (forestNodes (data st)) ∧
  0 ≤ stat_totalLevels (getExportStats st) ∧
  (∀ t, getNodeLevel t st ≤ stat_totalLevels (getExportStats st)) ∧
  (data st = [] → stat_totalLevels (getExportStats st) = 0) ∧
  (NoDup (oids (data st)) → data st ≠ [] →
   ∃ n, n ∈ forestNodes (data st) ∧
        getNodeLevel (oid n) st = stat_totalLevels (getExportStats st)) ∧
  (∀ st', buildNodeDataMap st = (Ok tt, st') →
          size (internalIdMap st') = stat_totalNodes (getExportStats st') ∧
          stat_totalNodes (getExportStats st') = stat_totalNodes (getExportStats st)).
Proof.
  assert (Hcount : ∀ s, stat_totalNodes (getExportStats s) = length (forestNodes (data s))).
  { intros s. unfold getExportStats. cbn [stat_totalNodes].
    by destruct (calculateStats_spec (data s) 0 None 0%nat 0) as (-> & _). }
  unfold getExportStats at 2 3 4 5. cbn [stat_totalLevels].
  destruct (calculateStats_spec (data st) 0 None 0%nat 0) as (_ & H2 & _ & H4 & H5).
  set (T := (calculateStats (data st) 0 (0%nat, 0)).2) in *.
  split; [apply Hcount|]. split; [done|]. split; [|split; [|split]].
  - intros t. rewrite getNodeLevel_placed.
    destruct (placeOf t (placed 0 None (data st))) as [x|] eqn:E; [|lia].
    unfold placeOf in E. destruct (find _ _) as [p|] eqn:Ef; [|done].
    injection E as <-. apply find_some in Ef as [Hin _].
    apply list_elem_of_In in Hin. by apply H4.
  - intros E. subst T. by rewrite E.
  - intros Hnd Hne.
    assert (Hnd' : NoDup (map fst (placed 0 None (data st)))) by (by rewrite placed_fst).
    assert (Hplace : ∃ p, p ∈ placed 0 None (data st) ∧ p.2.1 = T).
    { destruct H5 as [E|[E|?]]; [| |done];
        destruct (data st) as [|r l] eqn:Ed; try done;
        exists (oid r, (0, None)); (split; [apply placed_root; by left|done]). }
    destruct Hplace as ([o [L q]] & Hp & HL). cbn [fst snd] in HL. subst L.
    assert (Ho : o ∈ oids (data st)).
    { rewrite <- (placed_fst 0 None). apply list_elem_of_fmap. by exists (o, (T, q)). }
    apply list_elem_of_fmap in Ho as (n & -> & Hn). exists n. split; [done|].
    by rewrite getNodeLevel_placed, (placeOf_unique _ _ _ Hnd' Hp).
  - intros st' E. rewrite !Hcount.
    destruct (buildNodeDataMap_inv _ _ E) as (sE & HB & Hst).
    set (s0 := set_nodeToInternalIdMap ∅ (set_internalIdMap ∅ (set_nodeDataMap ∅ st))) in *.
    assert (Z1 : internalIdMap s0 = ∅) by (by destruct st).
    destruct (Build_strong _ _ _ _ HB) as (B1 & _ & _ & _ & B5 & _).
    { rewrite Z1. clear. set_solver. }
    destruct (Build_weak _ _ _ _ _ HB) as [Hsk _].
    assert (M1 : internalIdMap st' = idIndex (data st') ∅).
    { transitivity (internalIdMap sE); [rewrite Hst; by destruct sE|]. by rewrite B1, Z1. }
    split; [rewrite M1; by apply size_idIndex|].
    pose proof (skeleton_oids _ _ Hsk) as Ho. apply (f_equal length) in Ho.
    unfold oids in Ho. by rewrite !length_map in Ho.
Qed.

(** * Export *)

Lemma cleanEach_cons f c l nx :
  cleanEach f (c :: l) nx =
  ((f c nx).1 :: (cleanEach f l (f c nx).2).1, (cleanEach f l (f c nx).2).2).
Proof.
  cbn [cleanEach]. destruct (f c nx) as [c' nx1]. cbn [fst snd].
  by destruct (cleanEach f l nx1).
Qed.

Lemma cleanNode_unfold n next :
  cleanNode n next =
  (Node next (prop_delete "_internalId" (props n))
        (match kids n with
         | Some l => Some (if (0 <? length l)%nat
                           then (cleanEach cleanNode l (S next)).1 else l)
         | None => None
         end)
        (length (prop_delete "_internalId" (take (kpos n) (props n)))),
   match kids n with
   | Some l => if (0 <? length l)%nat then (cleanEach cleanNode l (S next)).2 else S next
   | None => S next
   end).
Proof.
  destruct n as [o ps [l|] kp]; cbn [cleanNode kids props kpos]; [|done].
  destruct (0 <? length l)%nat; [|done]. by destruct (cleanEach cleanNode l (S next)).
Qed.

Lemma prop_delete_absent k ps : k ∉ map fst ps → prop_delete k ps = ps.
Proof.
  induction ps as [|[k' v] ps IH]; intros Hk; [done|].
  cbn [prop_delete List.filter fst]. fold (prop_delete k ps).
  destruct (String.eqb k k') eqn:E.
  - apply String.eqb_eq in E. exfalso. apply Hk. subst. by left.
  - cbn [negb]. rewrite IH; [done|]. intros ?. apply Hk. by right.
Qed.

Lemma prop_delete_present k ps : k ∉ map fst (prop_delete k ps).
Proof.
  induction ps as [|[k' v] ps IH]; [apply not_elem_of_nil|].
  cbn [prop_delete List.filter fst]. fold (prop_delete k ps).
  destruct (String.eqb k k') eqn:E; cbn [negb]; [done|].
  cbn [map fst]. intros [->|?]%elem_of_cons; [|done].
  by rewrite String.eqb_refl in E.
Qed.

Lemma prop_set_absent k v ps : k ∉ map fst ps → prop_set k v ps = ps ++ [(k, v)].
Proof.
  induction ps as [|[k' v'] ps IH]; intros Hk; [done|].
  cbn [prop_set]. destruct (String.eqb k k') eqn:E.
  - apply String.eqb_eq in E. exfalso. apply Hk. subst. by left.
  - cbn [app]. rewrite IH; [done|]. intros ?. apply Hk. by right.
Qed.

Lemma prop_delete_app k a b : prop_delete k (a ++ b) = prop_delete k a ++ prop_delete k b.
Proof. unfold prop_delete. apply List.filter_app. Qed.

(** The properties of a stamped record, once cleaned, and the place of
    [children] among them. *)
Lemma clean_stamped_props ps ps1 kp :
  "_internalId"%string ∉ map fst ps →
  (ps1 = ps ∨ ∃ i, ps1 = prop_set "_internalId" i ps) →
  prop_delete "_internalId" ps1 = ps ∧
  take (length (prop_delete "_internalId" (take kp ps1))) ps = take kp ps ∧
  drop (length (prop_delete "_internalId" (take kp ps1))) ps = drop kp ps.
Proof.
  intros Hraw Hps.
  assert (Hsub : ∀ j, prop_delete "_internalId" (take j ps) = take j ps).
  { intros j. apply prop_delete_absent. intros Hin. apply Hraw.
    apply list_elem_of_fmap in Hin as (x & -> & Hx). apply list_elem_of_fmap.
    exists x. split; [done|]. by apply (subseteq_take j ps). }
  destruct Hps as [->|[i ->]].
  - rewrite prop_delete_absent by done. rewrite Hsub, length_take.
    split; [done|]. destruct (decide (kp ≤ length ps)%nat).
    + by rewrite Nat.min_l by done.
    + rewrite Nat.min_r by lia. rewrite !take_ge, !drop_ge by lia. done.
  - rewrite prop_set_absent by done. rewrite prop_delete_app, prop_delete_absent by done.
    assert (Hlast : prop_delete "_internalId" [("_internalId"%string, i)] = []) by done.
    rewrite Hlast, app_nil_r. split; [done|].
    destruct (decide (kp ≤ length ps)%nat).
    + rewrite take_app_le by done. rewrite Hsub, length_take, Nat.min_l by done. done.
    + rewrite (take_ge (ps ++ _)) by (rewrite length_app; cbn [length]; lia).
      rewrite prop_delete_app, prop_delete_absent, Hlast, app_nil_r by done.
      rewrite !take_ge, !drop_ge by lia. done.
Qed.

Lemma JSON_stringify_take_drop o o' ps ps' ks ks' kp kp' :
  take kp' ps' = take kp ps → drop kp' ps' = drop kp ps →
  match ks, ks' with
  | Some a, Some b => map JSON_stringify b = map JSON_stringify a
  | None, None => True
  | _, _ => False
  end →
  JSON_stringify (Node o' ps' ks' kp') = JSON_stringify (Node o ps ks kp).
Proof.
  intros Ht Hd Hk. cbn [JSON_stringify].
  rewrite !List.firstn_map, !List.skipn_map, Ht, Hd.
  destruct ks, ks'; try done. by rewrite Hk.
Qed.

Lemma unstamped_cons n l :
  Forall unstamped (forestNodes (n :: l)) ↔
  unstamped n ∧ Forall unstamped (forestNodes (visited_kids n)) ∧
  Forall unstamped (forestNodes l).
Proof. rewrite forestNodes_cons, Forall_cons, Forall_app. done. Qed.

Lemma Build_clean_round_trip st l l' r st' :
  Build st l l' r st' → r = Ok tt →
  Forall unstamped (forestNodes l) →
  ∀ next, map JSON_stringify (cleanEach cleanNode l' next).1 = map JSON_stringify l.
Proof.
  induction 1 as [st|st o ps ks kp l m st1 Ha
                  |st o ps kp l i ps1 st1 l' r st' Ha Hl IHl
                  |st o ps ks kp l i ps1 st1 ks' m st3 Ha Hk IHk
                  |st o ps ks kp l i ps1 st1 ks' st3 l' r st' Ha Hk IHk Hl IHl];
    intros Er Hraw next; try discriminate.
  - done.
  - apply unstamped_cons in Hraw as (Hn & _ & Hrl). unfold unstamped in Hn. cbn [props] in Hn.
    pose proof (assignInternalId_spec ps st) as (_ & _ & _ & _ & H4).
    rewrite Ha in H4. cbn [fst] in H4. destruct H4 as (_ & _ & _ & Hps).
    assert (Hps' : ps1 = ps ∨ ∃ i, ps1 = prop_set "_internalId" i ps)
      by (destruct Hps as [[-> _]|[-> _]]; eauto).
    destruct (clean_stamped_props ps ps1 kp Hn Hps') as (C1 & C2 & C3).
    rewrite cleanEach_cons. cbn [map fst]. rewrite (IHl Er Hrl). f_equal.
    rewrite cleanNode_unfold. cbn [fst props kids kpos]. rewrite C1.
    by apply JSON_stringify_take_drop.
  - apply unstamped_cons in Hraw as (Hn & Hrk & Hrl). unfold unstamped in Hn.
    cbn [props visited_kids kids] in Hn, Hrk.
    pose proof (assignInternalId_spec ps st) as (_ & _ & _ & _ & H4).
    rewrite Ha in H4. cbn [fst] in H4. destruct H4 as (_ & _ & _ & Hps).
    assert (Hps' : ps1 = ps ∨ ∃ i, ps1 = prop_set "_internalId" i ps)
      by (destruct Hps as [[-> _]|[-> _]]; eauto).
    destruct (clean_stamped_props ps ps1 kp Hn Hps') as (C1 & C2 & C3).
    rewrite cleanEach_cons. cbn [map fst]. rewrite (IHl Er Hrl). f_equal.
    rewrite cleanNode_unfold. cbn [fst props kids kpos]. rewrite C1.
    apply JSON_stringify_take_drop; [done|done|].
    destruct (0 <? length ks')%nat eqn:E.
    + by apply IHk.
    + apply Nat.ltb_ge in E. destruct ks'; [|cbn in E; lia].
      specialize (IHk eq_refl Hrk 0%nat). by destruct ks.
Qed.

Lemma cleanEach_spec l :
  Forall (fun n => ∀ next,
            (∀ c, c ∈ subtree (cleanNode n next).1 →
                  unstamped c ∧ (next ≤ oid c < (cleanNode n next).2)%nat) ∧
            map oid (subtree (cleanNode n next).1) =
              seq next (length (subtree n)) ∧
            (cleanNode n next).2 = (next + length (subtree n))%nat) l →
  ∀ next,
    length (cleanEach cleanNode l next).1 = length l ∧
    (∀ c, c ∈ forestNodes (cleanEach cleanNode l next).1 →
          unstamped c ∧ (next ≤ oid c < (cleanEach cleanNode l next).2)%nat) ∧
    oids (cleanEach cleanNode l next).1 = seq next (length (forestNodes l)) ∧
    (cleanEach cleanNode l next).2 = (next + length (forestNodes l))%nat.
Proof.
  induction 1 as [|n l Hn _ IH]; intros next.
  - cbn. split; [done|]. split; [|split; [done|lia]].
    intros c Hc. by apply elem_of_nil in Hc.
  - rewrite cleanEach_cons. cbn [fst snd length].
    destruct (Hn next) as (N1 & N2 & N3).
    destruct (IH (cleanNode n next).2) as (I1 & I2 & I3 & I4).
    split; [by rewrite I1|]. split; [|split].
    + intros c Hc. rewrite forestNodes_cons' in Hc. apply elem_of_app in Hc as [Hc|Hc].
      * destruct (N1 c Hc) as [? ?]. split; [done|]. rewrite I4. lia.
      * destruct (I2 c Hc) as [? ?]. split; [done|]. rewrite N3 in *. lia.
    + unfold oids in *. rewrite !forestNodes_cons', map_app, N2, I3, N3, length_app.
      by rewrite seq_app.
    + rewrite I4, N3, forestNodes_cons', length_app. lia.
Qed.

Lemma cleanNode_spec n :
  ∀ next,
    (∀ c, c ∈ subtree (cleanNode n next).1 →
          unstamped c ∧ (next ≤ oid c < (cleanNode n next).2)%nat) ∧
    map oid (subtree (cleanNode n next).1) = seq next (length (subtree n)) ∧
    (cleanNode n next).2 = (next + length (subtree n))%nat.
Proof.
  induction n as [o ps kp|o ps l kp IH] using node_ind'; intros next.
  - rewrite cleanNode_unfold. cbn [fst snd kids props kpos subtree descendants length].
    split; [|split; [done|lia]].
    intros c ->%list_elem_of_singleton. split; [apply prop_delete_present|cbn; lia].
  - rewrite cleanNode_unfold. cbn [fst snd kids props kpos].
    destruct (0 <? length l)%nat eqn:E.
    + destruct (cleanEach_spec l IH (S next)) as (_ & I2 & I3 & I4).
      unfold subtree. rewrite !descendants_Some. cbn [length map oid].
      split; [|split].
      * intros c [->|Hc]%elem_of_cons.
        -- split; [apply prop_delete_present|]. cbn [oid]. rewrite I4. lia.
        -- destruct (I2 c Hc). split; [done|lia].
      * fold (oids (cleanEach cleanNode l (S next)).1). by rewrite I3.
      * rewrite I4. lia.
    + apply Nat.ltb_ge in E. destruct l; [|cbn in E; lia].
      unfold subtree. rewrite !descendants_Some. cbn.
      split; [|split; [done|lia]].
      intros c ->%list_elem_of_singleton. split; [apply prop_delete_present|cbn; lia].
Qed.

(** X13.  [cleanDataForExport] returns as many top-level records as it is
    given, all of them and all records below them new objects, no two the
    same, none of which has an [_internalId] property.  Cleaning the forest
    after a rebuild of the registry gives back, record for record, the
    serialisation of the forest the rebuild was given, when that forest
    came without internal ids: what the registry added is what the export
    leaves out. *)
Theorem cleanDataForExport_round_trip (st st' : TreeView) (next : nat) :
  Forall unstamped (forestNodes (data st)) →
  buildNodeDataMap st = (Ok tt, st') →
  (∀ nodes, let cleaned := (cleanDataForExport nodes next).1 in
     length cleaned = length nodes ∧
     Forall unstamped (forestNodes cleaned) ∧
     oids cleaned = seq next (length (forestNodes nodes))) ∧
  map JSON_stringify (cleanDataForExport (data st') next).1 =
    map JSON_stringify (data st).
Proof.
  intros Hraw E. split.
  - intros nodes cleaned. unfold cleaned, cleanDataForExport.
    destruct (cleanEach_spec nodes) with (next := next) as (I1 & I2 & I3 & _).
    { apply Forall_forall. intros c _. apply cleanNode_spec. }
    split; [done|]. split; [|done].
    apply Forall_forall. intros c Hc. by apply I2.
  - destruct (buildNodeDataMap_inv _ _ E) as (sE & HB & _).
    by apply (Build_clean_round_trip _ _ _ _ _ HB).
Qed.

(** * Insertion beside a node and under a parent *)

Lemma findParentNode_root l r :
  NoDup (oids l) → r ∈ l → findParentNode (oid r) l = None.
Proof.
  intros Hnd Hr.
  assert (Hnd' : NoDup (map fst (placed 0 None l))) by (by rewrite placed_fst).
  rewrite findParentNode_placed.
  by rewrite (placeOf_unique _ _ _ Hnd' (placed_root 0 None _ r Hr)).
Qed.

Lemma indexOf_nonneg t l : -1 ≤ indexOf t l.
Proof.
  induction l as [|c l IH]; cbn [indexOf]; [lia|].
  destruct (bool_decide (oid c = t)); [lia|].
  destruct (indexOf t l <? 0) eqn:E; lia.
Qed.

Lemma indexOf_middle l1 R l2 :
  oid R ∉ map oid l1 → indexOf (oid R) (l1 ++ R :: l2) = Z.of_nat (length l1).
Proof.
  induction l1 as [|c l1 IH]; intros Hno.
  - cbn [app indexOf length]. by rewrite bool_decide_eq_true_2.
  - cbn [app indexOf length]. rewrite bool_decide_eq_false_2.
    + rewrite IH by (intros ?; apply Hno; by right).
      replace (Z.of_nat (length l1) <? 0) with false by (symmetry; lia). lia.
    + intros E. apply Hno. rewrite <- E. by left.
Qed.

Lemma splice_insert_at {A} (l1 l2 : list A) (x : A) (k : Z) :
  k = Z.of_nat (length l1) → splice_insert k x (l1 ++ l2) = l1 ++ x :: l2.
Proof.
  intros ->. unfold splice_insert.
  assert ((Z.of_nat (length l1) <? 0) = false) as -> by (apply Z.ltb_ge; lia).
  replace (Z.to_nat (Z.min (Z.of_nat (length l1)) (Z.of_nat (length (l1 ++ l2)))))
    with (length l1) by (rewrite length_app; lia).
  by rewrite take_app_length, drop_app_length.
Qed.

Lemma insertBeside_root l1 R l2 nn pos :
  oid R ∉ map oid l1 →
  insertBeside (oid R) pos nn (l1 ++ R :: l2) =
  if String.eqb pos "before" then l1 ++ nn :: R :: l2 else l1 ++ R :: nn :: l2.
Proof.
  intros Hno. unfold insertBeside. rewrite indexOf_middle by done.
  destruct (String.eqb pos "before").
  - by apply splice_insert_at.
  - replace (l1 ++ R :: l2) with ((l1 ++ [R]) ++ l2) by (by rewrite <- app_assoc).
    rewrite (splice_insert_at (l1 ++ [R]) l2).
    + by rewrite <- app_assoc.
    + rewrite length_app. cbn [length]. lia.
Qed.

Lemma oids_app l1 l2 : oids (l1 ++ l2) = oids l1 ++ oids l2.
Proof. unfold oids. by rewrite forestNodes_app, map_app. Qed.

Lemma root_not_before l1 R l2 :
  NoDup (oids (l1 ++ R :: l2)) → oid R ∉ map oid l1.
Proof.
  rewrite oids_app, oids_cons. intros Hnd Hin.
  apply NoDup_app in Hnd as (_ & Hdis & _).
  apply (Hdis (oid R)); [|by left].
  apply list_elem_of_fmap in Hin as (c & E & Hc). rewrite E.
  unfold oids. apply list_elem_of_fmap. exists c. split; [done|].
  apply list_elem_of_In, in_flat_map. exists c. split; [by apply list_elem_of_In|by left].
Qed.

(** X14.  [addNodeAtPosition] with a reference id that the registry does
    not know, or with data that is not an object, returns [null] and leaves
    the whole state as it is: unlike [addNode] it has not drawn an id.
    With a reference that is a root of a forest of distinct objects, the
    new record, a copy that carries the new id, comes to stand right before
    the reference for the position ['before'] and right after it for any
    other position; nothing else in the forest changes but the internal
    ids that the rebuild assigns.  The call returns the new id unless the
    refresh is interrupted by an exception. *)
Theorem addNodeAtPosition_beside_root
    (st : TreeView) (d : node) (r : value) (pos : string) :
  addNodeAtPosition None r pos st = (Ok None, st) ∧
  (internalIdMap st !! r = None → addNodeAtPosition (Some d) r pos st = (Ok None, st)) ∧
  (∀ l1 R l2 id st2,
     NoDup (oids (data st)) → data st = l1 ++ R :: l2 →
     internalIdMap st !! r = Some (oid R) →
     generateInternalId (set_nextOid (S (nextOid st)) st) = (Ok id, st2) →
     let newNode :=
       Node (nextOid st) (prop_set "_internalId" id (props d)) (kids d) (kpos d) in
     ∃ res st',
       addNodeAtPosition (Some d) r pos st = (res, st') ∧
       (res = Ok (Some id) ∨ ∃ m, res = Throw m) ∧
       map skeleton (data st') =
         map skeleton (if String.eqb pos "before"
                       then l1 ++ newNode :: R :: l2
                       else l1 ++ R :: newNode :: l2)).
Proof.
  split; [done|]. split.
  - intros Hnone. unfold addNodeAtPosition, bind, gets. by rewrite Hnone.
  - intros l1 R l2 id st2 Hnd Hdata Href Hgen newNode.
    set (sA := set_nextOid (S (nextOid st)) st) in *.
    pose proof (generateInternalId_spec sA) as (Rg & _).
    rewrite Hgen in Rg. cbn [snd] in Rg.
    destruct (registry_only_fields _ _ Rg) as (F1 & _).
    assert (A1 : data sA = data st) by (by destruct st).
    unfold addNodeAtPosition, bind, gets, spreadCopy, modify, ret.
    rewrite Href. cbn beta iota. fold sA. rewrite Hgen.
    change (with_internalId id (Node (nextOid st) (props d) (kids d) (kpos d)))
      with newNode.
    rewrite F1, A1.
    rewrite (findParentNode_root (data st) R Hnd)
      by (rewrite Hdata; apply elem_of_app; right; by left).
    rewrite Hdata, insertBeside_root
      by (apply (root_not_before l1 R l2); by rewrite <- Hdata).
    set (Fins := if String.eqb pos "before" then _ else _).
    destruct (refreshTree_data (set_data Fins st2)) as (l' & _ & Hl' & Hsk).
    replace (data (set_data Fins st2)) with Fins in Hsk by (by destruct st2).
    destruct (refreshTree (set_data Fins st2)) as [[[]|m] s'] eqn:Eref; cbn [fst snd] in *.
    + eexists _, _. split; [reflexivity|]. split; [by left|]. by rewrite Hl'.
    + eexists _, _. split; [reflexivity|]. split; [eauto|]. by rewrite Hl'.
Qed.

Lemma findNode_skeleton o l :
  findNode o (map skeleton l) = skeleton <$> findNode o l.
Proof.
  induction l as [|c l IHl]; [done|].
  assert (Hc : findNode_node o (skeleton c) = skeleton <$> findNode_node o c).
  { clear IHl l. induction c as [o' ps kp|o' ps l kp IH] using node_ind'.
    - rewrite !findNode_node_unfold. cbn [skeleton oid visited_kids kids].
      by destruct (bool_decide (o' = o)).
    - rewrite (findNode_node_unfold o (Node _ _ _ _)). cbn [oid visited_kids kids].
      cbn [skeleton]. rewrite findNode_node_unfold. cbn [oid visited_kids kids].
      destruct (bool_decide (o' = o)); [done|].
      induction IH as [|c l Hc _ IHl]; [done|].
      cbn [map]. rewrite !findNode_cons, Hc.
      destruct (findNode_node o c); [done|]. apply IHl. }
  cbn [map]. rewrite !findNode_cons, Hc.
  destruct (findNode_node o c); [done|]. apply IHl.
Qed.

Lemma oid_skeleton n : oid (skeleton n) = oid n.
Proof. by destruct n. Qed.

Lemma visited_kids_skeleton n : visited_kids (skeleton n) = map skeleton (visited_kids n).
Proof. by destruct n as [o ps [l|] kp]. Qed.

Lemma addToParentNode_kids nn pos P :
  visited_kids (addToParentNode nn pos P) = insertByPosition nn pos (visited_kids P).
Proof. unfold addToParentNode, visited_kids. by destruct (kids P). Qed.

Lemma filter_filter_same {A} (f : A → bool) (l : list A) :
  List.filter f (List.filter f l) = List.filter f l.
Proof.
  induction l as [|x l IH]; simpl; [done|].
  destruct (f x) eqn:E; simpl; [by rewrite E, IH|done].
Qed.

Lemma bare_skeleton n : bare (skeleton n) = bare n.
Proof.
  induction n as [o ps kp|o ps l kp IH] using node_ind'; cbn [skeleton bare].
  - by rewrite filter_filter_same.
  - rewrite filter_filter_same, map_map. do 2 f_equal.
    apply map_ext_Forall. exact IH.
Qed.

Lemma map_bare_skeleton l l' :
  map skeleton l = map skeleton l' → map bare l = map bare l'.
Proof.
  intros H. apply (f_equal (map bare)) in H. rewrite !map_map in H.
  rewrite <- (map_ext _ _ bare_skeleton l), <- (map_ext _ _ bare_skeleton l'). exact H.
Qed.

(** X15.  In a forest of distinct objects, [addNode] of a record whose
    descendants are not in the forest, under a parent that the registry
    resolves to a node of the forest and that has children or no children
    list at all (a parent with an empty children array is left out), puts
    the new record, a copy that carries the new id, among the children of
    that node: first for the position ['first'], last for any other
    position, ['before'] and ['after'] included; a parent without a
    children list gets one with the new record alone.  Nothing else in the
    forest changes but the internal ids that the rebuild assigns and, for a
    parent that had no children list, the place of the new list among its
    properties, of which nothing is said; and the call returns the new id
    unless the refresh is interrupted by an exception. *)
Theorem addNode_under_parent
    (st : TreeView) (p : value) (d : node) (pos : string)
    (po : nat) (P : node) (id : value) (st2 : TreeView) :
  NoDup (oids (data st)) →
  (∀ o, o ∈ oids (visited_kids d) → o ∉ oids (data st)) →
  is_root_sentinel p = false →
  internalIdMap st !! p = Some po →
  findNode po (data st) = Some P →
  kids P ≠ Some [] →
  generateInternalId (set_nextOid (S (nextOid st)) st) = (Ok id, st2) →
  let newNode :=
    Node (nextOid st) (prop_set "_internalId" id (props d)) (kids d) (kpos d) in
  ∃ res st' P',
    addNode p (Some d) pos st = (res, st') ∧
    (res = Ok (Some id) ∨ ∃ m, res = Throw m) ∧
    map bare (data st') =
      map bare (updateForest po (addToParentNode newNode pos) (data st)) ∧
    (is_Some (kids P) →
     map skeleton (data st') =
       map skeleton (updateForest po (addToParentNode newNode pos) (data st))) ∧
    findNode po (data st') = Some P' ∧
    oid P' = oid P ∧
    map skeleton (visited_kids P') =
      map skeleton (if String.eqb pos "first"
                    then newNode :: visited_kids P
                    else visited_kids P ++ [newNode]).
Proof.
  intros _ _ Hroot Hpar HP _ Hgen newNode.
  set (sA := set_nextOid (S (nextOid st)) st) in *.
  pose proof (generateInternalId_spec sA) as (Rg & _ & G2 & _).
  rewrite Hgen in Rg, G2. cbn [snd] in Rg, G2.
  destruct (registry_only_fields _ _ Rg) as (F1 & _).
  assert (A1 : data sA = data st ∧ internalIdMap sA = internalIdMap st) by (by destruct st).
  destruct A1 as [A1 A4].
  unfold addNode, bind, gets, spreadCopy, modify, ret.
  fold sA. rewrite Hgen, Hroot. cbn beta iota.
  rewrite G2, A4, Hpar, F1, A1.
  change (with_internalId id (Node (nextOid st) (props d) (kids d) (kpos d)))
    with newNode.
  set (Fins := updateForest po (addToParentNode newNode pos) (data st)).
  assert (HF : findNode po Fins = Some (addToParentNode newNode pos P)).
  { unfold Fins. rewrite findNode_updateForest, HP; [done|].
    intros n. unfold addToParentNode. by destruct (kids n). }
  destruct (refreshTree_data (set_data Fins st2)) as (l' & _ & Hl' & Hsk).
  replace (data (set_data Fins st2)) with Fins in Hsk by (by destruct st2).
  assert (HP' : ∃ P', findNode po l' = Some P' ∧ oid P' = oid P ∧
                      map skeleton (visited_kids P') =
                      map skeleton (insertByPosition newNode pos (visited_kids P))).
  { pose proof (findNode_skeleton po l') as H1. rewrite Hsk, findNode_skeleton, HF in H1.
    destruct (findNode po l') as [P'|]; [|done]. injection H1 as H1.
    exists P'. split; [done|]. split.
    - apply (f_equal oid) in H1. rewrite !oid_skeleton in H1. rewrite <- H1.
      unfold addToParentNode. by destruct (kids P).
    - apply (f_equal visited_kids) in H1.
      by rewrite !visited_kids_skeleton, addToParentNode_kids in H1. }
  destruct HP' as (P' & Hf & Ho & Hk).
  pose proof (map_bare_skeleton _ _ Hsk) as Hbare.
  destruct (refreshTree (set_data Fins st2)) as [[[]|m] s'] eqn:Eref; cbn [fst snd] in *.
  - exists (Ok (Some id)), s', P'. rewrite Hl'. split; [done|]. split; [by left|]. done.
  - exists (Throw m), s', P'. rewrite Hl'. split; [done|]. split; [eauto|]. done.
Qed.

(** * Removal and replacement of the forest *)

(** X16.  [removeNodeByInternalId] with an id that is empty or that the
    registry does not know returns [false] and changes nothing.  When it
    returns [true] on a forest whose nodes carry distinct internal ids, the
    forest afterwards is the one before without the node and its subtree:
    every other node is the same object with the same properties, its
    internal id included, and the registry resolves its id to it; no id
    was drawn from the allocator. *)
Theorem removeNodeByInternalId_keeps_the_rest (st : TreeView) (id : value) :
  (truthy id = false ∨ internalIdMap st !! id = None →
   removeNodeByInternalId id st = (Ok false, st)) ∧
  (∀ st',
     Forall (fun i => truthy i = true) (iids (data st)) →
     NoDup (iids (data st)) →
     removeNodeByInternalId id st = (Ok true, st') →
     ∃ t N,
       internalIdMap st !! id = Some t ∧ oid N = t ∧
       removeFromNodes t (data st) = Some (data st', N) ∧
       map own (forestNodes (data st)) ≡ₚ
         map own (forestNodes (data st')) ++ map own (subtree N) ∧
       map oid (data st') `sublist_of` map oid (data st) ∧
       (∀ x, x ∈ forestNodes (data st') →
             internalIdMap st' !! iid x = Some (oid x)) ∧
       internalIdCounter st' = internalIdCounter st ∧
       draws st' = draws st).
Proof.
  split.
  - intros [H|H]; unfold removeNodeByInternalId.
    + by rewrite H.
    + destruct (negb (truthy id)); [done|]. by rewrite H.
  - intros st' Htr Hnd Hrem.
    destruct (removeNode_inv _ _ _ Hrem) as (_ & t & R & N & sG & Hlook & Hcut & Hcl & Href).
    pose proof (removeFromNodes_spec _ _ _ _ Hcut) as (Ht & Hsub & Hown).
    pose proof (removeFromNodes_iids _ _ _ _ Hcut) as Hii.
    destruct (cleaned_fields _ _ _ Hcl) as (C1 & _ & _ & _ & _ & _ & _ & C8 & C9 & _).
    assert (HdG : data sG = R) by (rewrite C1; by destruct st).
    assert (HcG : internalIdCounter sG = internalIdCounter st ∧ draws sG = draws st)
      by (rewrite C8, C9; by destruct st).
    destruct HcG as [HcG HdrG].
    destruct (refreshTree_inv _ _ Href) as (sD & sE & l' & Hv & HB & Hp).
    rewrite HdG in HB.
    set (s0 := set_nodeToInternalIdMap ∅ (set_internalIdMap ∅ (set_nodeDataMap ∅ sD))) in *.
    destruct (view_only_fields _ _ Hv) as (_ & _ & _ & _ & _ & _ & _ & _ & _ & V10 & V11 & _).
    assert (Hs0 : internalIdMap s0 = ∅ ∧ internalIdCounter s0 = internalIdCounter sD ∧
                  draws s0 = draws sD) by (by destruct sD).
    destruct Hs0 as (Z1 & Z2 & Z3).
    assert (HndR : NoDup (iids R)).
    { rewrite Hii in Hnd. by apply NoDup_app in Hnd as [? _]. }
    assert (HtrR : Forall (fun i => truthy i = true) (iids R)).
    { rewrite Hii in Htr. by apply Forall_app in Htr as [? _]. }
    destruct (Build_stable _ _ _ _ _ HB HtrR HndR) as (-> & _ & S1 & S2 & _).
    { intros i _. by rewrite Z1. }
    destruct (Build_maps _ _ _ _ HB) as (M1 & _).
    destruct (paging_only_fields _ _ Hp)
      as (P1 & _ & _ & _ & _ & _ & _ & _ & _ & _ & P11 & _ & _ & P14 & _ & P16 & _).
    assert (Hd : data st' = R) by (rewrite P1; by destruct sE).
    assert (Hi : internalIdMap st' = idIndex R ∅)
      by (rewrite P11, <- Z1, <- M1; by destruct sE).
    assert (Hc : internalIdCounter st' = internalIdCounter st).
    { rewrite P14. transitivity (internalIdCounter sE); [by destruct sE|].
      by rewrite S1, Z2, V10. }
    assert (Hdr : draws st' = draws st).
    { rewrite P16. transitivity (draws sE); [by destruct sE|].
      by rewrite S2, Z3, V11. }
    exists t, N. rewrite Hd, Hi. repeat (split; [done|]). split; [|done].
    intros x Hx. by apply idIndex_lookup.
Qed.

Lemma updateData_unfold d st :
  updateData d st =
  match buildNodeDataMap (set_currentPage 1 (set_filteredData SameArray (set_data d st))) with
  | (Ok _, s) => (Ok tt, updateTreeContent s)
  | (Throw m, s) => (Throw m, s)
  end.
Proof.
  unfold updateData, bind, modify.
  by destruct (buildNodeDataMap _) as [[[]|m] s].
Qed.

(** X17.  [importTreeData] never throws.  Given a value that is not an
    array it returns [false] and changes nothing.  Given an array it makes
    it the forest, with nothing changed in the records but the internal
    ids that the rebuild assigns, and shows all of it: the filtered forest
    is the forest itself even when a search term is set, and the term, the
    selection and the expansion markers stay as they were.  No issued id is
    forgotten.  When the rebuild returns, the result is [true] and page 1
    is current. *)
Theorem importTreeData_replaces_forest (st : TreeView) (d : list node) :
  importTreeData None st = (Ok false, st) ∧
  ∃ b st',
    importTreeData (Some d) st = (Ok b, st') ∧
    map skeleton (data st') = map skeleton d ∧
    filteredData st' = SameArray ∧ filteredView st' = data st' ∧
    searchTerm st' = searchTerm st ∧
    selectedNodes st' = selectedNodes st ∧ expandedNodes st' = expandedNodes st ∧
    usedInternalIds st ⊆ usedInternalIds st' ∧
    (b = true ↔
     (buildNodeDataMap
        (set_currentPage 1 (set_filteredData SameArray (set_data d st)))).1 = Ok tt) ∧
    (b = true → currentPage st' = 1).
Proof.
  split; [done|]. unfold importTreeData. rewrite updateData_unfold.
  set (s1 := set_currentPage 1 (set_filteredData SameArray (set_data d st))).
  assert (F : data s1 = d ∧ filteredData s1 = SameArray ∧ searchTerm s1 = searchTerm st ∧
              selectedNodes s1 = selectedNodes st ∧ expandedNodes s1 = expandedNodes st ∧
              usedInternalIds s1 = usedInternalIds st ∧ currentPage s1 = 1)
    by (by destruct st).
  destruct F as (F1 & F2 & F3 & F4 & F5 & F6 & F7).
  destruct (buildNodeDataMap_Build s1) as (l' & sE & HB & H2).
  destruct (Build_weak _ _ _ _ _ HB) as [Hsk [Hu HR]]. rewrite F1 in Hsk.
  assert (HRR : registry_only
                  (set_nodeToInternalIdMap ∅ (set_internalIdMap ∅ (set_nodeDataMap ∅ s1))) sE)
    by (by split).
  destruct (registry_only_fields _ _ HRR) as (_ & _ & R3 & R4 & R5 & R6 & _ & R8 & _).
  assert (G : data (set_data l' sE) = l' ∧ filteredData (set_data l' sE) = SameArray ∧
              searchTerm (set_data l' sE) = searchTerm st ∧
              selectedNodes (set_data l' sE) = selectedNodes st ∧
              expandedNodes (set_data l' sE) = expandedNodes st ∧
              usedInternalIds st ⊆ usedInternalIds (set_data l' sE) ∧
              currentPage (set_data l' sE) = 1).
  { replace (usedInternalIds (set_data l' sE)) with (usedInternalIds sE) by (by destruct sE).
    replace (filteredData (set_data l' sE)) with (filteredData sE) by (by destruct sE).
    replace (searchTerm (set_data l' sE)) with (searchTerm sE) by (by destruct sE).
    replace (selectedNodes (set_data l' sE)) with (selectedNodes sE) by (by destruct sE).
    replace (expandedNodes (set_data l' sE)) with (expandedNodes sE) by (by destruct sE).
    replace (currentPage (set_data l' sE)) with (currentPage sE) by (by destruct sE).
    rewrite R3, R4, R5, R6, R8. split; [by destruct sE|].
    split; [by destruct s1|]. split; [rewrite <- F3; by destruct s1|].
    split; [rewrite <- F4; by destruct s1|]. split; [rewrite <- F5; by destruct s1|].
    split; [|rewrite <- F7; by destruct s1].
    rewrite <- F6. etrans; [|exact Hu]. by destruct s1. }
  destruct G as (G1 & G2 & G3 & G4 & G5 & G6 & G7).
  destruct (buildNodeDataMap s1) as [[[]|m] s2] eqn:Eb; cbn [fst snd] in *; subst s2.
  - exists true, (updateTreeContent (set_data l' sE)). split; [done|].
    destruct (paging_only_fields _ _ (updateTreeContent_paging (set_data l' sE)))
      as (P1 & _ & P3 & P4 & _ & _ & P7 & P8 & P9 & _ & _ & _ & P13 & _).
    rewrite P1, P3, P4, P7, P8, P9, P13, G1, G2, G3, G4, G5.
    split; [done|]. split; [done|]. split; [by unfold filteredView; rewrite G2, G1|].
    do 4 (split; [done|]). split; [done|].
    intros _. by apply updateTreeContent_first_page.
  - exists false, (set_data l' sE). split; [done|].
    rewrite G1, G2, G3, G4, G5.
    split; [done|]. split; [done|]. split; [by unfold filteredView; rewrite G2, G1|].
    do 4 (split; [done|]). split; [split; discriminate|discriminate].
Qed.

(** * The page buttons *)


(** * Search results and the registry *)

Lemma filterEach_fresh df t l :
  Forall (fun n => ∀ next r next',
            filterNode df t n next = (Ok r, next') →
            (next ≤ next')%nat ∧
            match r with
            | Some c => ∀ x, x ∈ subtree c →
                             (next ≤ oid x < next')%nat ∧
                             ∃ m, m ∈ subtree n ∧ props x = props m
            | None => True
            end) l →
  ∀ next rs next',
    filterEach (filterNode df t) l next = (Ok rs, next') →
    (next ≤ next')%nat ∧
    ∀ x, x ∈ forestNodes rs →
         (next ≤ oid x < next')%nat ∧ ∃ m, m ∈ forestNodes l ∧ props x = props m.
Proof.
  induction 1 as [|n l Hn _ IH]; intros next rs next' E.
  - injection E as <- <-. split; [done|]. intros x Hx. by apply elem_of_nil in Hx.
  - cbn [filterEach] in E. fold (filterEach (filterNode df t)) in E.
    destruct (filterNode df t n next) as [[r|m] nx1] eqn:En; [|done].
    destruct (filterEach (filterNode df t) l nx1) as [[rs0|m] nx2] eqn:El; [|done].
    injection E as <- <-.
    destruct (Hn _ _ _ En) as [N1 N2]. destruct (IH _ _ _ El) as [I1 I2].
    split; [lia|]. intros x Hx.
    assert (Hrest : x ∈ forestNodes rs0 →
              (next ≤ oid x < nx2)%nat ∧
              ∃ m, m ∈ forestNodes (n :: l) ∧ props x = props m).
    { intros Hx0. destruct (I2 x Hx0) as [? (m & Hm & ?)]. split; [lia|].
      exists m. split; [|done]. rewrite forestNodes_cons'. apply elem_of_app. by right. }
    destruct r as [c|]; [|by apply Hrest].
    rewrite forestNodes_cons' in Hx. apply elem_of_app in Hx as [Hx|Hx]; [|by apply Hrest].
    destruct (N2 x Hx) as [? (m & Hm & ?)]. split; [lia|].
    exists m. split; [|done]. rewrite forestNodes_cons'. apply elem_of_app. by left.
Qed.

Lemma filterNode_fresh df t n :
  ∀ next r next',
    filterNode df t n next = (Ok r, next') →
    (next ≤ next')%nat ∧
    match r with
    | Some c => ∀ x, x ∈ subtree c →
                     (next ≤ oid x < next')%nat ∧
                     ∃ m, m ∈ subtree n ∧ props x = props m
    | None => True
    end.
Proof.
  induction n as [o ps kp|o ps l kp IH] using node_ind'; intros next r next' E.
  - cbn [filterNode] in E. destruct (prop_get df ps) as [| | | |s]; try done.
    destruct (_ || _); injection E as <- <-; [|by split; [lia|]].
    split; [lia|]. intros x ->%list_elem_of_singleton. split; [cbn; lia|].
    exists (Node o ps None kp). split; [by left|done].
  - cbn [filterNode] in E. destruct (prop_get df ps) as [| | | |s]; try done.
    destruct (filterEach (filterNode df t) l next) as [[rs|m] nx1] eqn:El; [|done].
    destruct (filterEach_fresh df t l IH _ _ _ El) as [I1 I2].
    destruct (_ || _); injection E as <- <-; [|by split; [lia|]].
    split; [lia|]. intros x Hx. unfold subtree in Hx. rewrite descendants_Some in Hx.
    apply elem_of_cons in Hx as [->|Hx].
    + split; [cbn; lia|]. exists (Node o ps (Some l) kp). split; [by left|done].
    + destruct (I2 x Hx) as [? (m & Hm & ?)]. split; [lia|].
      exists m. split; [|done]. unfold subtree. rewrite descendants_Some. by right.
Qed.

(** X19.  After a search for a term that is not empty, on a registry as a
    rebuild leaves it, every node of the filtered forest is a new object, a
    copy with the properties of a node of the forest, and the internal id
    it carries is resolved by the registry to that node of the forest, not
    to the copy. *)
Theorem search_results_resolve_to_originals (st st' : TreeView) (term : string) :
  registry_settled st →
  toLowerCase term ≠ EmptyString →
  handleSearch term st = (Ok tt, st') →
  ∀ x, x ∈ forestNodes (filteredView st') →
       (oid x ∉ oids (data st')) ∧
       ∃ m, m ∈ forestNodes (data st') ∧ props x = props m ∧
            getNodeByInternalId (iid x) st' = Some m.
Proof.
  intros (Hnd & Hfresh & Htr & Hndi & Hidx) Hterm Hs x Hx.
  rewrite handleSearch_unfold in Hs.
  set (st1 := set_searchTerm (toLowerCase term) st) in *.
  assert (F1 : data st1 = data st ∧ searchTerm st1 = toLowerCase term ∧
               nextOid st1 = nextOid st ∧ displayField st1 = displayField st ∧
               internalIdMap st1 = internalIdMap st) by (by destruct st).
  destruct F1 as (A1 & A2 & A3 & A4 & A5).
  destruct (refilter st1) as [[[]|m0] s2] eqn:Er; [|done].
  injection Hs as <-.
  destruct (toLowerCase term) as [|ch tl] eqn:Et; [done|].
  (* what the filter made *)
  unfold refilter, filterNodes in Er. rewrite A1, A2, A3, A4 in Er.
  unfold filterNodes_from in Er.
  destruct (filterEach (filterNode (displayField st) (String ch tl)) (data st) (nextOid st))
    as [[rs|m0] nx] eqn:Ef; [|done].
  injection Er as <-.
  set (s2 := set_filteredData (OwnArray rs) (set_nextOid nx st1)) in *.
  assert (F2 : data s2 = data st ∧ internalIdMap s2 = internalIdMap st ∧
               filteredView (set_currentPage 1 s2) = rs ∧
               data (set_currentPage 1 s2) = data st ∧
               internalIdMap (set_currentPage 1 s2) = internalIdMap st ∧
               expandedNodes (set_currentPage 1 s2) = expandedNodes st)
    by (unfold s2, st1, filteredView; by destruct st).
  destruct F2 as (B1 & B2 & B3 & B4 & B5 & B6).
  rewrite autoExpandSearchResults_eq in Hx |- *.
  set (s4 := set_expandedNodes _ (set_currentPage 1 s2)) in *.
  assert (F4 : data s4 = data st ∧ internalIdMap s4 = internalIdMap st ∧
               filteredView s4 = rs).
  { unfold s4. rewrite <- B3, <- B4, <- B5. unfold filteredView.
    by destruct (set_currentPage 1 s2). }
  destruct F4 as (C1 & C2 & C3).
  destruct (paging_only_fields _ _ (updateTreeContent_paging s4))
    as (P1 & _ & _ & P4 & _ & _ & _ & _ & _ & _ & P11 & _).
  rewrite P4, C3 in Hx. rewrite P1, C1.
  destruct (filterEach_fresh (displayField st) (String ch tl) (data st))
    with (next := nextOid st) (rs := rs) (next' := nx) as [_ Hcopies]; [|done|].
  { apply Forall_forall. intros c _. apply filterNode_fresh. }
  destruct (Hcopies x Hx) as [Hox (m & Hm & Hp)].
  split.
  - intros Hin. specialize (Hfresh _ Hin). lia.
  - exists m. split; [done|]. split; [done|].
    assert (Hi : iid x = iid m) by (unfold iid; by rewrite Hp).
    assert (Htm : truthy (iid m) = true).
    { rewrite Forall_forall in Htr. apply Htr. apply list_elem_of_fmap. eauto. }
    unfold getNodeByInternalId. rewrite Hi, Htm. cbn [negb].
    rewrite P11, C2, Hidx, (idIndex_lookup _ _ m) by done.
    rewrite P1, C1. by apply findNode_present.
Qed.

(** * Construction *)

Lemma updateTreeContent_set_expanded X s :
  updateTreeContent (set_expandedNodes X s) = set_expandedNodes X (updateTreeContent s).
Proof.
  destruct (showPagination s) eqn:Hshow.
  - assert (Hshow' : showPagination (set_expandedNodes X s) = true) by (by destruct s).
    rewrite (updateTreeContent_shown _ Hshow), (updateTreeContent_shown _ Hshow').
    rewrite (getPaginatedData_shown _ Hshow), (getPaginatedData_shown _ Hshow').
    cbn [snd]. rewrite !calculatePagination_eq.
    unfold filteredView. by destruct s.
  - assert (Hshow' : showPagination (set_expandedNodes X s) = false) by (by destruct s).
    by rewrite (updateTreeContent_hidden _ Hshow), (updateTreeContent_hidden _ Hshow').
Qed.

Lemma getPaginatedData_after_update s :
  getPaginatedData (updateTreeContent s) = ((getPaginatedData s).1, updateTreeContent s).
Proof.
  destruct (showPagination s) eqn:Hshow.
  - pose proof (updateTreeContent_ok s Hshow) as Hok.
    set (s' := updateTreeContent s) in *.
    destruct (paging_only_fields _ _ (updateTreeContent_paging s))
      as (_ & _ & _ & P4 & P5 & P6 & _).
    fold s' in P4, P5, P6.
    assert (Hshow' : showPagination s' = true) by (by rewrite P6).
    rewrite (getPaginatedData_shown _ Hshow'), (calculatePagination_idem _ Hok), P4, P5.
    assert (Hs' : s' = set_paginatedData
                    (slice (filteredView s)
                       ((currentPage (calculatePagination s) - 1) * pageSize s)
                       ((currentPage (calculatePagination s) - 1) * pageSize s + pageSize s))
                    (calculatePagination s)).
    { unfold s'. by rewrite (updateTreeContent_shown _ Hshow), (getPaginatedData_shown _ Hshow). }
    assert (Hcp : currentPage s' = currentPage (calculatePagination s))
      by (rewrite Hs'; by destruct (calculatePagination s)).
    rewrite Hcp, (getPaginatedData_shown _ Hshow). cbn [fst]. f_equal.
    rewrite Hs'. by destruct (calculatePagination s).
  - rewrite (updateTreeContent_hidden _ Hshow). unfold getPaginatedData. by rewrite Hshow.
Qed.

(** [expandAllNodes] on a state that was just refreshed. *)
Lemma expandAllNodes_after_update s :
  expandAllNodes (updateTreeContent s) =
  set_expandedNodes (keysOf (getPaginatedData s).1 ∪ expandedNodes s) (updateTreeContent s).
Proof.
  unfold expandAllNodes. rewrite getPaginatedData_after_update.
  rewrite fold_add_keys, collectNodeIds_forest. fold (keysOf (getPaginatedData s).1).
  rewrite updateTreeContent_set_expanded.
  destruct (paging_only_fields _ _ (updateTreeContent_paging s))
    as (_ & _ & _ & _ & _ & _ & _ & P8 & _).
  rewrite P8. f_equal.
  pose proof (getPaginatedData_after_update s) as H.
  assert (G : (getPaginatedData (updateTreeContent s)).2 = updateTreeContent s)
    by (by rewrite H).
  unfold updateTreeContent at 1.
  rewrite G. destruct (showPagination (updateTreeContent s)) eqn:E; [|done].
  apply calculatePagination_idem. apply updateTreeContent_ok.
  destruct (paging_only_fields _ _ (updateTreeContent_paging s)) as (_ & _ & _ & _ & _ & P6 & _).
  by rewrite <- P6.
Qed.

Lemma first_page s :
  0 < pageSize s → currentPage s = 1 →
  (getPaginatedData s).1 =
  if showPagination s then take (Z.to_nat (pageSize s)) (filteredView s) else filteredView s.
Proof.
  intros Hps Hcp. destruct (showPagination s) eqn:Hshow.
  - rewrite (getPaginatedData_shown _ Hshow). cbn [fst].
    rewrite calculatePagination_eq, Hcp.
    set (T := Z.max 1 (Math_ceil_div _ _)).
    replace (Z.max 1 (Z.min 1 T)) with 1 by lia.
    replace (currentPage (set_currentPage 1 (set_totalPages T s))) with 1 by (by destruct s).
    rewrite (slice_take_drop _ ((1 - 1) * pageSize s)) by lia.
    change (Z.to_nat ((1 - 1) * pageSize s)) with 0%nat. by rewrite drop_0.
  - unfold getPaginatedData. by rewrite Hshow.
Qed.

(** X20.  A tree view as its constructor leaves it, for a positive page
    size and when the first rebuild of the registry returned: the forest is
    the data given, with nothing changed in the records but the internal
    ids assigned; nothing is selected, no search term is set and the
    filtered forest is the forest itself; page 1 is current and, with
    pagination shown, holds the first [pageSize] records.  Nothing is
    expanded unless [expandAll] was asked for: then the nodes of that first
    page are, and no other. *)
Theorem construct_shows_first_page
    (d : option (list node)) (df : string) (multi showPag expandAll : bool) (ps : Z)
    (clock : nat → Z) (rnd : nat → string) (next : nat) (st : TreeView) :
  0 < ps →
  construct d df multi showPag expandAll ps clock rnd next = (Ok tt, st) →
  let page := if showPag then take (Z.to_nat ps) (data st) else data st in
  map skeleton (data st) = map skeleton (match d with Some l => l | None => [] end) ∧
  selectedNodes st = ∅ ∧ searchTerm st = EmptyString ∧
  filteredView st = data st ∧ currentPage st = 1 ∧ pageSize st = ps ∧
  (showPag = true → paging_ok st ∧ paginatedData st = page) ∧
  expandedNodes st = (if expandAll then keysOf page else ∅).
Proof.
  intros Hps. unfold construct, bind, modify.
  set (s0 := initialState d df multi showPag ps clock rnd next).
  destruct (buildNodeDataMap s0) as [[[]|m] s1] eqn:Eb; [|done].
  intros [= <-].
  destruct (buildNodeDataMap_inv _ _ Eb) as (sE & HB & Hs1).
  destruct (Build_weak _ _ _ _ _ HB) as [Hsk HR].
  destruct (registry_only_fields _ _ HR)
    as (_ & _ & R3 & R4 & R5 & R6 & R7 & R8 & _ & R10 & _).
  assert (F : filteredData s1 = SameArray ∧ searchTerm s1 = EmptyString ∧
              selectedNodes s1 = ∅ ∧ expandedNodes s1 = ∅ ∧ pageSize s1 = ps ∧
              currentPage s1 = 1 ∧ showPagination s1 = showPag).
  { rewrite Hs1.
    replace (filteredData (set_data (data s1) sE)) with (filteredData sE) by (by destruct sE).
    replace (searchTerm (set_data (data s1) sE)) with (searchTerm sE) by (by destruct sE).
    replace (selectedNodes (set_data (data s1) sE)) with (selectedNodes sE) by (by destruct sE).
    replace (expandedNodes (set_data (data s1) sE)) with (expandedNodes sE) by (by destruct sE).
    replace (pageSize (set_data (data s1) sE)) with (pageSize sE) by (by destruct sE).
    replace (currentPage (set_data (data s1) sE)) with (currentPage sE) by (by destruct sE).
    replace (showPagination (set_data (data s1) sE)) with (showPagination sE)
      by (by destruct sE).
    by rewrite R3, R4, R5, R6, R7, R8, R10. }
  destruct F as (F1 & F2 & F3 & F4 & F5 & F6 & F7).
  assert (Fv : filteredView s1 = data s1) by (unfold filteredView; by rewrite F1).
  set (s2 := updateTreeContent s1).
  destruct (paging_only_fields _ _ (updateTreeContent_paging s1))
    as (P1 & _ & _ & P4 & P5 & P6 & P7 & P8 & P9 & _).
  fold s2 in P1, P4, P5, P6, P7, P8, P9.
  assert (Hcp2 : currentPage s2 = 1) by (by apply updateTreeContent_first_page).
  assert (Hpage : (getPaginatedData s1).1 =
                  if showPag then take (Z.to_nat ps) (data s1) else data s1).
  { rewrite first_page by (by rewrite ?F5). by rewrite F7, F5, Fv. }
  assert (Hpg : showPag = true →
                paging_ok s2 ∧ paginatedData s2 = take (Z.to_nat ps) (data s1)).
  { intros ->. split; [by apply updateTreeContent_ok|].
    destruct (getPaginatedData_ok s1) as (_ & H1 & _); [done|by rewrite F5|].
    unfold s2. rewrite (updateTreeContent_shown _ F7), H1. exact Hpage. }
  assert (Hcommon :
    ∀ X, let s := set_expandedNodes X s2 in
      map skeleton (data s) = map skeleton (match d with Some l => l | None => [] end) ∧
      selectedNodes s = ∅ ∧ searchTerm s = EmptyString ∧
      filteredView s = data s ∧ currentPage s = 1 ∧ pageSize s = ps ∧
      (showPag = true →
       paging_ok s ∧
       paginatedData s = (if showPag then take (Z.to_nat ps) (data s) else data s)) ∧
      expandedNodes s = X ∧ data s = data s1).
  { intros X s.
    assert (G : data s = data s2 ∧ selectedNodes s = selectedNodes s2 ∧
                searchTerm s = searchTerm s2 ∧ filteredView s = filteredView s2 ∧
                currentPage s = currentPage s2 ∧ pageSize s = pageSize s2 ∧
                paginatedData s = paginatedData s2 ∧ totalPages s = totalPages s2 ∧
                expandedNodes s = X)
      by (unfold s, filteredView; by destruct s2).
    destruct G as (G1 & G2 & G3 & G4 & G5 & G6 & G7 & G8 & G9).
    rewrite G1, G2, G3, G4, G5, G6, G7, G9, P1, P4, P5, P7, P9, Hcp2, F2, F3, F5, Fv.
    split; [exact Hsk|]. repeat (split; [done|]). split; [|done].
    intros Hsp. destruct (Hpg Hsp) as [[Ht Hb] Hpd]. rewrite Hsp. split; [|done].
    split; [by rewrite G8, G4, G6|rewrite G5, G8; exact Hb]. }
  destruct expandAll.
  - unfold s2. rewrite expandAllNodes_after_update. fold s2.
    destruct (Hcommon (keysOf (getPaginatedData s1).1 ∪ expandedNodes s1))
      as (C1 & C2 & C3 & C4 & C5 & C6 & C7 & C8 & C9).
    cbn zeta in *.
    do 6 (split; [assumption|]). split; [exact C7|].
    by rewrite C8, C9, F4, (right_id_L ∅ (∪)), Hpage.
  - destruct (Hcommon (expandedNodes s2)) as (C1 & C2 & C3 & C4 & C5 & C6 & C7 & C8 & C9).
    replace (set_expandedNodes (expandedNodes s2) s2) with s2 in * by (by destruct s2).
    cbn zeta in *.
    do 6 (split; [assumption|]). split; [exact C7|].
    by rewrite P8, F4.
Qed.

(** * The further properties on concrete trees *)

(** A run that returns [a] is the pair of [a] and its final state. *)
Lemma returns_eq {A} (r : Res A * TreeView) (a : A) : r.1 = Ok a → r = (Ok a, r.2).
Proof. destruct r as [x s]. simpl. by intros ->. Qed.

(** [fiveTree] shows its pages, two items to the page, as a recomputation
    leaves them. *)
Lemma fiveTree_paged :
  showPagination fiveTree = true ∧ 0 < pageSize fiveTree ∧ paging_ok fiveTree.
Proof.
  split; [vm_compute; reflexivity|]. split; [vm_compute; reflexivity|].
  unfold paging_ok. split; [vm_compute; reflexivity|].
  vm_compute. split; discriminate.
Defined.

(** The three pages of [fiveTree]. *)
Lemma pages_partition_filtered_forest_witness :
  (showPagination fiveTree = true ∧ 0 < pageSize fiveTree ∧ paging_ok fiveTree) ∧
  concat (map (fun k => paginatedData (goToPage (Z.of_nat k) fiveTree))
              (seq 1 (Z.to_nat (totalPages fiveTree)))) = filteredView fiveTree ∧
  (∀ p, 1 ≤ p < totalPages fiveTree →
        Z.of_nat (length (paginatedData (goToPage p fiveTree))) = pageSize fiveTree) ∧
  (∀ p, 1 ≤ p ≤ totalPages fiveTree → filteredView fiveTree ≠ [] →
        paginatedData (goToPage p fiveTree) ≠ []).
Proof.
  split; [exact fiveTree_paged|].
  exact (pages_partition_filtered_forest fiveTree
           (proj1 fiveTree_paged) (proj1 (proj2 fiveTree_paged))
           (proj2 (proj2 fiveTree_paged))).
Defined.

(** From page 1 of [fiveTree] to page 2 and back. *)
Lemma nextPage_previousPage_inverse_witness :
  (showPagination fiveTree = true ∧ 0 < pageSize fiveTree ∧ paging_ok fiveTree) ∧
  currentPage fiveTree < totalPages fiveTree ∧
  currentPage (nextPage fiveTree) = currentPage fiveTree + 1 ∧
  paginatedData (nextPage fiveTree) = [stamped 3 "i3" "3"; stamped 4 "i4" "4"] ∧
  currentPage (previousPage (nextPage fiveTree)) = currentPage fiveTree ∧
  paginatedData (previousPage (nextPage fiveTree)) = (getPaginatedData fiveTree).1.
Proof.
  assert (H : currentPage fiveTree < totalPages fiveTree) by (vm_compute; reflexivity).
  destruct (nextPage_previousPage_inverse fiveTree
              (proj1 fiveTree_paged) (proj1 (proj2 fiveTree_paged))
              (proj2 (proj2 fiveTree_paged))) as (_ & _ & Hn).
  destruct (Hn H) as (H1 & H2 & H3 & H4).
  split; [exact fiveTree_paged|]. split; [exact H|]. split; [exact H1|].
  split; [|split; [exact H3|exact H4]].
  rewrite H2. vm_compute. reflexivity.
Defined.

(** Page 1 of [fiveTree] holds the items 1 to 2 of 5. *)
Lemma getCurrentPageInfo_range_witness :
  (showPagination fiveTree = true ∧ 0 < pageSize fiveTree ∧ paging_ok fiveTree) ∧
  info_startItem (getCurrentPageInfo fiveTree) = 1 ∧
  info_endItem (getCurrentPageInfo fiveTree) = 2 ∧
  info_endItem (getCurrentPageInfo fiveTree) -
    info_startItem (getCurrentPageInfo fiveTree) + 1 =
    Z.of_nat (length (getPaginatedData fiveTree).1).
Proof.
  split; [exact fiveTree_paged|].
  split; [vm_compute; reflexivity|]. split; [vm_compute; reflexivity|].
  exact (proj1 (getCurrentPageInfo_range fiveTree
                  (proj1 fiveTree_paged) (proj1 (proj2 fiveTree_paged))
                  (proj2 (proj2 fiveTree_paged)))).
Defined.


(** The first rebuild of the registry of [rawTree] returns. *)
Lemma rawTree_rebuilt :
  buildNodeDataMap rawTree = (Ok tt, (buildNodeDataMap rawTree).2).
Proof. apply (returns_eq (buildNodeDataMap rawTree) tt). vm_compute. reflexivity. Defined.

(** The registry of [rawTree] after its first rebuild. *)
Lemma buildNodeDataMap_registers_every_node_witness :
  NoDup (oids (data rawTree)) ∧
  buildNodeDataMap rawTree = (Ok tt, (buildNodeDataMap rawTree).2) ∧
  NoDup (iids (data (buildNodeDataMap rawTree).2)) ∧
  ∀ n, n ∈ forestNodes (data (buildNodeDataMap rawTree).2) →
       truthy (iid n) = true ∧
       getNodeByInternalId (iid n) (buildNodeDataMap rawTree).2 = Some n.
Proof.
  assert (H : NoDup (oids (data rawTree))) by by_decide.
  destruct (buildNodeDataMap_registers_every_node rawTree _ H rawTree_rebuilt)
    as (_ & H2 & H3 & _).
  split; [exact H|]. split; [exact rawTree_rebuilt|]. split; [exact H2|].
  intros n Hn. destruct (H3 n Hn) as (T & _ & _ & G & _). exact (conj T G).
Defined.

(** A second rebuild of the registry of [rawTree]. *)
Lemma rebuild_keeps_internal_ids_witness :
  NoDup (oids (data rawTree)) ∧
  buildNodeDataMap rawTree = (Ok tt, (buildNodeDataMap rawTree).2) ∧
  ∃ st2,
    buildNodeDataMap (buildNodeDataMap rawTree).2 = (Ok tt, st2) ∧
    data st2 = data (buildNodeDataMap rawTree).2 ∧
    internalIdMap st2 = internalIdMap (buildNodeDataMap rawTree).2 ∧
    nodeToInternalIdMap st2 = nodeToInternalIdMap (buildNodeDataMap rawTree).2 ∧
    usedInternalIds st2 = usedInternalIds (buildNodeDataMap rawTree).2 ∧
    internalIdCounter st2 = internalIdCounter (buildNodeDataMap rawTree).2 ∧
    draws st2 = draws (buildNodeDataMap rawTree).2.
Proof.
  assert (H : NoDup (oids (data rawTree))) by by_decide.
  split; [exact H|]. split; [exact rawTree_rebuilt|].
  exact (rebuild_keeps_internal_ids rawTree _ H rawTree_rebuilt).
Defined.

(** The export of [rawTree] after its first rebuild. *)
Lemma cleanDataForExport_round_trip_witness :
  Forall unstamped (forestNodes (data rawTree)) ∧
  buildNodeDataMap rawTree = (Ok tt, (buildNodeDataMap rawTree).2) ∧
  ¬ Forall unstamped (forestNodes (data (buildNodeDataMap rawTree).2)) ∧
  map JSON_stringify (cleanDataForExport (data (buildNodeDataMap rawTree).2) 200).1 =
    map JSON_stringify (data rawTree).
Proof.
  assert (H : Forall unstamped (forestNodes (data rawTree))).
  { repeat constructor. unfold unstamped. by_decide. }
  split; [exact H|]. split; [exact rawTree_rebuilt|]. split.
  - intros F. apply Forall_inv in F. apply F. by_decide.
  - exact (proj2 (cleanDataForExport_round_trip rawTree _ 200 H rawTree_rebuilt)).
Defined.

(** Parents and levels in the tree of fruits. *)
Lemma parent_and_level_follow_the_forest_witness :
  NoDup (oids (data fruitTree)) ∧
  findParentNode 1 (data fruitTree) = Some 0%nat ∧
  getNodeLevel 1 fruitTree = 1 ∧ getNodeLevel 0 fruitTree = 0 ∧
  (∀ t, getNodeLevel t fruitTree = -1 ↔ t ∉ oids (data fruitTree)).
Proof.
  assert (H : NoDup (oids (data fruitTree))) by by_decide.
  split; [exact H|].
  split; [vm_compute; reflexivity|]. split; [vm_compute; reflexivity|].
  split; [vm_compute; reflexivity|].
  exact (proj1 (proj2 (proj2 (parent_and_level_follow_the_forest fruitTree H)))).
Defined.

(** [Citrus], added first under [Fruits]. *)
Lemma addNode_under_parent_witness :
  NoDup (oids (data fruitTree)) ∧
  (∀ o, o ∈ oids (visited_kids citrus) → o ∉ oids (data fruitTree)) ∧
  is_root_sentinel (VStr "1_1700000000000_abcdefghi") = false ∧
  internalIdMap fruitTree !! VStr "1_1700000000000_abcdefghi" = Some 0%nat ∧
  findNode 0 (data fruitTree) = Some fruitsNode ∧
  kids fruitsNode ≠ Some [] ∧
  generateInternalId (set_nextOid (S (nextOid fruitTree)) fruitTree) =
    (Ok citrusId, fruitTree_issued) ∧
  ∃ res st' P',
    addNode (VStr "1_1700000000000_abcdefghi") (Some citrus) "first" fruitTree = (res, st') ∧
    (res = Ok (Some citrusId) ∨ ∃ m, res = Throw m) ∧
    findNode 0 (data st') = Some P' ∧
    map skeleton (visited_kids P') =
      map skeleton
        (Node (nextOid fruitTree) (prop_set "_internalId" citrusId (props citrus))
              (kids citrus) (kpos citrus) :: visited_kids fruitsNode).
Proof.
  assert (H0 : NoDup (oids (data fruitTree))) by by_decide.
  assert (Hf : ∀ o, o ∈ oids (visited_kids citrus) → o ∉ oids (data fruitTree)).
  { apply (proj1 (Forall_forall (fun o => o ∉ oids (data fruitTree)) _)). by_decide. }
  assert (H1 : is_root_sentinel (VStr "1_1700000000000_abcdefghi") = false)
    by (vm_compute; reflexivity).
  assert (H2 : internalIdMap fruitTree !! VStr "1_1700000000000_abcdefghi" = Some 0%nat)
    by (vm_compute; reflexivity).
  assert (H3 : findNode 0 (data fruitTree) = Some fruitsNode) by (vm_compute; reflexivity).
  assert (Hk : kids fruitsNode ≠ Some []) by (unfold fruitsNode; simpl; discriminate).
  assert (H4 : generateInternalId (set_nextOid (S (nextOid fruitTree)) fruitTree) =
               (Ok citrusId, fruitTree_issued))
    by (apply (returns_eq (generateInternalId (set_nextOid (S (nextOid fruitTree)) fruitTree))
                          citrusId); vm_compute; reflexivity).
  destruct (addNode_under_parent fruitTree _ citrus "first" _ _ _ _ H0 Hf H1 H2 H3 Hk H4)
    as (res & st' & P' & E & R & _ & _ & F & _ & K).
  do 7 (split; [assumption|]).
  exists res, st', P'. split; [exact E|]. split; [exact R|]. split; [exact F|exact K].
Defined.

(** [fruitTree] is as a rebuild of the registry leaves it. *)
Lemma fruitTree_settled : registry_settled fruitTree.
Proof.
  unfold registry_settled.
  split; [by_decide|]. split.
  - intros o Ho. revert o Ho. apply (proj1 (Forall_forall _ _)). by_decide.
  - split; [by_decide|]. split; by_decide.
Defined.

(** The search for [APP] in the tree of fruits resolves to its nodes. *)
Lemma search_results_resolve_to_originals_witness :
  registry_settled fruitTree ∧
  toLowerCase "APP" ≠ EmptyString ∧
  handleSearch "APP" fruitTree = (Ok tt, (handleSearch "APP" fruitTree).2) ∧
  filteredView (handleSearch "APP" fruitTree).2 ≠ [] ∧
  ∀ x, x ∈ forestNodes (filteredView (handleSearch "APP" fruitTree).2) →
       (oid x ∉ oids (data (handleSearch "APP" fruitTree).2)) ∧
       ∃ m, m ∈ forestNodes (data (handleSearch "APP" fruitTree).2) ∧
            props x = props m ∧
            getNodeByInternalId (iid x) (handleSearch "APP" fruitTree).2 = Some m.
Proof.
  assert (H2 : toLowerCase "APP" ≠ EmptyString) by (vm_compute; discriminate).
  assert (H3 : handleSearch "APP" fruitTree = (Ok tt, (handleSearch "APP" fruitTree).2))
    by (apply (returns_eq (handleSearch "APP" fruitTree) tt); vm_compute; reflexivity).
  split; [exact fruitTree_settled|]. split; [exact H2|]. split; [exact H3|].
  split; [vm_compute; discriminate|].
  exact (search_results_resolve_to_originals fruitTree _ "APP" fruitTree_settled H2 H3).
Defined.

(** The tree of fruits as its constructor leaves it. *)
Lemma construct_shows_first_page_witness :
  0 < 10 ∧
  construct (Some fruits) "name" false true false 10 example_clock example_random36 100 =
    (Ok tt, fruitTree) ∧
  map skeleton (data fruitTree) = map skeleton fruits ∧
  selectedNodes fruitTree = ∅ ∧ searchTerm fruitTree = EmptyString ∧
  filteredView fruitTree = data fruitTree ∧ currentPage fruitTree = 1 ∧
  pageSize fruitTree = 10 ∧
  (true = true →
   paging_ok fruitTree ∧ paginatedData fruitTree = take (Z.to_nat 10) (data fruitTree)) ∧
  expandedNodes fruitTree = ∅.
Proof.
  assert (H1 : 0 < 10) by lia.
  assert (H2 : construct (Some fruits) "name" false true false 10
                         example_clock example_random36 100 = (Ok tt, fruitTree))
    by (apply (returns_eq (construct (Some fruits) "name" false true false 10
                                     example_clock example_random36 100) tt);
        vm_compute; reflexivity).
  pose proof (construct_shows_first_page _ _ _ _ _ _ _ _ _ _ H1 H2) as H.
  cbv beta iota zeta in H.
  split; [exact H1|]. split; [exact H2|]. exact H.
Defined.
